(** * Session tree navigator (extensions/sessions.ts)

    A shallow embedding of the tree builder, the tree flattener, the
    incremental filter, the selector's key handling and rendering, the
    formatting helpers and the header loader of [extensions/sessions.ts],
    followed by the properties established about them. *)

From Stdlib Require Import ZArith List String Ascii Bool Lia Permutation Sorted.
From Stdlib Require Import DecimalString DecimalZ.
From stdpp Require Import gmap strings list fin_maps.

Local Open Scope string_scope.
Local Open Scope list_scope.
Set Warnings "-register-all".
#[local] Arguments String.append !_ _ / : simpl nomatch.

(** ** Data model *)

(** [SessionWithParent]: the fields of [SessionInfo] the extension reads,
    plus the optional [parentSession].  [created] and [modified] hold the
    value of [Date.getTime()], an integer number of milliseconds. *)
Record Session := mkSession {
  path : string;
  name : option string;
  firstMessage : string;
  cwd : string;
  created : Z;
  modified : Z;
  parentSession : option string
}.

(** [SessionTreeNode] *)
Inductive SessionTreeNode := mkNode {
  tn_session : Session;
  tn_children : list SessionTreeNode;
  tn_depth : nat
}.

(** [FlatNode] *)
Record FlatNode := mkFlat {
  fn_session : Session;
  fn_depth : nat;
  fn_prefix : string;
  fn_isLast : bool;
  fn_hasChildren : bool
}.

(** ** [Array.prototype.sort] with a numeric comparator

    The sort is stable; [sort_by cmp] is the stable insertion sort for the
    comparator [cmp], where [cmp a b <= 0] keeps [a] before [b]. *)
Section Sort.
Context {A : Type} (cmp : A -> A -> Z).

Fixpoint insert_by (x : A) (l : list A) : list A :=
  match l with
  | [] => [x]
  | y :: l' => if (cmp x y <=? 0)%Z then x :: y :: l' else y :: insert_by x l'
  end.

Fixpoint sort_by (l : list A) : list A :=
  match l with
  | [] => []
  | x :: l' => insert_by x (sort_by l')
  end.
End Sort.

(** [(a, b) => b.modified.getTime() - a.modified.getTime()] *)
Definition cmp_modified_desc (a b : Session) : Z := (modified b - modified a)%Z.
(** [(a, b) => a.created.getTime() - b.created.getTime()] *)
Definition cmp_created_asc (a b : Session) : Z := (created a - created b)%Z.

(** ** buildSessionTree *)

(** First loop: [byPath.set(s.path, s)] for every session. *)
Definition index_by_path (sessions : list Session) : gmap string Session :=
  foldl (fun byPath s => <[path s := s]> byPath) ∅ sessions.

(** The two accumulators of the second loop. *)
Record Buckets := mkBuckets {
  childrenOf : gmap string (list Session);
  roots : list Session
}.

(** [session.parentSession && byPath.has(session.parentSession)]: an absent
    or empty parent reference is falsy. *)
Definition has_parent (byPath : gmap string Session) (s : Session) : bool :=
  match parentSession s with
  | Some p => negb (String.eqb p "") && bool_decide (is_Some (byPath !! p))
  | None => false
  end.

(** One iteration of the second loop. *)
Definition register (byPath : gmap string Session) (b : Buckets) (s : Session) : Buckets :=
  match parentSession s with
  | Some p =>
      if negb (String.eqb p "") && bool_decide (is_Some (byPath !! p)) then
        let children := default [] (childrenOf b !! p) in
        mkBuckets (<[p := children ++ [s]]> (childrenOf b)) (roots b)
      else mkBuckets (childrenOf b) (roots b ++ [s])
  | None => mkBuckets (childrenOf b) (roots b ++ [s])
  end.

Definition fill_buckets (sessions : list Session) : Buckets :=
  foldl (register (index_by_path sessions)) (mkBuckets ∅ []) sessions.

(** [childrenOf.get(session.path) || []] followed by the in-place sort.
    The bucket is sorted where it is stored; a later visit of the same
    bucket sorts a sorted array, which leaves it unchanged. *)
Definition sorted_children (cO : gmap string (list Session)) (s : Session) : list Session :=
  sort_by cmp_created_asc (default [] (cO !! path s)).

(** [buildNode].  The recursion follows the children buckets, which is not
    structural; [fuel] bounds the recursion depth and [None] means the
    bound was reached before the recursion ended. *)
Fixpoint buildNode (fuel : nat) (cO : gmap string (list Session))
    (s : Session) (depth : nat) : option SessionTreeNode :=
  match fuel with
  | O => None
  | S fuel' =>
      match mapM (fun child => buildNode fuel' cO child (depth + 1)) (sorted_children cO s) with
      | Some kids => Some (mkNode s kids depth)
      | None => None
      end
  end.

Definition buildSessionTree_fuel (fuel : nat) (sessions : list Session)
    : option (list SessionTreeNode) :=
  let b := fill_buckets sessions in
  mapM (fun root => buildNode fuel (childrenOf b) root 0)
       (sort_by cmp_modified_desc (roots b)).

(** [buildSessionTree].  When the recursion of [buildNode] ends at all, it
    ends within [length sessions] levels, so [None] stands for a recursion
    that never ends. *)
Definition buildSessionTree (sessions : list Session) : option (list SessionTreeNode) :=
  buildSessionTree_fuel (length sessions) sessions.

(** ** flattenTree *)

Definition connector (isLast : bool) : string := if isLast then "└─ " else "├─ ".
Definition fragment (isLast : bool) : string := if isLast then "   " else "│  ".

(** [for (...) prefix += parentPrefixes[i]] *)
Definition join_prefixes (parentPrefixes : list string) : string :=
  foldl String.append "" parentPrefixes.

(** The inner [flatten]; the pushes onto [result] are returned in order.
    [flatten_children n i cs] is the [forEach] over the children from
    index [i] on, [n] being [node.children.length]. *)
Fixpoint flatten (node : SessionTreeNode) (depth : nat)
    (parentPrefixes : list string) (isLast : bool) : list FlatNode :=
  let prefix :=
    if (0 <? depth)%nat then join_prefixes parentPrefixes +:+ connector isLast else "" in
  let newParentPrefixes :=
    if (0 <? depth)%nat then parentPrefixes ++ [fragment isLast] else parentPrefixes in
  let n := length (tn_children node) in
  mkFlat (tn_session node) depth prefix isLast (0 <? n)%nat ::
  (fix flatten_children (i : nat) (cs : list SessionTreeNode) : list FlatNode :=
     match cs with
     | [] => []
     | child :: cs' =>
         flatten child (depth + 1) newParentPrefixes (i =? n - 1)%nat
           ++ flatten_children (S i) cs'
     end) 0%nat (tn_children node).

Fixpoint flatten_roots (n i : nat) (rs : list SessionTreeNode) : list FlatNode :=
  match rs with
  | [] => []
  | root :: rs' => flatten root 0 [] (i =? n - 1)%nat ++ flatten_roots n (S i) rs'
  end.

Definition flattenTree (roots : list SessionTreeNode) : list FlatNode :=
  flatten_roots (length roots) 0 roots.

(** ** Strings

    A string is held as the sequence of its bytes in UTF-8.  The ASCII
    characters are the bytes below 128.  On strings made of them
    [toLowerCase] folds the letters [A]-[Z], [trim] strips the tab, the
    line feed, the vertical tab, the form feed, the carriage return and
    the blank, and [length] is the number of characters. *)

Definition lower_ascii (c : ascii) : ascii :=
  let n := nat_of_ascii c in
  if ((65 <=? n) && (n <=? 90))%nat then ascii_of_nat (n + 32) else c.

Fixpoint ascii_toLowerCase (s : string) : string :=
  match s with
  | EmptyString => EmptyString
  | String c s' => String (lower_ascii c) (ascii_toLowerCase s')
  end.

Definition is_space (c : ascii) : bool :=
  let n := nat_of_ascii c in
  ((9 <=? n) && (n <=? 13) || (n =? 32))%nat.

Fixpoint ascii_trimStart (s : string) : string :=
  match s with
  | EmptyString => EmptyString
  | String c s' => if is_space c then ascii_trimStart s' else s
  end.

Fixpoint ascii_trimEnd (s : string) : string :=
  match s with
  | EmptyString => EmptyString
  | String c s' =>
      match ascii_trimEnd s' with
      | EmptyString => if is_space c then EmptyString else String c EmptyString
      | t => String c t
      end
  end.

Definition ascii_trim (s : string) : string := ascii_trimEnd (ascii_trimStart s).

(** [s] is made of ASCII white space, the empty string included. *)
Fixpoint all_space (s : string) : bool :=
  match s with
  | EmptyString => true
  | String c s' => is_space c && all_space s'
  end.

(** Every character of [s] is an ASCII character. *)
Fixpoint is_ascii (s : string) : bool :=
  match s with
  | EmptyString => true
  | String c s' => (nat_of_ascii c <? 128)%nat && is_ascii s'
  end.

(** [String.prototype.toLowerCase], [String.prototype.trim] and [length]
    are the runtime's: the first two follow the Unicode character tables
    (lower-casing depends on the neighbouring characters, and [trim] knows
    white space beyond ASCII), and [length] counts UTF-16 code units.
    They are taken as given, with what they do on strings of ASCII
    characters, and with the fact that white space has no lower case: a
    string that [trim] empties is left as it is by [toLowerCase]. *)
Class StringMethods := {
  toLowerCase : string -> string;
  trim : string -> string;
  code_units : string -> nat;
  toLowerCase_ascii : forall s, is_ascii s = true -> toLowerCase s = ascii_toLowerCase s;
  trim_ascii : forall s, is_ascii s = true -> trim s = ascii_trim s;
  toLowerCase_blank : forall s, trim s = "" -> toLowerCase s = s;
  code_units_ascii : forall s, is_ascii s = true -> code_units s = String.length s
}.

Fixpoint starts_with (q text : string) : bool :=
  match q, text with
  | EmptyString, _ => true
  | String a q', String b text' => Ascii.eqb a b && starts_with q' text'
  | String _ _, EmptyString => false
  end.

(** [text.includes(q)] *)
Fixpoint includes (text q : string) : bool :=
  starts_with q text ||
  match text with
  | EmptyString => false
  | String _ text' => includes text' q
  end.

(** [.filter(Boolean)] on an array of optional strings: [undefined] and the
    empty string are dropped. *)
Fixpoint filter_Boolean (l : list (option string)) : list string :=
  match l with
  | [] => []
  | Some s :: l' => if String.eqb s "" then filter_Boolean l' else s :: filter_Boolean l'
  | None :: l' => filter_Boolean l'
  end.

(** [.join(sep)] *)
Fixpoint join (sep : string) (l : list string) : string :=
  match l with
  | [] => ""
  | [x] => x
  | x :: l' => x +:+ sep +:+ join sep l'
  end.

(** ** The terminal toolkit the selector is written against

    [Input] (the text field), and [matchesKey], come from the TUI library;
    the selector only relies on this interface. *)
Class Toolkit := {
  Input : Type;
  Input_new : Input;
  getValue : Input -> string;
  setValue : Input -> string -> Input;
  Input_handleInput : Input -> string -> Input;
  getValue_new : getValue Input_new = "";
  getValue_setValue : forall i v, getValue (setValue i v) = v;
  matchesKey : string -> string -> bool
}.

Definition Key_escape := "escape".
Definition Key_enter := "enter".
Definition Key_up := "up".
Definition Key_down := "down".
Definition Key_pageUp := "pageUp".
Definition Key_pageDown := "pageDown".
Definition Key_home := "home".
Definition Key_end := "end".

(** What [handleInput] reports to its owner: [onSelect(path)] or
    [onCancel()]. *)
Inductive Outcome := Selected (p : string) | Cancelled.

(** [array[i]] for an integer index: [undefined] out of range. *)
Definition at_index {A} (l : list A) (i : Z) : option A :=
  if (i <? 0)%Z then None else l !! Z.to_nat i.

(** [findIndex]: the first index satisfying [f], or [-1]. *)
Fixpoint findIndex_from {A} (f : A -> bool) (i : Z) (l : list A) : Z :=
  match l with
  | [] => (-1)%Z
  | x :: l' => if f x then i else findIndex_from f (i + 1)%Z l'
  end.
Definition findIndex {A} (f : A -> bool) (l : list A) : Z := findIndex_from f 0%Z l.

Section Filter.
Context `{StringMethods}.

(** The text a node is matched against in [applyFilter]. *)
Definition match_text (node : FlatNode) : string :=
  let s := fn_session node in
  toLowerCase (join " " (filter_Boolean [Some (firstMessage s); name s; Some (cwd s); Some (path s)])).

(** The array assigned to [filteredNodes] for the raw value of the search
    field. *)
Definition filter_nodes (value : string) (flatNodes : list FlatNode) : list FlatNode :=
  let query := trim (toLowerCase value) in
  if String.eqb query "" then flatNodes
  else List.filter (fun node => includes (match_text node) query) flatNodes.
End Filter.

Section Selector.
Context `{StringMethods} `{Toolkit}.

(** The mutable fields of [SessionTreeSelector]. *)
Record Selector := mkSelector {
  flatNodes : list FlatNode;
  filteredNodes : list FlatNode;
  selectedIndex : Z;
  scrollOffset : Z;
  maxVisibleLines : Z;
  searchInput : Input;
  searchMode : bool;
  currentSessionPath : option string
}.

Definition set_selection (st : Selector) (sel off : Z) : Selector :=
  mkSelector (flatNodes st) (filteredNodes st) sel off (maxVisibleLines st)
    (searchInput st) (searchMode st) (currentSessionPath st).

Definition ensureVisible (st : Selector) : Selector :=
  if (selectedIndex st <? scrollOffset st)%Z then
    set_selection st (selectedIndex st) (selectedIndex st)
  else if (selectedIndex st >=? scrollOffset st + maxVisibleLines st)%Z then
    set_selection st (selectedIndex st) (selectedIndex st - maxVisibleLines st + 1)%Z
  else st.

Definition applyFilter (st : Selector) : Selector :=
  let filtered := filter_nodes (getValue (searchInput st)) (flatNodes st) in
  let sel := Z.min (selectedIndex st) (Z.max 0 (Z.of_nat (length filtered) - 1)) in
  ensureVisible
    (mkSelector (flatNodes st) filtered sel 0%Z (maxVisibleLines st)
       (searchInput st) (searchMode st) (currentSessionPath st)).

(** The constructor, given the flattened tree. *)
Definition new_selector (flat : list FlatNode) (maxVisible : Z)
    (current : option string) : Selector :=
  let st := mkSelector flat flat 0%Z 0%Z maxVisible Input_new false current in
  match current with
  | Some p =>
      if String.eqb p "" then st
      else
        let idx := findIndex (fun n => String.eqb (path (fn_session n)) p) flat in
        if (idx >=? 0)%Z then ensureVisible (set_selection st idx 0%Z) else st
  | None => st
  end.

Definition set_search (st : Selector) (mode : bool) (inp : Input) : Selector :=
  mkSelector (flatNodes st) (filteredNodes st) (selectedIndex st) (scrollOffset st)
    (maxVisibleLines st) inp mode (currentSessionPath st).

Definition move_to (st : Selector) (sel : Z) : Selector :=
  ensureVisible (set_selection st sel (scrollOffset st)).

Definition handleInput (st : Selector) (data : string) : Selector * option Outcome :=
  let len := Z.of_nat (length (filteredNodes st)) in
  if searchMode st then
    if matchesKey data Key_escape then
      (applyFilter (set_search st false (setValue (searchInput st) "")), None)
    else if matchesKey data Key_enter then
      (set_search st false (searchInput st), None)
    else
      (applyFilter (set_search st true (Input_handleInput (searchInput st) data)), None)
  else if matchesKey data Key_up || matchesKey data "k" then
    if (selectedIndex st >? 0)%Z then (move_to st (selectedIndex st - 1)%Z, None)
    else (st, None)
  else if matchesKey data Key_down || matchesKey data "j" then
    if (selectedIndex st <? len - 1)%Z then (move_to st (selectedIndex st + 1)%Z, None)
    else (st, None)
  else if matchesKey data Key_pageUp then
    (move_to st (Z.max 0 (selectedIndex st - maxVisibleLines st)), None)
  else if matchesKey data Key_pageDown then
    (move_to st (Z.min (len - 1) (selectedIndex st + maxVisibleLines st)), None)
  else if matchesKey data Key_home then
    (move_to st 0%Z, None)
  else if matchesKey data Key_end then
    (move_to st (len - 1)%Z, None)
  else if matchesKey data Key_enter then
    match at_index (filteredNodes st) (selectedIndex st) with
    | Some selected => (st, Some (Selected (path (fn_session selected))))
    | None => (st, None)
    end
  else if matchesKey data Key_escape then
    (st, Some Cancelled)
  else if String.eqb data "/" then
    (set_search st true (searchInput st), None)
  else (st, None).

(** Feeding a sequence of inputs, keeping the final state. *)
Definition handleInputs (st : Selector) (inputs : list string) : Selector :=
  foldl (fun st data => fst (handleInput st data)) st inputs.
End Selector.

(** ** getSessionHeader and loadSessionsWithParents *)

(** The value [JSON.parse] returns. *)
Inductive JValue :=
| JNull
| JBool (b : bool)
| JNum (z : Z)
| JStr (s : string)
| JArr (items : list JValue)
| JObj (fields : list (string * JValue)).

(** What the promise of [getSessionHeader] carries: [{ parentSession }]
    (the field may be [undefined] or any JSON value) or [null]. *)
Inductive HeaderResult :=
| Header (parentSession : option JValue)
| NoHeader.

Inductive Promise (A : Type) :=
| Pending
| Resolved (a : A)
| Rejected.
Arguments Pending {A}.
Arguments Resolved {A} a.
Arguments Rejected {A}.

(** The events the read stream and the line reader deliver to the
    listeners [getSessionHeader] installs. *)
Inductive StreamEvent :=
| EvLine (line : string)
| EvRlError
| EvStreamError
| EvClose.

(** A stored session record as the line reader sees it: a file that cannot
    be opened or read, or a sequence of lines.  A zero-length file has no
    line, and the line reader then emits ['close'] only. *)
Inductive SessionFile :=
| Unreadable
| Lines (ls : list string).

Definition events_of_file (f : SessionFile) : list StreamEvent :=
  match f with
  | Unreadable => [EvStreamError; EvClose]
  | Lines ls => map EvLine ls ++ [EvClose]
  end.

(** [v.key]: throws on [null], [undefined] on a value without that
    property; in an object literal parsed with duplicate keys the last
    one wins. *)
Fixpoint lookup_field (key : string) (fields : list (string * JValue)) : option JValue :=
  match fields with
  | [] => None
  | (k, v) :: fields' =>
      match lookup_field key fields' with
      | Some v' => Some v'
      | None => if String.eqb k key then Some v else None
      end
  end.

Inductive Thrown := TypeError | SyntaxError.

Definition get_property (v : JValue) (key : string) : Thrown + option JValue :=
  match v with
  | JNull => inl TypeError
  | JObj fields => inr (lookup_field key fields)
  | _ => inr None
  end.

Section HeaderReader.
(** [JSON.parse]: [None] when it throws a [SyntaxError]. *)
Variable JSON_parse : string -> option JValue.

(** The body of the [try] block in the ['line'] listener: the value
    passed to [resolve], or the exception thrown. *)
Definition try_header (line : string) : Thrown + HeaderResult :=
  match JSON_parse line with
  | None => inl SyntaxError
  | Some header =>
      match get_property header "type" with
      | inl e => inl e
      | inr (Some (JStr "session")) =>
          match get_property header "parentSession" with
          | inl e => inl e
          | inr ps => inr (Header ps)
          end
      | inr _ => inr NoHeader
      end
  end.

(** [try { ... } catch { resolve(null) }] *)
Definition on_line (line : string) : HeaderResult :=
  match try_header line with
  | inr r => r
  | inl _ => NoHeader
  end.

(** The promise and the three [once] listeners. *)
Record Reader := mkReader {
  promise : Promise HeaderResult;
  lineArmed : bool;
  rlErrorArmed : bool;
  streamErrorArmed : bool
}.

Definition resolve (r : HeaderResult) (p : Promise HeaderResult) : Promise HeaderResult :=
  match p with
  | Pending => Resolved r
  | settled => settled
  end.

Definition reader_start : Reader := mkReader Pending true true true.

Definition deliver (st : Reader) (ev : StreamEvent) : Reader :=
  match ev with
  | EvLine line =>
      if lineArmed st then
        mkReader (resolve (on_line line) (promise st)) false (rlErrorArmed st) (streamErrorArmed st)
      else st
  | EvRlError =>
      if rlErrorArmed st then
        mkReader (resolve NoHeader (promise st)) (lineArmed st) false (streamErrorArmed st)
      else st
  | EvStreamError =>
      if streamErrorArmed st then
        mkReader (resolve NoHeader (promise st)) (lineArmed st) (rlErrorArmed st) false
      else st
  | EvClose => st
  end.

(** The state of the returned promise once the events have been
    delivered. *)
Definition getSessionHeader_on (events : list StreamEvent) : Promise HeaderResult :=
  promise (foldl deliver reader_start events).

(** The record stored under each path of the session listing. *)
Variable fs : string -> SessionFile.

Definition getSessionHeader (sessionPath : string) : Promise HeaderResult :=
  getSessionHeader_on (events_of_file (fs sessionPath)).

(** [header?.parentSession]: [undefined] for a [null] header, and
    otherwise whatever the header holds under that key, a string or not. *)
Definition parent_of_header (h : HeaderResult) : option JValue :=
  match h with
  | Header ps => ps
  | NoHeader => None
  end.

(** [{ ...session, parentSession: header?.parentSession }]: the fields of
    the session, and under [parentSession] the value read from the header,
    which replaces any field of that name. *)
Record LoadedSession := mkLoaded {
  ls_session : Session;
  ls_parentSession : option JValue
}.

Definition with_parent (s : Session) (h : HeaderResult) : LoadedSession :=
  mkLoaded s (parent_of_header h).

(** The loop of [loadSessionsWithParents], from [loaded] sessions done
    and [results] collected. *)
Fixpoint load_loop (total loaded : nat) (results : list LoadedSession)
    (todo : list Session) : list (nat * nat) * Promise (list LoadedSession) :=
  match todo with
  | [] => ([], Resolved results)
  | session :: rest =>
      match getSessionHeader (path session) with
      | Resolved header =>
          let loaded' := S loaded in
          let '(calls, out) :=
            load_loop total loaded' (results ++ [with_parent session header]) rest in
          ((loaded', total) :: calls, out)
      | Pending => ([], Pending)
      | Rejected => ([], Rejected)
      end
  end.

(** The calls made to [onProgress] and the state of the returned
    promise: [Pending] when an [await] never returns. *)
Definition loadSessionsWithParents (sessions : list Session)
    : list (nat * nat) * Promise (list LoadedSession) :=
  load_loop (length sessions) 0 [] sessions.
End HeaderReader.

(** ** Formatting helpers and [render] *)

(** A number in a template literal: the decimal digits of an integer. *)
Definition number_to_string (z : Z) : string := NilZero.string_of_int (Z.to_int z).

(** [formatRelativeDate], for [Date.now()] equal to [now]; [date] is
    [date.getTime()].  [Math.floor] of a quotient of integers is [Z.div].
    [toLocaleDateString] is the runtime's. *)
Definition formatRelativeDate (toLocaleDateString : Z -> string) (now date : Z) : string :=
  let diff := (now - date)%Z in
  let minutes := (diff / 60000)%Z in
  let hours := (diff / 3600000)%Z in
  let days := (diff / 86400000)%Z in
  if (minutes <? 1)%Z then "now"
  else if (minutes <? 60)%Z then number_to_string minutes +:+ "m ago"
  else if (hours <? 24)%Z then number_to_string hours +:+ "h ago"
  else if (days <? 7)%Z then number_to_string days +:+ "d ago"
  else toLocaleDateString date.

(** [s.slice(n)] for [0 <= n]. *)
Fixpoint slice_from (n : nat) (s : string) : string :=
  match n, s with
  | O, _ => s
  | S n', String _ s' => slice_from n' s'
  | S _, EmptyString => EmptyString
  end.

(** [shortenPath]; [HOME] is [process.env.HOME], absent when unset.
    Under [path.startsWith(home)], [path.slice(home.length)] is [path]
    without the prefix [home], in whatever unit [length] counts. *)
Definition shortenPath (HOME : option string) (p : string) : string :=
  let home := default "" HOME in
  if negb (String.eqb home "") && starts_with home p
  then "~" +:+ slice_from (String.length home) p
  else p.

(** [s.split("\n")[0]] *)
Fixpoint first_line (s : string) : string :=
  match s with
  | EmptyString => EmptyString
  | String c s' => if Ascii.eqb c "010"%char then EmptyString else String c (first_line s')
  end.

(** [" ".repeat(n)] *)
Fixpoint spaces (n : nat) : string :=
  match n with
  | O => EmptyString
  | S n' => String " "%char (spaces n')
  end.

(** [array.slice(start, end)] with integer bounds: a negative bound counts
    from the end, and both are clamped to the array. *)
Definition slice_bound (len i : Z) : Z :=
  if (i <? 0)%Z then Z.max (len + i) 0 else Z.min i len.

Definition slice {A} (l : list A) (start stop : Z) : list A :=
  let len := Z.of_nat (length l) in
  let k := slice_bound len start in
  let final := slice_bound len stop in
  take (Z.to_nat (final - k)) (drop (Z.to_nat k) l).

Fixpoint has_slash (s : string) : bool :=
  match s with
  | EmptyString => false
  | String c s' => Ascii.eqb c "/"%char || has_slash s'
  end.

(** [result.split("/").pop()]: what follows the last ["/"]. *)
Fixpoint last_segment (s : string) : string :=
  match s with
  | EmptyString => EmptyString
  | String c s' =>
      if has_slash s' then last_segment s'
      else if Ascii.eqb c "/"%char then s' else s
  end.

(** [result.split("/").pop() || result], the name shown once a session is
    chosen. *)
Definition shown_filename (result : string) : string :=
  let filename := last_segment result in
  if String.eqb filename "" then result else filename.

(** What [render] takes from the theme and the TUI library. *)
Class Styling := {
  theme_fg : string -> string -> string;
  theme_bg : string -> string -> string;
  theme_bold : string -> string;
  truncateToWidth : string -> Z -> string;
  visibleWidth : string -> Z;
  toLocaleDateString : Z -> string
}.

Section Render.
Context `{StringMethods} `{Toolkit} `{Styling}.
Variable showAllProjects : bool.
Variable now : Z.
Variable HOME : option string.

(** [filteredNodes.slice(scrollOffset, scrollOffset + maxVisibleLines)] *)
Definition visibleNodes (st : Selector) : list FlatNode :=
  slice (filteredNodes st) (scrollOffset st) (scrollOffset st + maxVisibleLines st)%Z.

(** [actualIndex === this.selectedIndex] for the [i]-th visible node. *)
Definition isSelected (st : Selector) (i : nat) : bool :=
  (scrollOffset st + Z.of_nat i =? selectedIndex st)%Z.

Definition isCurrent (st : Selector) (node : FlatNode) : bool :=
  bool_decide (Some (path (fn_session node)) = currentSessionPath st).

(** [node.session.name || node.session.firstMessage || "(empty)"], first
    line only. *)
Definition displayName (node : FlatNode) : string :=
  let s := fn_session node in
  let chosen :=
    match name s with
    | Some n => if String.eqb n "" then None else Some n
    | None => None
    end in
  first_line
    (match chosen with
     | Some n => n
     | None => if String.eqb (firstMessage s) "" then "(empty)" else firstMessage s
     end).

(** The body of the [forEach] over the visible nodes, down to the
    highlighting: the line built for a node from its prefix, the marker
    of the current session, the name, the padding, the date and the
    working directory. *)
Definition row_line (st : Selector) (width : Z) (node : FlatNode) : string :=
  let indicator := if isCurrent st node then "● " else "  " in
  let dateStr := formatRelativeDate toLocaleDateString now (modified (fn_session node)) in
  let prefixWidth := visibleWidth (fn_prefix node) in
  let indicatorWidth := visibleWidth indicator in
  let dateWidth := (Z.of_nat (code_units dateStr) + 2)%Z in
  let cwdPart :=
    if showAllProjects then " " +:+ shortenPath HOME (cwd (fn_session node)) else "" in
  let cwdWidth := visibleWidth cwdPart in
  let availableForName :=
    (width - prefixWidth - indicatorWidth - dateWidth - cwdWidth - 2)%Z in
  let shown :=
    if (availableForName >? 10)%Z then truncateToWidth (displayName node) availableForName
    else displayName node in
  let line := fn_prefix node +:+ indicator +:+ shown in
  let currentWidth := visibleWidth line in
  let padding := Z.max 1 (width - currentWidth - dateWidth - cwdWidth - 1) in
  let line := line +:+ spaces (Z.to_nat padding) in
  let line := line +:+ theme_fg "dim" dateStr in
  let line := if String.eqb cwdPart "" then line else line +:+ theme_fg "muted" cwdPart in
  line.

(** The rest of that body: the highlighting, and the line pushed for the
    [i]-th visible node. *)
Definition render_row (st : Selector) (width : Z) (i : nat) (node : FlatNode) : string :=
  let line := row_line st width node in
  let line :=
    if isSelected st i then theme_bg "selectedBg" (theme_fg "accent" line)
    else if isCurrent st node then theme_fg "success" line
    else if (0 <? fn_depth node)%nat then theme_fg "text" line
    else line in
  truncateToWidth line width.

Fixpoint render_rows (st : Selector) (width : Z) (i : nat) (nodes : list FlatNode)
    : list string :=
  match nodes with
  | [] => []
  | node :: nodes' => render_row st width i node :: render_rows st width (S i) nodes'
  end.

(** [render(width)] *)
Definition render (st : Selector) (width : Z) : list string :=
  let scope := if showAllProjects then "all projects" else "current project" in
  let len := Z.of_nat (length (filteredNodes st)) in
  [ theme_fg "accent" (theme_bold (" Session Tree (" +:+ scope +:+ ")")); "" ]
  ++ (if searchMode st
      then [ truncateToWidth
               (theme_fg "muted" " Search: " +:+ getValue (searchInput st) +:+ "█") width;
             "" ]
      else [])
  ++ (if (len =? 0)%Z
      then [ theme_fg "warning" "  No sessions found" ]
      else
        render_rows st width 0 (visibleNodes st)
        ++ (if (len >? maxVisibleLines st)%Z
            then [ theme_fg "dim"
                     (" " +:+ number_to_string (scrollOffset st + 1) +:+ "-"
                      +:+ number_to_string
                            (Z.min (scrollOffset st + maxVisibleLines st) len)
                      +:+ " of " +:+ number_to_string len) ]
            else []))
  ++ [ "";
       theme_fg "dim"
         (" " +:+ (if searchMode st
                   then "enter: apply filter • esc: cancel search"
                   else "↑↓/jk: navigate • enter: select • /: filter • esc: cancel")) ].
End Render.

(** ** Concrete string methods and a concrete toolkit

    String methods for a runtime whose strings hold ASCII characters only:
    on such strings they are the runtime's own.  The sample inputs below
    are strings of ASCII characters. *)
Lemma ascii_trimStart_blank s : ascii_trimStart s = "" -> all_space s = true.
Proof.
  induction s as [|c s IH]; simpl; [done|].
  destruct (is_space c); [exact IH|done].
Qed.

Lemma ascii_trimEnd_blank s : ascii_trimEnd s = "" -> all_space s = true.
Proof.
  induction s as [|c s IH]; simpl; [done|].
  destruct (ascii_trimEnd s); [|done].
  destruct (is_space c); [by intros _; apply IH|done].
Qed.

Lemma ascii_trimStart_spaces s : all_space (ascii_trimStart s) = true -> all_space s = true.
Proof.
  induction s as [|c s IH]; simpl; [done|].
  destruct (is_space c) eqn:Hc; simpl; [exact IH|by rewrite Hc].
Qed.

Lemma ascii_toLowerCase_spaces s : all_space s = true -> ascii_toLowerCase s = s.
Proof.
  induction s as [|c s IH]; simpl; [done|].
  intros [Hc Hs]%andb_true_iff. rewrite IH by done. f_equal.
  revert Hc. by destruct c as [[] [] [] [] [] [] [] []].
Qed.

Lemma ascii_toLowerCase_blank s : ascii_trim s = "" -> ascii_toLowerCase s = s.
Proof.
  intros Hs. apply ascii_toLowerCase_spaces, ascii_trimStart_spaces.
  by apply ascii_trimEnd_blank.
Qed.

#[export] Instance AsciiStrings : StringMethods := {|
  toLowerCase := ascii_toLowerCase;
  trim := ascii_trim;
  code_units := String.length;
  toLowerCase_ascii := fun _ _ => eq_refl;
  trim_ascii := fun _ _ => eq_refl;
  toLowerCase_blank := ascii_toLowerCase_blank;
  code_units_ascii := fun _ _ => eq_refl
|}.

(** The text field holds its value and appends what is typed; a key is
    recognised by its name. *)
#[export] Instance PlainToolkit : Toolkit := {|
  Input := string;
  Input_new := "";
  getValue := fun i => i;
  setValue := fun _ v => v;
  Input_handleInput := fun i data => i +:+ data;
  getValue_new := eq_refl;
  getValue_setValue := fun _ _ => eq_refl;
  matchesKey := String.eqb
|}.

(** ** Notions used to state the properties *)

(** *** Parent references *)

Definition paths_distinct (sessions : list Session) : Prop :=
  NoDup (map path sessions).

(** [c] is registered in the children bucket of path [p]. *)
Definition child_of (sessions : list Session) (c : Session) (p : string) : bool :=
  has_parent (index_by_path sessions) c && bool_decide (parentSession c = Some p).

(** [at_level sessions k s]: following the parent references from [s]
    reaches, after exactly [k] steps, a session of the list whose parent
    reference is absent, empty or dangling. *)
Fixpoint at_level (sessions : list Session) (k : nat) (s : Session) : bool :=
  match k with
  | O => negb (has_parent (index_by_path sessions) s)
  | S k' => existsb (fun p => at_level sessions k' p && child_of sessions s (path p)) sessions
  end.

Definition reaches_root (sessions : list Session) (s : Session) : bool :=
  existsb (fun k => at_level sessions k s) (seq 0 (length sessions)).

(** [parent_rel sessions c p]: [p] is the session [c] refers to. *)
Definition parent_rel (sessions : list Session) (c p : Session) : Prop :=
  In p sessions /\ child_of sessions c (path p) = true.

(** [s] refers to itself, directly or through a cycle of references. *)
Definition on_cycle (sessions : list Session) (s : Session) : Prop :=
  tc (parent_rel sessions) s s.

(** Following the parent references from [s] leads into a cycle: [s] is
    on a cycle or is a descendant of a session on a cycle. *)
Definition below_cycle (sessions : list Session) (s : Session) : Prop :=
  exists q, rtc (parent_rel sessions) s q /\ on_cycle sessions q.

#[export] Instance Session_eq_dec : EqDecision Session.
Proof. solve_decision. Defined.

(** The sessions of a tree in pre-order. *)
Fixpoint tree_sessions (t : SessionTreeNode) : list Session :=
  tn_session t ::
  (fix go (cs : list SessionTreeNode) : list Session :=
     match cs with
     | [] => []
     | c :: cs' => tree_sessions c ++ go cs'
     end) (tn_children t).

Definition forest_sessions (f : list SessionTreeNode) : list Session :=
  flat_map tree_sessions f.

(** [t] is a node of the forest [f], at any depth. *)
Inductive node_in : SessionTreeNode -> list SessionTreeNode -> Prop :=
| node_in_here t f : In t f -> node_in t f
| node_in_below t p f : In p f -> node_in t (tn_children p) -> node_in t f.

(** [x] occurs before [y] in [l]. *)
Definition before {A} (x y : A) (l : list A) : Prop :=
  exists l1 l2 l3, l = l1 ++ x :: l2 ++ y :: l3.

(** *** Positions in a forest

    A position is the list of child indices leading from the roots to a
    node; a root has a position of length one. *)
Fixpoint tree_positions (t : SessionTreeNode) : list (list nat) :=
  [] ::
  (fix go (i : nat) (cs : list SessionTreeNode) : list (list nat) :=
     match cs with
     | [] => []
     | c :: cs' => map (cons i) (tree_positions c) ++ go (S i) cs'
     end) 0%nat (tn_children t).

Fixpoint positions_from (i : nat) (f : list SessionTreeNode) : list (list nat) :=
  match f with
  | [] => []
  | t :: f' => map (cons i) (tree_positions t) ++ positions_from (S i) f'
  end.

(** The positions of a forest in pre-order. *)
Definition forest_positions (f : list SessionTreeNode) : list (list nat) :=
  positions_from 0 f.

Fixpoint node_at (f : list SessionTreeNode) (pos : list nat) : option SessionTreeNode :=
  match pos with
  | [] => None
  | i :: rest =>
      match f !! i with
      | None => None
      | Some t => match rest with [] => Some t | _ => node_at (tn_children t) rest end
      end
  end.

(** The node at [pos] is the final one among its siblings. *)
Fixpoint is_last_sibling (f : list SessionTreeNode) (pos : list nat) : bool :=
  match pos with
  | [] => false
  | i :: rest =>
      match rest with
      | [] => (S i =? length f)%nat
      | _ => match f !! i with
             | None => false
             | Some t => is_last_sibling (tn_children t) rest
             end
      end
  end.

(** The proper ancestors of [pos]: its prefixes of length 1 to
    [length pos - 1], outermost first.  The first one is a root. *)
Definition proper_ancestors (pos : list nat) : list (list nat) :=
  map (fun n => take n pos) (seq 1 (length pos - 1)).

(** The node at [pos] has a parent: it is not a root. *)
Definition has_parent_node (pos : list nat) : bool := (2 <=? length pos)%nat.

(** The proper ancestors of [pos] that have a parent themselves: the
    prefixes of [pos] of length 2 to [length pos - 1], outermost first. *)
Definition child_ancestors (pos : list nat) : list (list nat) :=
  map (fun n => take n pos) (seq 2 (length pos - 2)).

(** The node at [pos] is the last child of its parent; it is a child of
    its parent but not the last one. *)
Definition last_child (f : list SessionTreeNode) (pos : list nat) : bool :=
  has_parent_node pos && is_last_sibling f pos.
Definition other_child (f : list SessionTreeNode) (pos : list nat) : bool :=
  has_parent_node pos && negb (is_last_sibling f pos).

Definition concat_strings (l : list string) : string :=
  fold_right String.append "" l.

Definition bar : string := "│  ".
Definition blank : string := "   ".

(** What the entry at position [pos] of the flattening of [f] must be:
    the session and flags of the node at [pos]; the empty prefix at depth
    0; otherwise one fragment per proper ancestor that has a parent, a
    bar for an ancestor that is not the last child of its parent and
    three blanks for one that is, followed by the connector of the node
    itself. *)
Definition entry_ok (f : list SessionTreeNode) (pos : list nat) (e : FlatNode) : Prop :=
  (exists t, node_at f pos = Some t /\ fn_session e = tn_session t
             /\ fn_hasChildren e = negb (bool_decide (tn_children t = []))) /\
  fn_depth e = (length pos - 1)%nat /\
  fn_isLast e = is_last_sibling f pos /\
  (fn_depth e = 0%nat -> fn_prefix e = "") /\
  (fn_depth e <> 0%nat ->
     exists frags,
       fn_prefix e = concat_strings frags +:+
                     (if is_last_sibling f pos then "└─ " else "├─ ") /\
       frags = map (fun a => if is_last_sibling f a then blank else bar) (child_ancestors pos) /\
       child_ancestors pos = List.filter has_parent_node (proper_ancestors pos) /\
       length (List.filter (String.eqb bar) frags)
         = length (List.filter (other_child f) (proper_ancestors pos)) /\
       length (List.filter (String.eqb blank) frags)
         = length (List.filter (last_child f) (proper_ancestors pos))).

(** *** The filter *)

(** [q] occurs in [text]. *)
Definition Substring (q text : string) : Prop :=
  exists pre post, text = pre +:+ q +:+ post.

(** The fields of an entry the filter reads hold ASCII characters. *)
Definition entry_is_ascii (e : FlatNode) : bool :=
  is_ascii (firstMessage (fn_session e)) && is_ascii (default "" (name (fn_session e)))
  && is_ascii (cwd (fn_session e)) && is_ascii (path (fn_session e)).

(** The match target and the filter as the specification words them: the
    concatenation of display name, first line, working directory and
    path, searched for the query without regard to case; a query that is
    empty or made of white space keeps the full list. *)
Definition stated_target (node : FlatNode) : string :=
  let s := fn_session node in
  default "" (name s) +:+ firstMessage s +:+ cwd s +:+ path s.

Definition stated_filter `{StringMethods} (value : string) (flatNodes : list FlatNode)
    : list FlatNode :=
  if String.eqb (trim value) "" then flatNodes
  else List.filter
         (fun node => includes (toLowerCase (stated_target node)) (toLowerCase value))
         flatNodes.

(** *** The visible window *)

Section Window.
Context `{Toolkit}.

Definition in_window (st : Selector) : Prop :=
  (scrollOffset st <= selectedIndex st <= scrollOffset st + maxVisibleLines st - 1)%Z.

(** The selected index names an entry of the filtered list. *)
Definition selection_in_range (st : Selector) : Prop :=
  (0 <= selectedIndex st < Z.of_nat (length (filteredNodes st)))%Z.

Definition is_up (data : string) : bool := matchesKey data Key_up || matchesKey data "k".
Definition is_down (data : string) : bool := matchesKey data Key_down || matchesKey data "j".
End Window.

(** *** Keys in browsing mode *)

Section Keys.
Context `{Toolkit}.

(** [data] reaches the commit branch of [handleInput]: it is taken for
    none of the navigation keys tested before, and for the enter key. *)
Definition is_commit (data : string) : bool :=
  negb (is_up data) && negb (is_down data)
  && negb (matchesKey data Key_pageUp) && negb (matchesKey data Key_pageDown)
  && negb (matchesKey data Key_home) && negb (matchesKey data Key_end)
  && matchesKey data Key_enter.
End Keys.

(** *** Progress notifications *)

Definition strictly_increasing (l : list nat) : Prop :=
  forall i j a b, l !! i = Some a -> l !! j = Some b -> (i < j)%nat -> (a < b)%nat.

(** *** Levels of a forest under construction

    [next_level cO l] lists the children [buildNode] visits below the
    sessions [l]; [level_from cO k l] is the [k]-th generation below [l]
    and [levels_upto cO k l] the first [k] generations, [l] included. *)
Definition next_level (cO : gmap string (list Session)) (l : list Session) : list Session :=
  flat_map (sorted_children cO) l.

Fixpoint level_from (cO : gmap string (list Session)) (k : nat) (l : list Session)
    : list Session :=
  match k with
  | O => l
  | S k' => level_from cO k' (next_level cO l)
  end.

Fixpoint levels_upto (cO : gmap string (list Session)) (k : nat) (l : list Session)
    : list Session :=
  match k with
  | O => []
  | S k' => l ++ levels_upto cO k' (next_level cO l)
  end.

(** The [forEach] over the children in [flatten], on its own: [n] is
    [node.children.length] and [i] the index of the first of [cs]. *)
Definition flatten_children (depth : nat) (parentPrefixes : list string) (n : nat)
    : nat -> list SessionTreeNode -> list FlatNode :=
  fix go (i : nat) (cs : list SessionTreeNode) : list FlatNode :=
    match cs with
    | [] => []
    | child :: cs' =>
        flatten child depth parentPrefixes (i =? n - 1)%nat ++ go (S i) cs'
    end.

(** [t] is a tree [buildNode] returns over the buckets [cO]. *)
Definition built (cO : gmap string (list Session)) (t : SessionTreeNode) : Prop :=
  exists fuel s d, buildNode fuel cO s d = Some t.

(** [buildNode] on [s] calls itself on [c]. *)
Definition visits (cO : gmap string (list Session)) (s c : Session) : Prop :=
  In c (sorted_children cO s).

(** The statement proved by induction on the tree: a call of [flatten]
    on the node at [ctx] with the arguments the traversal gives it. *)
Definition flatten_ok (t : SessionTreeNode) : Prop :=
  forall f ctx, node_at f ctx = Some t ->
    Forall2 (entry_ok f) (map (app ctx) (tree_positions t))
      (flatten t (length ctx - 1)
         (map (fun a => fragment (is_last_sibling f a)) (child_ancestors ctx))
         (is_last_sibling f ctx)).

(** ** Sample inputs *)

Definition sess (p : string) (par : option string) (c m : Z) : Session :=
  mkSession p None "" "" c m par.

(** Two roots and a child of the older root. *)
Definition demo : list Session :=
  [ sess "/a" None 10 10; sess "/b" (Some "/a") 11 11; sess "/c" None 5 20 ].

(** A single session that names itself as its parent. *)
Definition self_loop : list Session := [ sess "/a" (Some "/a") 1 1 ].

(** Two sessions naming each other, and a third one below them. *)
Definition two_cycle : list Session :=
  [ sess "/a" (Some "/b") 1 1; sess "/b" (Some "/a") 2 2; sess "/c" (Some "/a") 3 3 ].

(** [flattenTree(buildSessionTree(sessions))] *)
Definition flat_of (sessions : list Session) : option (list FlatNode) :=
  flattenTree <$> buildSessionTree sessions.

(** Two records with the same path, the second naming that path as its
    parent. *)
Definition shared_path : list Session :=
  [ sess "/a" None 1 1; sess "/a" (Some "/a") 2 2 ].

(** The forest [buildSessionTree] returns for [demo]. *)
Definition demo_forest : list SessionTreeNode :=
  [ mkNode (sess "/c" None 5 20) [] 0;
    mkNode (sess "/a" None 10 10) [ mkNode (sess "/b" (Some "/a") 11 11) [] 1 ] 0 ].

(** A flat entry for a session, as a root without children. *)
Definition entry_of (s : Session) : FlatNode := mkFlat s 0 "" true false.

(** An entry whose only non-empty field is its path. *)
Definition entry_path_only : FlatNode :=
  entry_of (mkSession "xa" None "" "" 0 0 None).

(** An entry with a name and a working directory. *)
Definition entry_named : FlatNode :=
  entry_of (mkSession "/p" (Some "a") "" "b" 0 0 None).

(** A selector over three entries showing two lines, in the concrete
    toolkit. *)
Definition three_entries : list FlatNode :=
  [ entry_of (sess "/a" None 1 1); entry_of (sess "/b" None 2 2); entry_of (sess "/c" None 3 3) ].

Definition small_selector : Selector :=
  mkSelector three_entries three_entries 1 0 2 "" false None.

(** A selector over one session, and keys pressed on it: open the search,
    type a letter no field contains, keep the (empty) filter, jump to the
    end, open the search again and cancel it. *)
Definition one_session_selector : Selector :=
  new_selector [ entry_of (sess "/a" None 1 1) ] 5 None.

Definition keys_to_negative_index : list string :=
  [ "/"; "z"; "enter"; "end"; "/"; "escape" ].

(** A store in which every record starts with a line, and a parser that
    rejects every line. *)
Definition one_line_store (p : string) : SessionFile := Lines [ "{}" ].
Definition parse_nothing (line : string) : option JValue := None.

(** Three records: a root and two records sharing the path ["/k"], the
    second of which names ["/k"] as its parent. *)
Definition revisiting : list Session :=
  [ sess "/r" None 1 1; sess "/k" (Some "/r") 2 2; sess "/k" (Some "/k") 3 3 ].

(** Sessions without any parent reference. *)
Definition unlinked : list Session :=
  [ sess "/x" None 1 5; sess "/y" None 2 9; sess "/z" None 3 7 ].

(** A selector in search mode whose query matches no entry. *)
Definition searching_selector : Selector :=
  mkSelector three_entries [] 0 0 2 "zz" true None.

(** What a record that delivers a line or an error settles the promise
    of [getSessionHeader] with, and the [parentSession] then stored. *)
Definition settled_header (JSON_parse : string -> option JValue) (f : SessionFile)
    : HeaderResult :=
  match f with
  | Lines (line :: _) => on_line JSON_parse line
  | _ => NoHeader
  end.

Definition read_parent (JSON_parse : string -> option JValue) (f : SessionFile)
    : option JValue :=
  parent_of_header (settled_header JSON_parse f).

(** A store with an unreadable record, a record holding a session header
    with a parent, and records of other content; and a parser that knows
    these lines. *)
Definition mixed_store (p : string) : SessionFile :=
  if String.eqb p "/a" then Unreadable
  else if String.eqb p "/b" then Lines [ "header-with-parent"; "more" ]
  else Lines [ "garbage" ].

Definition parse_known (line : string) : option JValue :=
  if String.eqb line "header-with-parent"
  then Some (JObj [ ("type", JStr "session"); ("parentSession", JStr "/a") ])
  else None.

(** A store whose record ["/b"] is a zero-length file, all other records
    holding one line. *)
Definition middle_empty_store (p : string) : SessionFile :=
  if String.eqb p "/b" then Lines [] else Lines [ "{}" ].

(** A store of session headers whose [parentSession] is a string, a
    number, [null] and missing; and a parser that knows these lines. *)
Definition header_store (p : string) : SessionFile :=
  if String.eqb p "/a" then Lines [ "parent-number" ]
  else if String.eqb p "/b" then Lines [ "parent-string" ]
  else if String.eqb p "/c" then Lines [ "parent-null" ]
  else Lines [ "parent-missing" ].

Definition parse_headers (line : string) : option JValue :=
  if String.eqb line "parent-number"
  then Some (JObj [ ("type", JStr "session"); ("parentSession", JNum 123) ])
  else if String.eqb line "parent-string"
  then Some (JObj [ ("type", JStr "session"); ("parentSession", JStr "/a") ])
  else if String.eqb line "parent-null"
  then Some (JObj [ ("type", JStr "session"); ("parentSession", JNull) ])
  else if String.eqb line "parent-missing"
  then Some (JObj [ ("type", JStr "session") ])
  else None.

(** A theme that marks what it styles, widths counted in characters, and
    truncation that leaves lines as they are. *)
#[export] Instance PlainStyling : Styling := {|
  theme_fg := fun color s => "<" +:+ color +:+ ">" +:+ s;
  theme_bg := fun color s => "[" +:+ color +:+ "]" +:+ s;
  theme_bold := fun s => s;
  truncateToWidth := fun s _ => s;
  visibleWidth := fun s => Z.of_nat (String.length s);
  toLocaleDateString := fun _ => "1/1/2026"
|}.

(** * Properties *)

(** ** The sort *)

Section SortFacts.
Context {A : Type} (cmp : A -> A -> Z).

Lemma insert_by_perm x l : insert_by cmp x l ≡ₚ x :: l.
Proof.
  induction l as [|y l IH]; simpl; [done|].
  destruct (cmp x y <=? 0)%Z; [done|].
  rewrite IH. apply Permutation_swap.
Qed.

Lemma sort_by_perm l : sort_by cmp l ≡ₚ l.
Proof.
  induction l as [|x l IH]; simpl; [done|].
  by rewrite insert_by_perm, IH.
Qed.

Lemma sort_by_In x l : In x (sort_by cmp l) <-> In x l.
Proof.
  split; apply Permutation_in; [|symmetry]; apply sort_by_perm.
Qed.

Hypothesis cmp_total : forall x y, (cmp x y > 0 -> cmp y x <= 0)%Z.
Hypothesis cmp_trans : forall x y z, (cmp x y <= 0 -> cmp y z <= 0 -> cmp x z <= 0)%Z.

Local Abbreviation ord := (fun x y : A => (cmp x y <= 0)%Z).

Lemma insert_by_sorted x l :
  StronglySorted ord l -> StronglySorted ord (insert_by cmp x l).
Proof.
  induction 1 as [|y l Hs IH Hy]; simpl.
  - repeat constructor.
  - destruct (Z.leb_spec (cmp x y) 0) as [Hle|Hgt].
    + constructor; [by constructor|].
      constructor; [exact Hle|].
      eapply Forall_impl; [exact Hy|].
      intros z Hz. cbv beta in *. eauto.
    + constructor; [exact IH|].
      rewrite Forall_forall. intros z Hz.
      rewrite insert_by_perm in Hz.
      apply elem_of_cons in Hz as [->|Hz].
      * apply cmp_total. lia.
      * rewrite Forall_forall in Hy. by apply Hy.
Qed.

Lemma sort_by_sorted l : StronglySorted ord (sort_by cmp l).
Proof.
  induction l as [|x l IH]; simpl; [constructor|].
  by apply insert_by_sorted.
Qed.
End SortFacts.

Lemma StronglySorted_weaken {A} (R R' : A -> A -> Prop) l :
  (forall a b, R a b -> R' a b) -> StronglySorted R l -> StronglySorted R' l.
Proof.
  intros HR. induction 1 as [|x l Hs IH Hx]; constructor; [exact IH|].
  eapply Forall_impl; [exact Hx|]. intros y. apply HR.
Qed.

Lemma sorted_roots_desc (l : list Session) :
  StronglySorted (fun a b => (modified b <= modified a)%Z) (sort_by cmp_modified_desc l).
Proof.
  eapply StronglySorted_weaken; [|apply sort_by_sorted].
  - unfold cmp_modified_desc. intros a b. cbv beta. lia.
  - unfold cmp_modified_desc. intros. lia.
  - unfold cmp_modified_desc. intros. lia.
Qed.

Lemma sorted_children_asc (l : list Session) :
  StronglySorted (fun a b => (created a <= created b)%Z) (sort_by cmp_created_asc l).
Proof.
  eapply StronglySorted_weaken; [|apply sort_by_sorted].
  - unfold cmp_created_asc. intros a b. cbv beta. lia.
  - unfold cmp_created_asc. intros. lia.
  - unfold cmp_created_asc. intros. lia.
Qed.

(** The sort is stable: sessions with the same time stamp keep their
    relative order. *)
Lemma insert_by_stable {A} (key : A -> Z) (cmp : A -> A -> Z) (k : Z) x l :
  (forall a b, (cmp a b > 0)%Z -> key a <> key b) ->
  List.filter (fun y => (key y =? k)%Z) (insert_by cmp x l)
  = List.filter (fun y => (key y =? k)%Z) (x :: l).
Proof.
  intros Hcmp. induction l as [|y l IH]; [done|].
  cbn [insert_by]. destruct (Z.leb_spec (cmp x y) 0) as [Hle|Hgt]; [done|].
  cbn [List.filter] in *. rewrite IH.
  destruct (Z.eqb_spec (key x) k), (Z.eqb_spec (key y) k); try done.
  destruct (Hcmp x y); [lia|congruence].
Qed.

Lemma sort_by_stable {A} (key : A -> Z) (cmp : A -> A -> Z) (k : Z) l :
  (forall a b, (cmp a b > 0)%Z -> key a <> key b) ->
  List.filter (fun y => (key y =? k)%Z) (sort_by cmp l)
  = List.filter (fun y => (key y =? k)%Z) l.
Proof.
  intros Hcmp. induction l as [|x l IH]; [done|].
  cbn [sort_by]. rewrite (insert_by_stable key cmp k _ _ Hcmp).
  cbn [List.filter]. by rewrite IH.
Qed.

Lemma sort_roots_stable (k : Z) (l : list Session) :
  List.filter (fun s => (modified s =? k)%Z) (sort_by cmp_modified_desc l)
  = List.filter (fun s => (modified s =? k)%Z) l.
Proof. apply sort_by_stable. unfold cmp_modified_desc. intros a b. lia. Qed.

Lemma sort_children_stable (k : Z) (l : list Session) :
  List.filter (fun s => (created s =? k)%Z) (sort_by cmp_created_asc l)
  = List.filter (fun s => (created s =? k)%Z) l.
Proof. apply sort_by_stable. unfold cmp_created_asc. intros a b. lia. Qed.

(** Sorting a sorted array again leaves it as it is, so the in-place sort
    of a bucket that [buildNode] visits twice does not change it. *)
Lemma insert_by_sorted_head {A} (cmp : A -> A -> Z) x l :
  Forall (fun y => (cmp x y <= 0)%Z) l -> insert_by cmp x l = x :: l.
Proof.
  destruct 1 as [|y l Hy _]; [done|]. simpl.
  by destruct (Z.leb_spec (cmp x y) 0); [|lia].
Qed.

Lemma sort_by_idempotent {A} (cmp : A -> A -> Z) l :
  StronglySorted (fun x y => (cmp x y <= 0)%Z) l -> sort_by cmp l = l.
Proof.
  induction 1 as [|x l _ IH Hx]; [done|]. simpl.
  rewrite IH. by apply insert_by_sorted_head.
Qed.

(** ** The indexing passes of [buildSessionTree] *)

Lemma index_fold_has (l : list Session) (m : gmap string Session) (p : string) :
  is_Some (foldl (fun byPath s => <[path s := s]> byPath) m l !! p)
  <-> is_Some (m !! p) \/ In p (map path l).
Proof.
  revert m. induction l as [|s l IH]; intros m; simpl.
  - tauto.
  - rewrite IH. destruct (decide (path s = p)) as [->|Hne].
    + rewrite lookup_insert_eq. split; [eauto|]. intros _. left. eauto.
    + rewrite lookup_insert_ne by done. split; intros [?|?]; eauto.
      destruct H as [?|?]; [congruence|eauto].
Qed.

Lemma index_by_path_has (sessions : list Session) (p : string) :
  is_Some (index_by_path sessions !! p) <-> In p (map path sessions).
Proof.
  unfold index_by_path. rewrite index_fold_has, lookup_empty.
  split; [intros [[? ?]|?]; [done|done]|eauto].
Qed.

Lemma has_parent_spec (sessions : list Session) (s : Session) :
  has_parent (index_by_path sessions) s = true
  <-> exists p, parentSession s = Some p /\ p <> "" /\ In p (map path sessions).
Proof.
  unfold has_parent. destruct (parentSession s) as [p|]; [|split; [done|intros (?&?&?); done]].
  rewrite andb_true_iff, negb_true_iff, bool_decide_eq_true, index_by_path_has.
  rewrite String.eqb_neq. split.
  - intros [? ?]. eauto.
  - intros (q & [= <-] & ? & ?). done.
Qed.

Lemma child_of_spec (sessions : list Session) (c : Session) (p : string) :
  child_of sessions c p = true
  <-> parentSession c = Some p /\ p <> "" /\ In p (map path sessions).
Proof.
  unfold child_of. rewrite andb_true_iff, bool_decide_eq_true, has_parent_spec. split.
  - intros [(q & Hq & ? & ?) Hp]. rewrite Hq in Hp. by simplify_eq.
  - intros (? & ? & ?). eauto.
Qed.

Lemma child_of_has_parent (sessions : list Session) (c : Session) (p : string) :
  child_of sessions c p = true -> has_parent (index_by_path sessions) c = true.
Proof. unfold child_of. by intros [? _]%andb_true_iff. Qed.

Section Buckets.
Variable byPath : gmap string Session.

Local Abbreviation bucket b p := (default [] (childrenOf b !! p)).
Local Abbreviation registered c p :=
  (has_parent byPath c && bool_decide (parentSession c = Some p)).

Lemma register_roots b s :
  roots (register byPath b s)
  = roots b ++ List.filter (fun s => negb (has_parent byPath s)) [s].
Proof.
  unfold register, has_parent. simpl.
  destruct (parentSession s) as [p|]; simpl; [|done].
  destruct (negb (p =? "")%string && bool_decide (is_Some (byPath !! p))); simpl; [|done].
  by rewrite app_nil_r.
Qed.

Lemma register_bucket b s p :
  bucket (register byPath b s) p
  = bucket b p ++ List.filter (fun c => registered c p) [s].
Proof.
  unfold register, has_parent. simpl.
  destruct (parentSession s) as [q|]; simpl; [|by rewrite app_nil_r].
  destruct (negb (q =? "")%string && bool_decide (is_Some (byPath !! q))); simpl;
    [|by rewrite app_nil_r].
  destruct (decide (q = p)) as [->|Hne].
  - rewrite lookup_insert_eq. simpl. by rewrite bool_decide_eq_true_2.
  - rewrite lookup_insert_ne by done.
    rewrite bool_decide_eq_false_2 by congruence. by rewrite app_nil_r.
Qed.

Lemma fold_register_roots l b :
  roots (foldl (register byPath) b l)
  = roots b ++ List.filter (fun s => negb (has_parent byPath s)) l.
Proof.
  revert b. induction l as [|s l IH]; intros b; simpl; [by rewrite app_nil_r|].
  rewrite IH, register_roots. simpl.
  destruct (negb (has_parent byPath s)); simpl; by rewrite <- ?app_assoc.
Qed.

Lemma fold_register_bucket l b p :
  bucket (foldl (register byPath) b l) p
  = bucket b p ++ List.filter (fun c => registered c p) l.
Proof.
  revert b. induction l as [|s l IH]; intros b; simpl; [by rewrite app_nil_r|].
  rewrite IH, register_bucket. simpl.
  destruct (registered s p); simpl; by rewrite <- ?app_assoc.
Qed.
End Buckets.

Lemma fill_buckets_roots (sessions : list Session) :
  roots (fill_buckets sessions)
  = List.filter (fun s => negb (has_parent (index_by_path sessions) s)) sessions.
Proof. unfold fill_buckets. by rewrite fold_register_roots. Qed.

Lemma fill_buckets_children (sessions : list Session) (p : string) :
  default [] (childrenOf (fill_buckets sessions) !! p)
  = List.filter (fun c => child_of sessions c p) sessions.
Proof.
  unfold fill_buckets. rewrite fold_register_bucket. simpl.
  by rewrite lookup_empty.
Qed.

(** ** Trees *)

Lemma tree_induction (P : SessionTreeNode -> Prop) :
  (forall s cs d, Forall P cs -> P (mkNode s cs d)) -> forall t, P t.
Proof.
  intros Hnode. fix IH 1. intros [s cs d]. apply Hnode.
  induction cs as [|c cs IHcs]; constructor; [apply IH|exact IHcs].
Qed.

Lemma tree_sessions_eq t :
  tree_sessions t = tn_session t :: forest_sessions (tn_children t).
Proof.
  by destruct t.
Qed.

Lemma forest_sessions_app f g :
  forest_sessions (f ++ g) = forest_sessions f ++ forest_sessions g.
Proof. unfold forest_sessions. by rewrite flat_map_app. Qed.

Lemma flatten_eq t depth pp isLast :
  flatten t depth pp isLast
  = mkFlat (tn_session t) depth
      (if (0 <? depth)%nat then join_prefixes pp +:+ connector isLast else "")
      isLast (0 <? length (tn_children t))%nat
    :: flatten_children (depth + 1)
         (if (0 <? depth)%nat then pp ++ [fragment isLast] else pp)
         (length (tn_children t)) 0 (tn_children t).
Proof. by destruct t. Qed.

Lemma flatten_children_sessions cs :
  Forall (fun c => forall depth pp isLast,
            map fn_session (flatten c depth pp isLast) = tree_sessions c) cs ->
  forall depth pp n i,
    map fn_session (flatten_children depth pp n i cs) = forest_sessions cs.
Proof.
  induction 1 as [|c cs Hc _ IHcs]; intros depth pp n i; simpl; [done|].
  by rewrite map_app, Hc, IHcs.
Qed.

(** The sessions of the flattening are the sessions of the forest in
    pre-order. *)
Lemma flatten_sessions t : forall depth pp isLast,
  map fn_session (flatten t depth pp isLast) = tree_sessions t.
Proof.
  induction t as [s cs d IH] using tree_induction. intros depth pp isLast.
  rewrite flatten_eq, tree_sessions_eq. simpl. f_equal.
  by apply flatten_children_sessions.
Qed.

Lemma flatten_roots_sessions n i f :
  map fn_session (flatten_roots n i f) = forest_sessions f.
Proof.
  revert i. induction f as [|t f IH]; intros i; simpl; [done|].
  by rewrite map_app, flatten_sessions, IH.
Qed.

Lemma flattenTree_sessions f :
  map fn_session (flattenTree f) = forest_sessions f.
Proof. apply flatten_roots_sessions. Qed.

(** ** Generations *)

Section Levels.
Variable cO : gmap string (list Session).

Lemma next_level_app a b :
  next_level cO (a ++ b) = next_level cO a ++ next_level cO b.
Proof. unfold next_level. by rewrite flat_map_app. Qed.

Lemma levels_upto_nil k : levels_upto cO k [] = [].
Proof. induction k as [|k IH]; simpl; [done|]. exact IH. Qed.

Lemma levels_upto_app k : forall a b,
  levels_upto cO k (a ++ b) ≡ₚ levels_upto cO k a ++ levels_upto cO k b.
Proof.
  induction k as [|k IH]; intros a b; simpl; [done|].
  rewrite next_level_app, IH.
  rewrite <- !app_assoc. f_equiv.
  rewrite !app_assoc. f_equiv. apply Permutation_app_comm.
Qed.

Lemma level_from_app k : forall a b,
  level_from cO k (a ++ b) = level_from cO k a ++ level_from cO k b.
Proof.
  induction k as [|k IH]; intros a b; simpl; [done|].
  by rewrite next_level_app, IH.
Qed.

Lemma level_from_nil k : level_from cO k [] = [].
Proof. induction k as [|k IH]; simpl; [done|]. exact IH. Qed.

Lemma buildNode_unfold fuel s d t :
  buildNode (S fuel) cO s d = Some t
  <-> exists kids,
      Forall2 (fun c k => buildNode fuel cO c (d + 1) = Some k) (sorted_children cO s) kids
      /\ t = mkNode s kids d.
Proof.
  simpl. destruct (mapM _ _) as [kids|] eqn:E.
  - apply mapM_Some in E. split.
    + intros [= <-]. eauto.
    + intros (kids' & Hk & ->). f_equal. f_equal.
      apply mapM_Some in Hk. apply mapM_Some in E. congruence.
  - split; [done|]. intros (kids' & Hk & _). apply mapM_Some in Hk. congruence.
Qed.

(** More fuel does not change what [buildNode] returns. *)
Lemma buildNode_more_fuel fuel : forall s d t,
  buildNode fuel cO s d = Some t ->
  forall fuel', (fuel <= fuel')%nat -> buildNode fuel' cO s d = Some t.
Proof.
  induction fuel as [|fuel IH]; intros s d t Ht fuel' Hle; [done|].
  destruct fuel' as [|fuel']; [lia|].
  apply buildNode_unfold in Ht as (kids & Hkids & ->).
  apply buildNode_unfold. exists kids. split; [|done].
  eapply Forall2_impl; [exact Hkids|].
  intros c k Hck. simpl in Hck. apply (IH _ _ _ Hck). lia.
Qed.

(** The sessions of the trees built from [l] are the generations below
    [l], as far as the recursion went. *)
Lemma build_sessions fuel : forall d l ts,
  Forall2 (fun s t => buildNode fuel cO s d = Some t) l ts ->
  forest_sessions ts ≡ₚ levels_upto cO fuel l.
Proof.
  induction fuel as [|fuel IH]; intros d l ts Hts.
  - destruct Hts as [|s t l ts Hst _]; [done|]. simpl in Hst. done.
  - induction Hts as [|s t l ts Hst _ IHl].
    + simpl. by rewrite levels_upto_nil.
    + apply buildNode_unfold in Hst as (kids & Hkids & ->).
      apply IH in Hkids.
      change (forest_sessions (mkNode s kids d :: ts))
        with (tree_sessions (mkNode s kids d) ++ forest_sessions ts).
      rewrite tree_sessions_eq, IHl. simpl tn_session. simpl tn_children.
      rewrite Hkids. simpl. f_equiv.
      rewrite levels_upto_app.
      rewrite !app_assoc. f_equiv. apply Permutation_app_comm.
Qed.

(** The recursion returns as soon as a generation is empty. *)
Lemma build_returns fuel : forall d l,
  level_from cO fuel l = [] ->
  exists ts, Forall2 (fun s t => buildNode fuel cO s d = Some t) l ts.
Proof.
  induction fuel as [|fuel IH]; intros d l Hl.
  - simpl in Hl. subst l. exists []. constructor.
  - simpl in Hl. induction l as [|s l IHl].
    + exists []. constructor.
    + change (s :: l) with ([s] ++ l) in Hl.
      rewrite next_level_app, level_from_app in Hl.
      apply app_eq_nil in Hl as [Hs Hl].
      destruct (IHl Hl) as (ts & Hts).
      unfold next_level in Hs. simpl in Hs. rewrite app_nil_r in Hs.
      destruct (IH (d + 1)%nat _ Hs) as (kids & Hkids).
      exists (mkNode s kids d :: ts). constructor; [|exact Hts].
      apply buildNode_unfold. eauto.
Qed.
End Levels.

(** ** Lists: regrouping a [flat_map] *)

Lemma flat_map_perm_ext {A B} (f g : A -> list B) l :
  (forall x, In x l -> f x ≡ₚ g x) -> flat_map f l ≡ₚ flat_map g l.
Proof.
  induction l as [|x l IH]; intros Hfg; simpl; [done|].
  rewrite (Hfg x) by (by left). rewrite IH; [done|].
  intros y Hy. apply Hfg. by right.
Qed.

Lemma flat_map_eq_ext {A B} (f g : A -> list B) l :
  (forall x, In x l -> f x = g x) -> flat_map f l = flat_map g l.
Proof.
  induction l as [|x l IH]; intros Hfg; simpl; [done|].
  rewrite (Hfg x) by (by left). rewrite IH; [done|].
  intros y Hy. apply Hfg. by right.
Qed.

Lemma flat_map_nil_fun {A B} (l : list A) :
  flat_map (fun _ => @nil B) l = [].
Proof. induction l as [|x l IH]; simpl; [done|]. exact IH. Qed.

Lemma flat_map_app_fun {A B} (f g : A -> list B) l :
  flat_map (fun x => f x ++ g x) l ≡ₚ flat_map f l ++ flat_map g l.
Proof.
  induction l as [|x l IH]; simpl; [done|].
  rewrite IH. rewrite <- !app_assoc. f_equiv.
  rewrite !app_assoc. f_equiv. apply Permutation_app_comm.
Qed.

Lemma filter_as_flat_map {A} (P : A -> bool) l :
  List.filter P l = flat_map (fun x => if P x then [x] else []) l.
Proof.
  induction l as [|x l IH]; simpl; [done|].
  rewrite IH. by destruct (P x).
Qed.

Lemma flat_map_filter {A B} (P : A -> bool) (g : A -> list B) l :
  flat_map g (List.filter P l) = flat_map (fun x => if P x then g x else []) l.
Proof.
  induction l as [|x l IH]; simpl; [done|].
  destruct (P x); simpl; by rewrite IH.
Qed.

(** Summing over pairs [(s, c)] with [R c s], by [s] first or by [c]
    first. *)
Lemma flat_map_swap {A B} (R : B -> A -> bool) (S : list B) (T : list A) :
  flat_map (fun s => List.filter (fun c => R c s) S) T
  ≡ₚ flat_map (fun c => flat_map (fun s => if R c s then [c] else []) T) S.
Proof.
  induction T as [|s T IH]; simpl.
  - by rewrite flat_map_nil_fun.
  - rewrite IH, flat_map_app_fun. f_equiv.
    by rewrite filter_as_flat_map.
Qed.

Lemma filter_or_disjoint {A} (P Q : A -> bool) l :
  (forall x, P x = true -> Q x = true -> False) ->
  List.filter (fun x => P x || Q x) l ≡ₚ List.filter P l ++ List.filter Q l.
Proof.
  intros Hd. induction l as [|x l IH]; simpl; [done|].
  destruct (P x) eqn:HP, (Q x) eqn:HQ; simpl.
  - destruct (Hd x HP HQ).
  - by rewrite IH.
  - rewrite IH. apply Permutation_middle.
  - exact IH.
Qed.

Lemma filter_none {A} (P : A -> bool) l :
  (forall x, In x l -> P x = false) -> List.filter P l = [].
Proof.
  induction l as [|x l IH]; intros HP; simpl; [done|].
  rewrite (HP x) by (by left). apply IH. intros y Hy. apply HP. by right.
Qed.

Lemma filter_all {A} (P : A -> bool) l :
  (forall x, In x l -> P x = true) -> List.filter P l = l.
Proof.
  induction l as [|x l IH]; intros HP; simpl; [done|].
  rewrite (HP x) by (by left). f_equal. apply IH. intros y Hy. apply HP. by right.
Qed.

Lemma filter_length_le {A} (P : A -> bool) l :
  (length (List.filter P l) <= length l)%nat.
Proof.
  induction l as [|x l IH]; simpl; [done|].
  destruct (P x); simpl; lia.
Qed.

(** ** Generations of a list of sessions with distinct paths *)

Lemma same_path_same_session (sessions : list Session) s1 s2 :
  paths_distinct sessions ->
  In s1 sessions -> In s2 sessions -> path s1 = path s2 -> s1 = s2.
Proof.
  unfold paths_distinct. induction sessions as [|s l IH]; simpl; [done|].
  intros Hnd [<-|H1] [<-|H2] Hp; try done.
  - apply NoDup_cons in Hnd as [Hs _]. exfalso. apply Hs.
    rewrite Hp. apply list_elem_of_In, in_map, H2.
  - apply NoDup_cons in Hnd as [Hs _]. exfalso. apply Hs.
    rewrite <- Hp. apply list_elem_of_In, in_map, H1.
  - apply NoDup_cons in Hnd as [_ Hnd]. by apply IH.
Qed.

Lemma at_most_one_match {B} (sessions : list Session) (Q : Session -> bool) (c : B) :
  paths_distinct sessions ->
  (forall s1 s2, Q s1 = true -> Q s2 = true -> path s1 = path s2) ->
  flat_map (fun s => if Q s then [c] else []) sessions
  = if existsb Q sessions then [c] else [].
Proof.
  unfold paths_distinct. intros Hnd HQ.
  induction sessions as [|s l IH]; simpl; [done|].
  apply NoDup_cons in Hnd as [Hs Hnd].
  destruct (Q s) eqn:Hqs; simpl; [|by apply IH].
  f_equal. rewrite (flat_map_eq_ext _ (fun _ => [])); [apply flat_map_nil_fun|].
  intros s' Hs'. destruct (Q s') eqn:Hqs'; [|done].
  exfalso. apply Hs. rewrite (HQ s s' Hqs Hqs').
  apply list_elem_of_In, in_map, Hs'.
Qed.

Section Generations.
Variable sessions : list Session.
Hypothesis distinct : paths_distinct sessions.

Local Abbreviation cO := (childrenOf (fill_buckets sessions)).

Lemma sorted_children_perm s :
  sorted_children cO s
  ≡ₚ List.filter (fun c => child_of sessions c (path s)) sessions.
Proof.
  unfold sorted_children. by rewrite sort_by_perm, fill_buckets_children.
Qed.

Lemma sorted_roots_perm :
  sort_by cmp_modified_desc (roots (fill_buckets sessions))
  ≡ₚ List.filter (at_level sessions 0) sessions.
Proof. by rewrite sort_by_perm, fill_buckets_roots. Qed.

Lemma at_level_succ k c :
  at_level sessions (S k) c = true
  <-> exists p, In p sessions /\ at_level sessions k p = true
                /\ child_of sessions c (path p) = true.
Proof.
  simpl. rewrite existsb_exists. split.
  - intros (p & Hp & [? ?]%andb_true_iff). eauto.
  - intros (p & Hp & ? & ?). exists p. split; [done|]. by apply andb_true_iff.
Qed.

Lemma child_of_same_path c p q :
  child_of sessions c p = true -> child_of sessions c q = true -> p = q.
Proof.
  rewrite !child_of_spec. intros (Hp & _) (Hq & _). congruence.
Qed.

(** A session is in one generation at most. *)
Lemma at_level_unique j : forall k s,
  at_level sessions j s = true -> at_level sessions k s = true -> j = k.
Proof.
  induction j as [|j IH]; intros [|k] s Hj Hk; [done| | |].
  - apply at_level_succ in Hk as (p & _ & _ & Hc%child_of_has_parent).
    simpl in Hj. by rewrite Hc in Hj.
  - apply at_level_succ in Hj as (p & _ & _ & Hc%child_of_has_parent).
    simpl in Hk. by rewrite Hc in Hk.
  - apply at_level_succ in Hj as (p & Hp & Hpj & Hcp).
    apply at_level_succ in Hk as (q & Hq & Hqk & Hcq).
    assert (p = q) as <-.
    { apply (same_path_same_session sessions); [done..|].
      by eapply child_of_same_path. }
    f_equal. by eapply IH.
Qed.

Lemma next_level_at_level k l :
  l ≡ₚ List.filter (at_level sessions k) sessions ->
  next_level cO l ≡ₚ List.filter (at_level sessions (S k)) sessions.
Proof.
  intros Hl. unfold next_level.
  rewrite (Permutation_flat_map _ Hl).
  rewrite (flat_map_perm_ext _ _ _ (fun s _ => sorted_children_perm s)).
  rewrite (flat_map_swap (fun c s => child_of sessions c (path s))).
  rewrite (filter_as_flat_map (at_level sessions (S k))).
  apply Permutation_refl'. apply flat_map_eq_ext. intros c _.
  rewrite flat_map_filter.
  rewrite (flat_map_eq_ext _
    (fun s => if at_level sessions k s && child_of sessions c (path s) then [c] else [])).
  2:{ intros s _. by destruct (at_level sessions k s). }
  rewrite at_most_one_match; [done|done|].
  intros s1 s2 [_ H1]%andb_true_iff [_ H2]%andb_true_iff.
  by eapply child_of_same_path.
Qed.

Lemma level_from_at_level n : forall k l,
  l ≡ₚ List.filter (at_level sessions k) sessions ->
  level_from cO n l ≡ₚ List.filter (at_level sessions (k + n)) sessions.
Proof.
  induction n as [|n IH]; intros k l Hl; simpl.
  - by rewrite Nat.add_0_r.
  - rewrite (IH (S k)); [|by apply next_level_at_level].
    by replace (S k + n)%nat with (k + S n)%nat by lia.
Qed.

Lemma levels_upto_at_level n : forall k l,
  l ≡ₚ List.filter (at_level sessions k) sessions ->
  levels_upto cO n l
  ≡ₚ List.filter (fun s => existsb (fun j => at_level sessions j s) (seq k n)) sessions.
Proof.
  induction n as [|n IH]; intros k l Hl.
  - rewrite filter_none; [done|]. by intros.
  - simpl. rewrite (IH (S k)); [|by apply next_level_at_level].
    rewrite Hl. symmetry. apply filter_or_disjoint.
    intros s Hk (j & Hj & Hlj)%existsb_exists.
    apply in_seq in Hj.
    pose proof (at_level_unique _ _ _ Hk Hlj). lia.
Qed.
End Generations.

Section Depth.
Variable sessions : list Session.
Hypothesis distinct : paths_distinct sessions.

Lemma at_level_below k s :
  at_level sessions k s = true ->
  forall j, (j < k)%nat -> exists p, In p sessions /\ at_level sessions j p = true.
Proof.
  revert s. induction k as [|k IH]; intros s Hs j Hj; [lia|].
  apply at_level_succ in Hs as (p & Hp & Hpk & _).
  destruct (decide (j = k)) as [->|Hne]; [eauto|].
  apply (IH p Hpk). lia.
Qed.

Lemma populated_levels_count n : forall k,
  (forall j, (k <= j < k + n)%nat ->
     exists p, In p sessions /\ at_level sessions j p = true) ->
  (n <= length (List.filter
                 (fun s => existsb (fun j => at_level sessions j s) (seq k n)) sessions))%nat.
Proof.
  induction n as [|n IH]; intros k Hpop; [lia|].
  simpl seq. simpl existsb.
  rewrite filter_or_disjoint.
  - rewrite length_app.
    destruct (Hpop k) as (p & Hp & Hpk); [lia|].
    assert (In p (List.filter (at_level sessions k) sessions)) as Hin
      by (apply filter_In; done).
    destruct (List.filter (at_level sessions k) sessions); [done|].
    assert (n <= length (List.filter
      (fun s => existsb (fun j => at_level sessions j s) (seq (S k) n)) sessions))%nat
      as Hn; [|simpl; lia].
    apply IH. intros j Hj. apply Hpop. lia.
  - intros s Hk (j & Hj & Hlj)%existsb_exists. apply in_seq in Hj.
    pose proof (at_level_unique sessions distinct _ _ _ Hk Hlj). lia.
Qed.

(** A chain of parent references is shorter than the list. *)
Lemma at_level_bound k s :
  In s sessions -> at_level sessions k s = true -> (k < length sessions)%nat.
Proof.
  intros Hs Hk.
  pose proof (populated_levels_count (S k) 0) as Hcount.
  pose proof (filter_length_le
    (fun s => existsb (fun j => at_level sessions j s) (seq 0 (S k))) sessions).
  assert (S k <= length sessions)%nat; [|lia].
  etrans; [apply Hcount|done].
  intros j Hj. destruct (decide (j = k)) as [->|Hne]; [eauto|].
  apply (at_level_below k s Hk). lia.
Qed.

Lemma level_empty k :
  (length sessions <= k)%nat -> List.filter (at_level sessions k) sessions = [].
Proof.
  intros Hk. apply filter_none. intros s Hs.
  destruct (at_level sessions k s) eqn:E; [|done].
  pose proof (at_level_bound k s Hs E). lia.
Qed.

(** With distinct paths the construction returns, and the forest holds
    the sessions whose chain of parent references ends. *)
Lemma build_distinct :
  exists forest,
    buildSessionTree sessions = Some forest /\
    forest_sessions forest ≡ₚ List.filter (reaches_root sessions) sessions.
Proof.
  pose proof (sorted_roots_perm sessions) as Hroots.
  pose proof (level_from_at_level sessions distinct (length sessions) 0 _ Hroots) as Hlast.
  rewrite level_empty in Hlast by lia.
  apply Permutation_nil_r in Hlast.
  destruct (build_returns _ _ 0%nat _ Hlast) as (forest & Hforest).
  exists forest. split.
  - unfold buildSessionTree, buildSessionTree_fuel. by apply mapM_Some.
  - rewrite (build_sessions _ _ _ _ _ Hforest).
    by rewrite (levels_upto_at_level sessions distinct _ 0 _ Hroots).
Qed.

Lemma parent_level c p k :
  parent_rel sessions c p -> at_level sessions k c = true ->
  exists k', k = S k' /\ at_level sessions k' p = true.
Proof.
  intros [Hp Hc] Hk. destruct k as [|k].
  - simpl in Hk. by rewrite (child_of_has_parent _ _ _ Hc) in Hk.
  - apply at_level_succ in Hk as (q & Hq & Hqk & Hcq).
    exists k. split; [done|].
    assert (q = p) as <-; [|done].
    apply (same_path_same_session sessions); [done..|].
    by eapply child_of_same_path.
Qed.

Lemma ancestor_level c p :
  tc (parent_rel sessions) c p ->
  forall k, at_level sessions k c = true ->
  exists k', (k' < k)%nat /\ at_level sessions k' p = true.
Proof.
  induction 1 as [c p Hcp|c q p Hcq _ IH]; intros k Hk.
  - destruct (parent_level _ _ _ Hcp Hk) as (k' & -> & Hk'). exists k'. split; [lia|done].
  - destruct (parent_level _ _ _ Hcq Hk) as (k1 & -> & Hk1).
    destruct (IH _ Hk1) as (k' & ? & ?). exists k'. split; [lia|done].
Qed.

(** A session on a cycle of references is in no generation. *)
Lemma on_cycle_no_level s k :
  on_cycle sessions s -> at_level sessions k s = false.
Proof.
  intros Hcyc. destruct (at_level sessions k s) eqn:E; [|done].
  destruct (ancestor_level _ _ Hcyc _ E) as (k' & Hlt & Hk').
  pose proof (at_level_unique sessions distinct _ _ _ E Hk'). lia.
Qed.

Lemma on_cycle_not_rooted s :
  on_cycle sessions s -> reaches_root sessions s = false.
Proof.
  intros Hcyc. unfold reaches_root.
  destruct (existsb _ _) eqn:E; [|done].
  apply existsb_exists in E as (k & _ & Hk).
  by rewrite on_cycle_no_level in Hk.
Qed.

Lemma on_cycle_has_parent s :
  on_cycle sessions s -> has_parent (index_by_path sessions) s = true.
Proof.
  intros Hcyc. unfold on_cycle in Hcyc.
  assert (exists p, parent_rel sessions s p) as (p & _ & Hc)
    by (inversion Hcyc; eauto).
  by eapply child_of_has_parent.
Qed.
End Depth.

Section Chase.
Variable sessions : list Session.
Hypothesis distinct : paths_distinct sessions.

Lemma has_parent_parent_rel s :
  has_parent (index_by_path sessions) s = true -> exists p, parent_rel sessions s p.
Proof.
  intros (pth & Hp & Hne & Hin)%has_parent_spec.
  apply in_map_iff in Hin as (p & <- & Hin).
  exists p. split; [done|]. apply child_of_spec. split; [done|]. split; [done|].
  by apply in_map.
Qed.

Lemma rtc_level s q :
  rtc (parent_rel sessions) s q ->
  forall k, at_level sessions k s = true ->
  exists k', (k' <= k)%nat /\ at_level sessions k' q = true.
Proof.
  intros [->|Htc]%rtc_tc k Hk; [by exists k|].
  destruct (ancestor_level sessions distinct _ _ Htc _ Hk) as (k' & ? & ?).
  exists k'. split; [lia|done].
Qed.

Lemma below_cycle_not_rooted s :
  below_cycle sessions s -> reaches_root sessions s = false.
Proof.
  intros (q & Hsq & Hq). unfold reaches_root.
  destruct (existsb _ _) eqn:E; [|done].
  apply existsb_exists in E as (k & _ & Hk).
  destruct (rtc_level _ _ Hsq _ Hk) as (k' & _ & Hk').
  by rewrite (on_cycle_no_level sessions distinct q k' Hq) in Hk'.
Qed.

(** Following the parent references from [s], with the sessions passed so
    far in [visited], ends at a root or runs into a session already
    passed. *)
Lemma chase fuel : forall visited s,
  NoDup (s :: visited) ->
  (forall v, In v (s :: visited) -> In v sessions /\ rtc (parent_rel sessions) v s) ->
  (length sessions < fuel + length (s :: visited))%nat ->
  (exists k, at_level sessions k s = true) \/ below_cycle sessions s.
Proof.
  induction fuel as [|fuel IH]; intros visited s Hnd Hinv Hlen.
  - exfalso. assert (length (s :: visited) <= length sessions)%nat; [|simpl in *; lia].
    apply NoDup_incl_length; [by apply NoDup_ListNoDup|].
    intros v Hv. apply (Hinv v Hv).
  - destruct (has_parent (index_by_path sessions) s) eqn:Hpar;
      [|left; exists 0%nat; simpl; by rewrite Hpar].
    destruct (has_parent_parent_rel s Hpar) as (p & Hsp).
    destruct (decide (p ∈ s :: visited)) as [Hseen%list_elem_of_In|Hnew].
    + right. exists p. split; [by apply rtc_once|].
      destruct (Hinv p Hseen) as [_ Hps].
      eapply tc_rtc_l; [exact Hps|by apply tc_once].
    + destruct (IH (s :: visited) p) as [(k & Hk)|(q & Hpq & Hq)].
      * apply NoDup_cons. by split.
      * intros v [<-|Hv].
        -- split; [by destruct Hsp|done].
        -- destruct (Hinv v Hv) as [Hvin Hvs]. split; [done|].
           eapply rtc_r; [exact Hvs|exact Hsp].
      * simpl in *. lia.
      * left. exists (S k). apply at_level_succ. exists p.
        destruct Hsp as [Hp Hc]. done.
      * right. exists q. split; [|done]. eapply rtc_l; [exact Hsp|exact Hpq].
Qed.

(** A session of the list is in no generation exactly when its references
    lead into a cycle. *)
Lemma unrooted_iff_below_cycle s :
  In s sessions -> reaches_root sessions s = false <-> below_cycle sessions s.
Proof.
  intros Hs. split; [|apply below_cycle_not_rooted].
  intros Hroot.
  destruct (chase (S (length sessions)) [] s) as [(k & Hk)|Hcyc]; [| | |  |done].
  - apply NoDup_singleton.
  - intros v [<-|[]]. done.
  - simpl. lia.
  - exfalso. unfold reaches_root in Hroot.
    assert (existsb (fun k => at_level sessions k s) (seq 0 (length sessions)) = true)
      as Htrue; [|by rewrite Htrue in Hroot].
    apply existsb_exists. exists k. split; [|done].
    apply in_seq. pose proof (at_level_bound sessions distinct k s Hs Hk). lia.
Qed.
End Chase.

Lemma self_reference_on_cycle (sessions : list Session) (s : Session) :
  In s sessions -> parentSession s = Some (path s) -> path s <> "" ->
  on_cycle sessions s.
Proof.
  intros Hs Hp Hne. apply tc_once. split; [done|].
  apply child_of_spec. split; [done|]. split; [done|]. by apply in_map.
Qed.

Lemma buildSessionTree_more_fuel fuel fuel' sessions forest :
  buildSessionTree_fuel fuel sessions = Some forest -> (fuel <= fuel')%nat ->
  buildSessionTree_fuel fuel' sessions = Some forest.
Proof.
  unfold buildSessionTree_fuel. intros Hf Hle.
  apply mapM_Some in Hf. apply mapM_Some.
  eapply Forall2_impl; [exact Hf|].
  intros s t Hst. simpl in Hst. by apply (buildNode_more_fuel _ _ _ _ _ Hst).
Qed.

(** ** The depth allowed to [buildSessionTree] is enough

    Whenever the recursion of [buildNode] ends at all, it ends within as
    many levels as there are sessions: [buildSessionTree] is [None] only
    when the recursion never ends. *)

Section EnoughFuel.
Variable cO : gmap string (list Session).

Lemma build_child fuel s d t c :
  buildNode (S fuel) cO s d = Some t -> visits cO s c ->
  exists t', buildNode fuel cO c (d + 1) = Some t'.
Proof.
  intros (kids & Hkids & _)%buildNode_unfold Hc.
  apply list_elem_of_In, list_elem_of_lookup in Hc as (i & Hi).
  destruct (Forall2_lookup_l _ _ _ _ _ Hkids Hi) as (t' & _ & Ht'). eauto.
Qed.

Lemma build_descendant s c :
  tc (visits cO) s c ->
  forall fuel d t, buildNode fuel cO s d = Some t ->
  exists fuel' d' t', (fuel' < fuel)%nat /\ buildNode fuel' cO c d' = Some t'.
Proof.
  induction 1 as [s c Hsc|s m c Hsm _ IH]; intros fuel d t Ht.
  - destruct fuel as [|fuel]; [done|].
    destruct (build_child _ _ _ _ _ Ht Hsc) as (t' & Ht').
    exists fuel, (d + 1)%nat, t'. split; [lia|done].
  - destruct fuel as [|fuel]; [done|].
    destruct (build_child _ _ _ _ _ Ht Hsm) as (tm & Htm).
    destruct (IH _ _ _ Htm) as (fuel' & d' & t' & Hlt & Ht').
    exists fuel', d', t'. split; [lia|done].
Qed.

(** A session that is visited below itself is never built. *)
Lemma cyclic_never_builds s :
  tc (visits cO) s s -> forall fuel d, buildNode fuel cO s d = None.
Proof.
  intros Hcyc fuel. induction fuel as [fuel IH] using lt_wf_ind. intros d.
  destruct (buildNode fuel cO s d) as [t|] eqn:E; [|done].
  destruct (build_descendant _ _ Hcyc _ _ _ E) as (fuel' & d' & t' & Hlt & Ht').
  by rewrite (IH fuel' Hlt d') in Ht'.
Qed.

Lemma Forall2_of_is_Some {A B} (g : A -> option B) (l : list A) :
  (forall x, In x l -> is_Some (g x)) -> exists ks, Forall2 (fun x k => g x = Some k) l ks.
Proof.
  induction l as [|x l IH]; intros Hg; [by exists []|].
  destruct (Hg x) as (k & Hk); [by left|].
  destruct IH as (ks & Hks); [intros y Hy; apply Hg; by right|].
  exists (k :: ks). by constructor.
Qed.

Variable universe : list Session.
Hypothesis visits_in_universe : forall s c, visits cO s c -> In c universe.

Lemma build_enough fuel : forall visited s d,
  (exists fuel0 t, buildNode fuel0 cO s d = Some t) ->
  NoDup (s :: visited) ->
  (forall v, In v (s :: visited) -> In v universe /\ rtc (visits cO) v s) ->
  (length universe < fuel + length (s :: visited))%nat ->
  is_Some (buildNode fuel cO s d).
Proof.
  induction fuel as [|fuel IH]; intros visited s d (fuel0 & t & Ht) Hnd Hinv Hlen.
  - exfalso. assert (length (s :: visited) <= length universe)%nat; [|simpl in *; lia].
    apply NoDup_incl_length; [by apply NoDup_ListNoDup|].
    intros v Hv. apply (Hinv v Hv).
  - destruct fuel0 as [|fuel0]; [done|].
    destruct (Forall2_of_is_Some (fun c => buildNode fuel cO c (d + 1))
                (sorted_children cO s)) as (kids & Hkids).
    + intros c Hc. destruct (build_child _ _ _ _ _ Ht Hc) as (tc0 & Htc0).
      apply (IH (s :: visited)).
      * eauto.
      * apply NoDup_cons. split; [|done].
        intros Hseen%list_elem_of_In. destruct (Hinv c Hseen) as [_ Hcs].
        assert (tc (visits cO) c c) as Hcyc
          by (eapply tc_rtc_l; [exact Hcs|by apply tc_once]).
        by rewrite (cyclic_never_builds c Hcyc) in Htc0.
      * intros v [<-|Hv].
        -- split; [by eapply visits_in_universe|done].
        -- destruct (Hinv v Hv) as [Hvin Hvs]. split; [done|].
           eapply rtc_r; [exact Hvs|exact Hc].
      * simpl in *. lia.
    + exists (mkNode s kids d). apply buildNode_unfold. eauto.
Qed.

Lemma build_within_universe fuel0 s d t :
  In s universe -> buildNode fuel0 cO s d = Some t ->
  buildNode (length universe) cO s d = Some t.
Proof.
  intros Hs Ht.
  destruct (build_enough (length universe) [] s d) as (t' & Ht').
  - eauto.
  - apply NoDup_singleton.
  - intros v [<-|[]]. done.
  - simpl. lia.
  - pose proof (buildNode_more_fuel cO _ _ _ _ Ht (Nat.max fuel0 (length universe))) as H1.
    pose proof (buildNode_more_fuel cO _ _ _ _ Ht' (Nat.max fuel0 (length universe))) as H2.
    rewrite H1 in H2 by lia. rewrite Ht'. symmetry. apply H2. lia.
Qed.
End EnoughFuel.

Lemma visits_in_sessions (sessions : list Session) s c :
  visits (childrenOf (fill_buckets sessions)) s c -> In c sessions.
Proof.
  unfold visits, sorted_children. rewrite sort_by_In, fill_buckets_children.
  by intros [? _]%filter_In.
Qed.

(** If [buildSessionTree] returns for some allowed depth, it returns the
    same forest for the depth [length sessions]. *)
Lemma buildSessionTree_complete fuel sessions forest :
  buildSessionTree_fuel fuel sessions = Some forest ->
  buildSessionTree sessions = Some forest.
Proof.
  unfold buildSessionTree, buildSessionTree_fuel. intros Hf.
  apply mapM_Some in Hf. apply mapM_Some.
  assert (forall s, In s (sort_by cmp_modified_desc (roots (fill_buckets sessions))) ->
                    In s sessions) as Hroots.
  { intros s. rewrite sort_by_In, fill_buckets_roots. by intros [? _]%filter_In. }
  induction Hf as [|s t l ts Hst _ IH]; [constructor|].
  constructor.
  - eapply (build_within_universe _ sessions); [apply visits_in_sessions| |exact Hst].
    apply Hroots. by left.
  - apply IH. intros s' Hs'. apply Hroots. by right.
Qed.

(** ** Cardinality of the flattening *)

Example demo_flat :
  (fun l => map (fun e => (path (fn_session e), fn_depth e, fn_prefix e)) l) <$> flat_of demo
  = Some [("/c", 0%nat, ""); ("/a", 0%nat, ""); ("/b", 1%nat, "└─ ")].
Proof. vm_compute. reflexivity. Qed.

Example two_cycle_flat : flat_of two_cycle = Some [].
Proof. vm_compute. reflexivity. Qed.

(** C1, as stated, fails: a session that names itself as parent is put in
    its own children bucket, is no root, and the flattening of the
    one-session list has no entry at all. *)
Lemma C1_self_reference_dropped :
  length self_loop = 1%nat /\ flat_of self_loop = Some [].
Proof. split; vm_compute; reflexivity. Qed.

(** C1 (amended): for every list of sessions with pairwise distinct paths,
    the construction returns and the flattening has exactly one entry for
    each input session whose chain of parent references ends at a session
    with an absent, empty or dangling reference, and no other entry; the
    sessions left out are those whose references lead into a cycle (a
    session naming itself included); when no session is such, the
    flattening has exactly one entry per input session. *)
Theorem C1_one_entry_per_rooted_session (sessions : list Session) :
  paths_distinct sessions ->
  exists flat,
    flat_of sessions = Some flat /\
    map fn_session flat ≡ₚ List.filter (reaches_root sessions) sessions /\
    (forall s, In s sessions ->
       reaches_root sessions s = false <-> below_cycle sessions s) /\
    ((forall s, In s sessions -> reaches_root sessions s = true) ->
       map fn_session flat ≡ₚ sessions /\ length flat = length sessions).
Proof.
  intros Hd. destruct (build_distinct sessions Hd) as (forest & Hbuild & Hperm).
  exists (flattenTree forest). unfold flat_of. rewrite Hbuild. split; [done|].
  rewrite flattenTree_sessions. split; [done|].
  split; [intros s Hs; by apply unrooted_iff_below_cycle|].
  intros Hall.
  rewrite (filter_all _ _ Hall) in Hperm. split; [done|].
  rewrite <- (length_map fn_session), flattenTree_sessions.
  by apply Permutation_length.
Qed.

Lemma C1_one_entry_per_rooted_session_witness :
  exists flat,
    flat_of demo = Some flat /\
    map fn_session flat ≡ₚ List.filter (reaches_root demo) demo /\
    (forall s, In s demo -> reaches_root demo s = false <-> below_cycle demo s) /\
    ((forall s, In s demo -> reaches_root demo s = true) ->
       map fn_session flat ≡ₚ demo /\ length flat = length demo).
Proof.
  apply (C1_one_entry_per_rooted_session demo).
  apply (bool_decide_unpack _). vm_compute. exact I.
Defined.

(** ** Self-references and cycles *)

(** C2, as stated, fails: the self-referencing session of [self_loop] is
    not among the roots; it is registered as a child of itself. *)
Lemma C2_self_reference_not_root :
  roots (fill_buckets self_loop) = [] /\
  childrenOf (fill_buckets self_loop) !! "/a" = Some self_loop /\
  flat_of self_loop = Some [].
Proof. repeat split; vm_compute; reflexivity. Qed.

(** C2 (amended): for every list of sessions with pairwise distinct paths,
    the construction followed by the flattening returns; a session of the
    list whose parent reference is its own (non-empty) path, or lies on a
    cycle of parent references, is not a root: it is registered in the
    children bucket of the session it names (its own bucket when it names
    itself) and has no entry in the flattening. *)
Theorem C2_cycle_member_is_child (sessions : list Session) (s : Session) :
  paths_distinct sessions -> In s sessions -> on_cycle sessions s ->
  exists flat,
    flat_of sessions = Some flat /\
    ~ In s (roots (fill_buckets sessions)) /\
    (exists p, parentSession s = Some p /\ In p (map path sessions) /\
               In s (default [] (childrenOf (fill_buckets sessions) !! p))) /\
    ~ In s (map fn_session flat).
Proof.
  intros Hd Hs Hcyc.
  destruct (build_distinct sessions Hd) as (forest & Hbuild & Hperm).
  exists (flattenTree forest). unfold flat_of. rewrite Hbuild. split; [done|].
  pose proof (on_cycle_has_parent _ _ Hcyc) as Hpar.
  split; [|split].
  - rewrite fill_buckets_roots, filter_In. rewrite Hpar. by intros [_ ?].
  - pose proof Hpar as Hpar'.
    apply has_parent_spec in Hpar' as (p & Hp & Hne & Hin).
    exists p. split; [done|]. split; [done|].
    rewrite fill_buckets_children. apply filter_In. split; [done|].
    by apply child_of_spec.
  - rewrite flattenTree_sessions. intros Hin.
    apply list_elem_of_In in Hin. rewrite Hperm in Hin.
    apply list_elem_of_In, filter_In in Hin as [_ Hr].
    by rewrite (on_cycle_not_rooted sessions Hd s Hcyc) in Hr.
Qed.

Lemma C2_cycle_member_is_child_witness :
  exists flat,
    flat_of self_loop = Some flat /\
    ~ In (sess "/a" (Some "/a") 1 1) (roots (fill_buckets self_loop)) /\
    (exists p, parentSession (sess "/a" (Some "/a") 1 1) = Some p /\
               In p (map path self_loop) /\
               In (sess "/a" (Some "/a") 1 1)
                  (default [] (childrenOf (fill_buckets self_loop) !! p))) /\
    ~ In (sess "/a" (Some "/a") 1 1) (map fn_session flat).
Proof.
  apply (C2_cycle_member_is_child self_loop (sess "/a" (Some "/a") 1 1)).
  - apply (bool_decide_unpack _). vm_compute. exact I.
  - simpl. left. reflexivity.
  - apply self_reference_on_cycle.
    + simpl. left. reflexivity.
    + reflexivity.
    + simpl. discriminate.
Defined.

(** Paths must be distinct for the construction to return: on
    [shared_path] the recursion of [buildNode] never ends, whatever the
    depth allowed. *)
Lemma shared_path_diverges fuel : buildSessionTree_fuel fuel shared_path = None.
Proof.
  assert (forall fuel d,
    buildNode fuel (childrenOf (fill_buckets shared_path)) (sess "/a" (Some "/a") 2 2) d = None)
    as Hloop.
  { clear. induction fuel as [|fuel IH]; intros d; [done|].
    simpl buildNode.
    replace (sorted_children (childrenOf (fill_buckets shared_path)) (sess "/a" (Some "/a") 2 2))
      with [sess "/a" (Some "/a") 2 2] by (vm_compute; reflexivity).
    simpl. by rewrite IH. }
  unfold buildSessionTree_fuel.
  replace (sort_by cmp_modified_desc (roots (fill_buckets shared_path)))
    with [sess "/a" None 1 1] by (vm_compute; reflexivity).
  destruct fuel as [|fuel]; [done|].
  simpl mapM. simpl buildNode.
  replace (sorted_children (childrenOf (fill_buckets shared_path)) (sess "/a" None 1 1))
    with [sess "/a" (Some "/a") 2 2] by (vm_compute; reflexivity).
  simpl. by rewrite Hloop.
Qed.

(** ** Order of roots and siblings *)

Lemma before_app_l {A} (x y : A) l m : before x y l -> before x y (l ++ m).
Proof.
  intros (l1 & l2 & l3 & ->). exists l1, l2, (l3 ++ m).
  by rewrite <- !app_assoc, <- !app_comm_cons, <- app_assoc.
Qed.

Lemma before_app_r {A} (x y : A) l m : before x y l -> before x y (m ++ l).
Proof.
  intros (l1 & l2 & l3 & ->). exists (m ++ l1), l2, l3.
  by rewrite <- !app_assoc.
Qed.

Lemma before_cons {A} (x y z : A) l : before x y l -> before x y (z :: l).
Proof. apply (before_app_r x y l [z]). Qed.

Lemma before_head {A} (x y : A) l : In y l -> before x y (x :: l).
Proof.
  intros (l2 & l3 & ->)%in_split. by exists [], l2, l3.
Qed.

Lemma sorted_before {A} (R : A -> A -> Prop) (x y : A) l :
  (forall a, R a a) ->
  StronglySorted R l -> In x l -> In y l -> ~ R y x -> before x y l.
Proof.
  intros Hrefl Hs Hx Hy Hxy.
  induction Hs as [|z l Hs IH Hz]; [done|].
  rewrite Forall_forall in Hz.
  destruct Hx as [->|Hx].
  - destruct Hy as [->|Hy]; [destruct Hxy; apply Hrefl|].
    by apply before_head.
  - destruct Hy as [->|Hy].
    + destruct Hxy. apply Hz. by apply list_elem_of_In.
    + apply before_cons. by apply IH.
Qed.

Lemma before_map_inv {A B} (f : A -> B) (x y : B) l :
  before x y (map f l) ->
  exists l1 a l2 b l3, l = l1 ++ a :: l2 ++ b :: l3 /\ f a = x /\ f b = y.
Proof.
  intros (k1 & k2 & k3 & Heq).
  apply map_eq_app in Heq as (l1 & r1 & -> & <- & Heq).
  destruct r1 as [|a r1]; [done|]. simpl in Heq. injection Heq as <- Heq.
  apply map_eq_app in Heq as (l2 & r2 & -> & <- & Heq).
  destruct r2 as [|b l3]; [done|]. simpl in Heq. injection Heq as <- <-.
  by exists l1, a, l2, b, l3.
Qed.

(** Roots, and siblings, keep their order in the pre-order listing. *)
Lemma before_forest_sessions a b f :
  before a b f -> before (tn_session a) (tn_session b) (forest_sessions f).
Proof.
  intros (f1 & f2 & f3 & ->).
  rewrite forest_sessions_app. apply before_app_r.
  change (a :: f2 ++ b :: f3) with ([a] ++ f2 ++ b :: f3).
  rewrite forest_sessions_app. unfold forest_sessions at 1. simpl flat_map.
  rewrite app_nil_r, tree_sessions_eq.
  rewrite <- app_comm_cons. apply before_head.
  apply in_or_app. right.
  rewrite forest_sessions_app. apply in_or_app. right.
  unfold forest_sessions. simpl. rewrite tree_sessions_eq. by left.
Qed.

Lemma node_in_infix t f :
  node_in t f ->
  exists pre post, forest_sessions f = pre ++ tree_sessions t ++ post.
Proof.
  induction 1 as [t f Hin|t p f Hin _ (pre & post & IH)].
  - apply in_split in Hin as (f1 & f2 & ->).
    exists (forest_sessions f1), (forest_sessions f2).
    rewrite forest_sessions_app. unfold forest_sessions at 2. by simpl.
  - apply in_split in Hin as (f1 & f2 & ->).
    exists (forest_sessions f1 ++ tn_session p :: pre), (post ++ forest_sessions f2).
    rewrite forest_sessions_app. unfold forest_sessions at 2. simpl flat_map.
    rewrite tree_sessions_eq, IH. fold (forest_sessions f2).
    by rewrite <- !app_assoc, <- !app_comm_cons, <- !app_assoc.
Qed.

Section BuiltTrees.
Variable cO : gmap string (list Session).

Lemma built_sessions fuel d l ts :
  Forall2 (fun s t => buildNode fuel cO s d = Some t) l ts ->
  map tn_session ts = l /\ Forall (built cO) ts.
Proof.
  induction 1 as [|s t l ts Hst _ [IH1 IH2]]; [done|]. split.
  - simpl. rewrite IH1. f_equal.
    destruct fuel as [|fuel]; [done|].
    by apply buildNode_unfold in Hst as (kids & _ & ->).
  - constructor; [|done]. by exists fuel, s, d.
Qed.

Lemma built_children t :
  built cO t ->
  map tn_session (tn_children t) = sorted_children cO (tn_session t)
  /\ Forall (built cO) (tn_children t).
Proof.
  intros (fuel & s & d & Ht). destruct fuel as [|fuel]; [done|].
  apply buildNode_unfold in Ht as (kids & Hkids & ->). simpl.
  by apply built_sessions in Hkids.
Qed.

Lemma node_in_built t f : node_in t f -> Forall (built cO) f -> built cO t.
Proof.
  induction 1 as [t f Hin|t p f Hin _ IH]; intros Hf; rewrite Forall_forall in Hf.
  - by apply Hf, list_elem_of_In.
  - apply IH. apply built_children. by apply Hf, list_elem_of_In.
Qed.
End BuiltTrees.

(** C5: in the forest [buildSessionTree] returns the roots are in
    descending order of modification time and the children of every node
    in ascending order of creation time; so of two parentless sessions the
    more recently modified one comes first in the flattening, and of two
    children of a node the one created first. *)
Theorem C5_roots_newest_first_children_oldest_first
    (fuel : nat) (sessions : list Session) (forest : list SessionTreeNode) :
  buildSessionTree_fuel fuel sessions = Some forest ->
  StronglySorted (fun a b => (modified b <= modified a)%Z) (map tn_session forest) /\
  (forall t, node_in t forest ->
     StronglySorted (fun a b => (created a <= created b)%Z)
       (map tn_session (tn_children t))) /\
  (forall a b, In a sessions -> In b sessions ->
     has_parent (index_by_path sessions) a = false ->
     has_parent (index_by_path sessions) b = false ->
     (modified a < modified b)%Z ->
     before b a (map fn_session (flattenTree forest))) /\
  (forall t c1 c2, node_in t forest ->
     In c1 (tn_children t) -> In c2 (tn_children t) ->
     (created (tn_session c1) < created (tn_session c2))%Z ->
     before (tn_session c1) (tn_session c2) (map fn_session (flattenTree forest))).
Proof.
  unfold buildSessionTree_fuel. intros Hbuild. apply mapM_Some in Hbuild.
  apply built_sessions in Hbuild as [Hroots Hbuilt].
  assert (forall t, node_in t forest ->
     StronglySorted (fun a b => (created a <= created b)%Z)
       (map tn_session (tn_children t))) as Hkids.
  { intros t Ht. pose proof (node_in_built _ _ _ Ht Hbuilt) as Hb.
    apply built_children in Hb as [-> _]. apply sorted_children_asc. }
  split; [|split; [exact Hkids|split]].
  - rewrite Hroots. apply sorted_roots_desc.
  - intros a b Ha Hb Hpa Hpb Hab. rewrite flattenTree_sessions.
    assert (before b a (map tn_session forest)) as Hbefore.
    { rewrite Hroots.
      apply (sorted_before (fun a b => (modified b <= modified a)%Z)).
      - intros. lia.
      - apply sorted_roots_desc.
      - apply sort_by_In. rewrite fill_buckets_roots. apply filter_In. by rewrite Hpb.
      - apply sort_by_In. rewrite fill_buckets_roots. apply filter_In. by rewrite Hpa.
      - lia. }
    apply before_map_inv in Hbefore as (f1 & tb & f2 & ta & f3 & -> & <- & <-).
    apply before_forest_sessions. by exists f1, f2, f3.
  - intros t c1 c2 Ht H1 H2 Hlt. rewrite flattenTree_sessions.
    destruct (node_in_infix _ _ Ht) as (pre & post & ->).
    apply before_app_r, before_app_l.
    rewrite tree_sessions_eq. apply before_cons.
    assert (before (tn_session c1) (tn_session c2) (map tn_session (tn_children t)))
      as Hbefore.
    { apply (sorted_before (fun a b => (created a <= created b)%Z)).
      - intros. lia.
      - by apply Hkids.
      - by apply in_map.
      - by apply in_map.
      - lia. }
    apply before_map_inv in Hbefore as (k1 & a & k2 & b & k3 & Heq & <- & <-).
    apply before_forest_sessions. rewrite Heq. by exists k1, k2, k3.
Qed.

Lemma C5_roots_newest_first_children_oldest_first_witness :
  StronglySorted (fun a b => (modified b <= modified a)%Z) (map tn_session demo_forest) /\
  (forall t, node_in t demo_forest ->
     StronglySorted (fun a b => (created a <= created b)%Z)
       (map tn_session (tn_children t))) /\
  (forall a b, In a demo -> In b demo ->
     has_parent (index_by_path demo) a = false ->
     has_parent (index_by_path demo) b = false ->
     (modified a < modified b)%Z ->
     before b a (map fn_session (flattenTree demo_forest))) /\
  (forall t c1 c2, node_in t demo_forest ->
     In c1 (tn_children t) -> In c2 (tn_children t) ->
     (created (tn_session c1) < created (tn_session c2))%Z ->
     before (tn_session c1) (tn_session c2) (map fn_session (flattenTree demo_forest))).
Proof.
  apply (C5_roots_newest_first_children_oldest_first 3 demo demo_forest).
  vm_compute. reflexivity.
Defined.

(** Roots A (modified 10) and B (modified 20): B is flattened first.
    Parent P with children X (created 1) and Y (created 5): X comes
    right before Y under P. *)
Example newest_root_first :
  (map (fun e => path (fn_session e))) <$>
    flat_of [ sess "A" None 0 10; sess "B" None 0 20 ]
  = Some ["B"; "A"].
Proof. vm_compute. reflexivity. Qed.

Example oldest_child_first :
  (map (fun e => (path (fn_session e), fn_prefix e))) <$>
    flat_of [ sess "Y" (Some "P") 5 0; sess "P" None 0 0; sess "X" (Some "P") 1 0 ]
  = Some [("P", ""); ("X", "├─ "); ("Y", "└─ ")].
Proof. vm_compute. reflexivity. Qed.

(** ** Prefixes *)

Lemma append_nil_r (s : string) : s +:+ "" = s.
Proof. induction s as [|c s IH]; simpl; [done|]. by rewrite IH. Qed.

Lemma append_assoc (a b c : string) : (a +:+ b) +:+ c = a +:+ (b +:+ c).
Proof. induction a as [|x a IH]; simpl; [done|]. by rewrite IH. Qed.

Lemma foldl_append (l : list string) : forall acc,
  foldl String.append acc l = acc +:+ concat_strings l.
Proof.
  induction l as [|x l IH]; intros acc; simpl.
  - by rewrite append_nil_r.
  - by rewrite IH, append_assoc.
Qed.

Lemma join_prefixes_concat (l : list string) :
  join_prefixes l = concat_strings l.
Proof. unfold join_prefixes. by rewrite foldl_append. Qed.

Lemma tree_positions_eq t :
  tree_positions t = [] :: positions_from 0 (tn_children t).
Proof. by destruct t. Qed.

Lemma node_at_app f : forall ctx t rel,
  node_at f ctx = Some t -> rel <> [] ->
  node_at f (ctx ++ rel) = node_at (tn_children t) rel.
Proof.
  intros ctx. revert f. induction ctx as [|i ctx IH]; intros f t rel Ht Hrel; [done|].
  simpl in Ht |- *. destruct (f !! i) as [t0|]; [|done].
  destruct ctx as [|j ctx].
  - injection Ht as ->. simpl. by destruct rel.
  - change ((j :: ctx) ++ rel) with (j :: ctx ++ rel). by apply IH.
Qed.

Lemma is_last_sibling_app f : forall ctx t rel,
  node_at f ctx = Some t -> rel <> [] ->
  is_last_sibling f (ctx ++ rel) = is_last_sibling (tn_children t) rel.
Proof.
  intros ctx. revert f. induction ctx as [|i ctx IH]; intros f t rel Ht Hrel; [done|].
  simpl in Ht |- *. destruct (f !! i) as [t0|]; [|done].
  destruct ctx as [|j ctx].
  - injection Ht as ->. simpl. by destruct rel.
  - change ((j :: ctx) ++ rel) with (j :: ctx ++ rel). by apply IH.
Qed.

Lemma node_at_nonempty f ctx t : node_at f ctx = Some t -> (1 <= length ctx)%nat.
Proof. destruct ctx; [done|]. simpl. lia. Qed.

Lemma child_ancestors_root i : child_ancestors [i] = [].
Proof. done. Qed.

Lemma child_ancestors_snoc ctx i :
  (1 <= length ctx)%nat ->
  child_ancestors (ctx ++ [i])
  = child_ancestors ctx ++ (if (0 <? length ctx - 1)%nat then [ctx] else []).
Proof.
  intros Hlen. unfold child_ancestors. rewrite length_app. simpl length.
  destruct (length ctx - 1)%nat as [|m] eqn:Hm.
  - replace (length ctx + 1 - 2)%nat with 0%nat by lia.
    replace (length ctx - 2)%nat with 0%nat by lia. done.
  - replace (length ctx + 1 - 2)%nat with (S (length ctx - 2)) by lia.
    rewrite seq_S, map_app.
    replace (2 + (length ctx - 2))%nat with (length ctx) by lia.
    f_equal.
    + apply map_ext_in. intros n Hn%in_seq.
      apply take_app_le. lia.
    + simpl. f_equal. apply take_app_length.
Qed.

Lemma proper_ancestors_split pos :
  (2 <= length pos)%nat ->
  proper_ancestors pos = take 1 pos :: child_ancestors pos.
Proof.
  intros Hlen. unfold proper_ancestors, child_ancestors.
  replace (length pos - 1)%nat with (S (length pos - 2)) by lia. done.
Qed.

Lemma child_ancestors_lengths pos a :
  In a (child_ancestors pos) -> has_parent_node a = true.
Proof.
  unfold child_ancestors, has_parent_node.
  intros (n & <- & Hn%in_seq)%in_map_iff.
  rewrite length_take. apply Nat.leb_le. lia.
Qed.

Lemma filter_child_ancestors (P : list nat -> bool) pos :
  (0 < length pos - 1)%nat ->
  List.filter (fun a => has_parent_node a && P a) (proper_ancestors pos)
  = List.filter P (child_ancestors pos).
Proof.
  intros Hlen. rewrite proper_ancestors_split by lia.
  cbn [List.filter].
  replace (has_parent_node (take 1 pos)) with false
    by (unfold has_parent_node; rewrite length_take; symmetry; apply Nat.leb_gt; lia).
  cbn [andb]. apply filter_ext_in. intros a Ha.
  by rewrite (child_ancestors_lengths pos a Ha).
Qed.

Lemma fragment_counts (last : list nat -> bool) (l : list (list nat)) :
  length (List.filter (String.eqb bar) (map (fun a => if last a then blank else bar) l))
    = length (List.filter (fun a => negb (last a)) l) /\
  length (List.filter (String.eqb blank) (map (fun a => if last a then blank else bar) l))
    = length (List.filter last l).
Proof.
  induction l as [|a l [IH1 IH2]]; [done|].
  cbn [map List.filter]. destruct (last a); cbn [negb].
  - change (bar =? blank)%string with false. change (blank =? blank)%string with true.
    cbn [length]. by rewrite IH1, IH2.
  - change (bar =? bar)%string with true. change (blank =? bar)%string with false.
    cbn [length]. by rewrite IH1, IH2.
Qed.

(** The entry pushed by a call of [flatten] on the node at [ctx], entered
    with the fragments of the ancestors of [ctx]. *)
Lemma flatten_head_ok f ctx t :
  node_at f ctx = Some t ->
  entry_ok f ctx
    (mkFlat (tn_session t) (length ctx - 1)
       (if (0 <? length ctx - 1)%nat
        then join_prefixes (map (fun a => fragment (is_last_sibling f a)) (child_ancestors ctx))
             +:+ connector (is_last_sibling f ctx)
        else "")
       (is_last_sibling f ctx) (0 <? length (tn_children t))%nat).
Proof.
  intros Ht. unfold entry_ok. simpl. split; [|split; [done|split; [done|split]]].
  - exists t. split; [done|]. split; [done|]. by destruct (tn_children t).
  - by intros ->.
  - intros Hd. destruct (length ctx - 1)%nat as [|m] eqn:Hm; [done|]. simpl.
    eexists. split; [by rewrite join_prefixes_concat|]. split; [reflexivity|].
    assert (0 < length ctx - 1)%nat as Hpos by lia.
    split; [|split].
    + rewrite <- (filter_all (fun _ => true) (child_ancestors ctx)) at 1 by done.
      rewrite <- (filter_child_ancestors (fun _ => true) ctx Hpos).
      apply filter_ext. intros a. by rewrite andb_true_r.
    + unfold other_child.
      rewrite (filter_child_ancestors (fun a => negb (is_last_sibling f a)) ctx Hpos).
      apply fragment_counts.
    + unfold last_child.
      rewrite (filter_child_ancestors (is_last_sibling f) ctx Hpos).
      apply fragment_counts.
Qed.

Lemma last_index_test (i n : nat) : (i < n)%nat -> (i =? n - 1)%nat = (S i =? n)%nat.
Proof.
  intros Hi. destruct (Nat.eqb_spec i (n - 1)), (Nat.eqb_spec (S i) n); (done || lia).
Qed.

Lemma flatten_children_ok f ctx t rest :
  node_at f ctx = Some t ->
  Forall flatten_ok rest ->
  forall done, tn_children t = done ++ rest ->
    Forall2 (entry_ok f)
      (map (app ctx) (positions_from (length done) rest))
      (flatten_children (length ctx - 1 + 1)
         (map (fun a => fragment (is_last_sibling f a)) (child_ancestors ctx)
          ++ (if (0 <? length ctx - 1)%nat then [fragment (is_last_sibling f ctx)] else []))
         (length (tn_children t)) (length done) rest).
Proof.
  intros Ht. induction 1 as [|c rest Hc _ IH]; intros done Hsplit; [constructor|].
  pose proof (node_at_nonempty _ _ _ Ht) as Hlen.
  assert (tn_children t !! length done = Some c) as Hlook.
  { rewrite Hsplit. by rewrite list_lookup_middle. }
  assert (node_at f (ctx ++ [length done]) = Some c) as Hnode.
  { rewrite (node_at_app f ctx t) by done. simpl. by rewrite Hlook. }
  assert (is_last_sibling f (ctx ++ [length done])
          = (length done =? length (tn_children t) - 1)%nat) as Hlast.
  { rewrite (is_last_sibling_app f ctx t) by done. simpl.
    symmetry. apply last_index_test. apply lookup_lt_Some in Hlook. done. }
  simpl. rewrite map_app. apply Forall2_app.
  - specialize (Hc f (ctx ++ [length done]) Hnode).
    rewrite map_map.
    rewrite (map_ext (fun x => ctx ++ length done :: x)
                     (app (ctx ++ [length done]))).
    2:{ intros x. by rewrite <- app_assoc. }
    rewrite Hlast in Hc. rewrite child_ancestors_snoc in Hc by done.
    rewrite map_app in Hc.
    replace (length (ctx ++ [length done]) - 1)%nat with (length ctx - 1 + 1)%nat in Hc
      by (rewrite length_app; simpl; lia).
    destruct (0 <? length ctx - 1)%nat; exact Hc.
  - specialize (IH (done ++ [c])).
    rewrite length_app in IH. simpl in IH.
    replace (length done + 1)%nat with (S (length done)) in IH by lia.
    apply IH. by rewrite <- app_assoc.
Qed.

Lemma flatten_all_ok t : flatten_ok t.
Proof.
  induction t as [s cs d IH] using tree_induction.
  intros f ctx Ht.
  rewrite flatten_eq, tree_positions_eq.
  cbn [map]. rewrite app_nil_r. constructor.
  - apply (flatten_head_ok f ctx _ Ht).
  - pose proof (flatten_children_ok f ctx _ cs Ht IH [] eq_refl) as Hkids.
    simpl length in Hkids.
    destruct (0 <? length ctx - 1)%nat; [exact Hkids|].
    by rewrite app_nil_r in Hkids.
Qed.

Lemma flatten_roots_ok f rest : forall done,
  f = done ++ rest ->
  Forall2 (entry_ok f) (positions_from (length done) rest)
    (flatten_roots (length f) (length done) rest).
Proof.
  induction rest as [|r rest IH]; intros done Hsplit; [constructor|].
  assert (f !! length done = Some r) as Hlook.
  { rewrite Hsplit. by rewrite list_lookup_middle. }
  assert (node_at f [length done] = Some r) as Hnode by (simpl; by rewrite Hlook).
  simpl. apply Forall2_app.
  - pose proof (flatten_all_ok r f [length done] Hnode) as Hr.
    rewrite child_ancestors_root in Hr.
    change (is_last_sibling f [length done]) with (S (length done) =? length f)%nat in Hr.
    rewrite <- last_index_test in Hr by (by apply lookup_lt_Some in Hlook).
    rewrite (map_ext (app [length done]) (cons (length done))) in Hr by done.
    exact Hr.
  - specialize (IH (done ++ [r])).
    rewrite length_app in IH. simpl in IH.
    replace (length done + 1)%nat with (S (length done)) in IH by lia.
    apply IH. by rewrite <- app_assoc.
Qed.

(** C3: the entries of the flattening are, position by position in
    pre-order, the nodes of the forest; an entry of depth 0 has the empty
    prefix; for any other entry the prefix is made of one fragment per
    proper ancestor that has a parent, outermost first, a bar fragment when
    that ancestor is not the last child of its parent and a three-blank
    fragment when it is (so the bar fragments are as many as the ancestors
    that are not last children), followed by the entry's own connector,
    which is the "last" variant exactly when the entry is the final one
    among its siblings. *)
Theorem C3_prefix_of_every_entry (forest : list SessionTreeNode) :
  Forall2 (entry_ok forest) (forest_positions forest) (flattenTree forest).
Proof. apply (flatten_roots_ok forest forest []). done. Qed.

Example nested_prefixes :
  (map (fun e => (path (fn_session e), fn_prefix e))) <$>
    flat_of [ sess "r" None 0 0; sess "a" (Some "r") 1 0; sess "b" (Some "r") 2 0;
              sess "a1" (Some "a") 3 0; sess "b1" (Some "b") 4 0 ]
  = Some [("r", ""); ("a", "├─ "); ("a1", "│  └─ "); ("b", "└─ "); ("b1", "   └─ ")].
Proof. vm_compute. reflexivity. Qed.

(** ** The filter *)

Lemma starts_with_spec q : forall text,
  starts_with q text = true <-> exists post, text = q +:+ post.
Proof.
  induction q as [|a q IH]; intros text; simpl.
  - split; [eauto|done].
  - destruct text as [|b text].
    + split; [done|]. by intros (post & ?).
    + rewrite andb_true_iff, Ascii.eqb_eq, IH. split.
      * intros (-> & post & ->). eauto.
      * intros (post & [= -> ->]). eauto.
Qed.

Lemma includes_spec text : forall q,
  includes text q = true <-> Substring q text.
Proof.
  unfold Substring. induction text as [|c text IH]; intros q; simpl.
  - rewrite orb_false_r, starts_with_spec. split.
    + intros (post & ->). by exists "", post.
    + intros (pre & post & Heq). destruct pre; [|done]. eauto.
  - rewrite orb_true_iff, starts_with_spec, IH. split.
    + intros [(post & ->)|(pre & post & ->)].
      * by exists "", post.
      * by exists (String c pre), post.
    + intros (pre & post & Heq). destruct pre as [|c' pre].
      * left. eauto.
      * right. simpl in Heq. injection Heq as -> ->. eauto.
Qed.

(** *** Strings of ASCII characters *)

Lemma is_space_lower c : is_space (lower_ascii c) = is_space c.
Proof. by destruct c as [[] [] [] [] [] [] [] []]. Qed.

Lemma all_space_lower s : all_space (ascii_toLowerCase s) = all_space s.
Proof.
  induction s as [|c s IH]; simpl; [done|]. by rewrite is_space_lower, IH.
Qed.

Lemma ascii_trimStart_all_space s : all_space s = true -> ascii_trimStart s = "".
Proof.
  induction s as [|c s IH]; simpl; [done|].
  intros [-> Hs]%andb_true_iff. by apply IH.
Qed.

Lemma ascii_trim_all_space s : all_space s = true -> ascii_trim s = "".
Proof. intros Hs. unfold ascii_trim. by rewrite ascii_trimStart_all_space. Qed.

Lemma is_space_ascii c : is_space c = true -> (nat_of_ascii c <? 128)%nat = true.
Proof. by destruct c as [[] [] [] [] [] [] [] []]. Qed.

Lemma lower_ascii_ascii c :
  (nat_of_ascii (lower_ascii c) <? 128)%nat = (nat_of_ascii c <? 128)%nat.
Proof. by destruct c as [[] [] [] [] [] [] [] []]. Qed.

Lemma all_space_is_ascii s : all_space s = true -> is_ascii s = true.
Proof.
  induction s as [|c s IH]; simpl; [done|].
  intros [Hc Hs]%andb_true_iff. by rewrite is_space_ascii, IH.
Qed.

Lemma is_ascii_lower s : is_ascii (ascii_toLowerCase s) = is_ascii s.
Proof.
  induction s as [|c s IH]; simpl; [done|]. by rewrite lower_ascii_ascii, IH.
Qed.

Lemma is_ascii_app a b : is_ascii (a +:+ b) = is_ascii a && is_ascii b.
Proof. induction a as [|c a IH]; simpl; [done|]. by rewrite IH, andb_assoc. Qed.

(** *** The filter over any string methods *)

Section FilterFacts.
Context `{StringMethods}.

(** The query the filter works with, for a value made of ASCII
    characters. *)
Lemma query_of_ascii value :
  is_ascii value = true ->
  trim (toLowerCase value) = ascii_trim (ascii_toLowerCase value).
Proof.
  intros Hv. rewrite (toLowerCase_ascii value Hv).
  apply trim_ascii. by rewrite is_ascii_lower.
Qed.

Lemma filter_nodes_empty_query value flat :
  trim (toLowerCase value) = "" -> filter_nodes value flat = flat.
Proof. intros Hq. unfold filter_nodes. by rewrite Hq. Qed.

Lemma filter_nodes_whitespace value flat :
  trim value = "" -> filter_nodes value flat = flat.
Proof.
  intros Hv. apply filter_nodes_empty_query.
  by rewrite (toLowerCase_blank value Hv).
Qed.

Lemma filter_nodes_blank value flat :
  all_space value = true -> filter_nodes value flat = flat.
Proof.
  intros Hv. apply filter_nodes_empty_query.
  rewrite query_of_ascii by (by apply all_space_is_ascii).
  apply ascii_trim_all_space. by rewrite all_space_lower.
Qed.

Lemma filter_nodes_as_filter value flat :
  filter_nodes value flat
  = List.filter (fun node => includes (match_text node) (trim (toLowerCase value))) flat.
Proof.
  unfold filter_nodes. destruct (String.eqb_spec (trim (toLowerCase value)) "") as [->|_].
  - symmetry. apply filter_all. intros e _. apply includes_spec. by exists "", (match_text e).
  - done.
Qed.
End FilterFacts.

Lemma filter_sublist {A} (P : A -> bool) l : sublist (List.filter P l) l.
Proof.
  induction l as [|x l IH]; simpl; [constructor|].
  destruct (P x); by constructor.
Qed.

Lemma filter_filter_same {A} (P : A -> bool) l :
  List.filter P (List.filter P l) = List.filter P l.
Proof.
  induction l as [|x l IH]; simpl; [done|].
  destruct (P x) eqn:E; simpl; rewrite ?E, IH; done.
Qed.

(** Rewrites the string methods applied to strings of ASCII characters
    that are given in full. *)
Ltac ascii_methods :=
  repeat first [ rewrite toLowerCase_ascii by reflexivity
               | rewrite trim_ascii by reflexivity ].

(** Filtering the flattening of [demo] by a piece of the path ["/c"],
    in capitals and with blanks around, keeps that root alone, prefix
    unchanged. *)
Example demo_filtered :
  (fun l => map (fun e => (path (fn_session e), fn_prefix e)) (filter_nodes " /C " l))
    <$> flat_of demo
  = Some [("/c", "")].
Proof. vm_compute. reflexivity. Qed.

(** C4, as stated, fails, whatever the string methods do beyond ASCII.
    The query is trimmed before matching: the value ["a "] keeps an entry
    whose fields hold no blank at all.  And the fields are joined with
    single blanks: ["ab"] does not match a name ["a"] followed by a
    working directory ["b"]. *)
Lemma C4_query_trimmed_fields_spaced :
  (forall M : StringMethods,
     @filter_nodes M "a " [entry_path_only] = [entry_path_only] /\
     @stated_filter M "a " [entry_path_only] = []) /\
  (forall M : StringMethods,
     @filter_nodes M "ab" [entry_named] = [] /\
     @stated_filter M "ab" [entry_named] = [entry_named]).
Proof.
  split; intros M; split;
    unfold filter_nodes, stated_filter, match_text, stated_target;
    cbn [List.filter fn_session entry_path_only entry_named entry_of
         firstMessage name cwd path filter_Boolean join default];
    ascii_methods; vm_compute; reflexivity.
Qed.

(** C4 (amended): for every flattened list and value of the search field,
    and whatever the runtime's [toLowerCase] and [trim] do, the filter
    returns exactly the subsequence of the entries, themselves unchanged
    and in their original order, whose match text (the non-empty ones
    among first message, name, working directory and path, joined by
    single blanks and lower-cased) contains the lower-cased and trimmed
    value as a substring; a value that [trim] empties, so the empty value
    and a value made of white space, ASCII or not, returns the full
    list. *)
Theorem C4_filter_is_matching_subsequence (M : StringMethods)
    (value : string) (flat : list FlatNode) :
  (exists keep : FlatNode -> bool,
     (forall e, keep e = true <->
        Substring (trim (toLowerCase value))
          (toLowerCase
             (join " "
                (filter_Boolean
                   [ Some (firstMessage (fn_session e)); name (fn_session e);
                     Some (cwd (fn_session e)); Some (path (fn_session e)) ])))) /\
     filter_nodes value flat = List.filter keep flat) /\
  sublist (filter_nodes value flat) flat /\
  (trim value = "" -> filter_nodes value flat = flat) /\
  (all_space value = true -> filter_nodes value flat = flat).
Proof.
  split; [|split; [|split]].
  - exists (fun e => includes (match_text e) (trim (toLowerCase value))). split.
    + intros e. apply includes_spec.
    + apply filter_nodes_as_filter.
  - rewrite filter_nodes_as_filter. apply filter_sublist.
  - apply filter_nodes_whitespace.
  - apply filter_nodes_blank.
Qed.

(** ** The selector *)

Section SelectorFacts.
Context `{StringMethods} `{Toolkit}.

Lemma ensureVisible_fields (st : Selector) :
  flatNodes (ensureVisible st) = flatNodes st /\
  filteredNodes (ensureVisible st) = filteredNodes st /\
  selectedIndex (ensureVisible st) = selectedIndex st /\
  maxVisibleLines (ensureVisible st) = maxVisibleLines st /\
  searchInput (ensureVisible st) = searchInput st /\
  searchMode (ensureVisible st) = searchMode st.
Proof.
  unfold ensureVisible.
  destruct (selectedIndex st <? scrollOffset st)%Z; [done|].
  by destruct (selectedIndex st >=? scrollOffset st + maxVisibleLines st)%Z.
Qed.

(** After [ensureVisible] the selection is inside the window, provided the
    window shows at least one line; the offset moves only when it has to,
    and then no further than needed. *)
Lemma ensureVisible_window (st : Selector) :
  (1 <= maxVisibleLines st)%Z ->
  in_window (ensureVisible st) /\
  (in_window st -> scrollOffset (ensureVisible st) = scrollOffset st) /\
  (forall o, (o <= selectedIndex st <= o + maxVisibleLines st - 1)%Z ->
     (Z.abs (scrollOffset (ensureVisible st) - scrollOffset st)
      <= Z.abs (o - scrollOffset st))%Z).
Proof.
  intros Hmax. unfold in_window, ensureVisible.
  destruct (Z.ltb_spec (selectedIndex st) (scrollOffset st)); simpl.
  - split; [lia|]. split; intros; lia.
  - destruct (Z.geb_spec (selectedIndex st) (scrollOffset st + maxVisibleLines st)); simpl.
    + split; [lia|]. split; intros; lia.
    + split; [lia|]. split; intros; lia.
Qed.

Lemma applyFilter_filtered (st : Selector) :
  filteredNodes (applyFilter st) = filter_nodes (getValue (searchInput st)) (flatNodes st)
  /\ flatNodes (applyFilter st) = flatNodes st
  /\ searchInput (applyFilter st) = searchInput st.
Proof.
  unfold applyFilter.
  match goal with |- context [ensureVisible ?s] =>
    destruct (ensureVisible_fields s) as (-> & -> & _ & _ & -> & _) end.
  done.
Qed.

(** Re-applying the filter leaves the filtered list as it is. *)
Lemma applyFilter_twice (st : Selector) :
  filteredNodes (applyFilter (applyFilter st)) = filteredNodes (applyFilter st).
Proof.
  destruct (applyFilter_filtered (applyFilter st)) as (-> & _ & _).
  destruct (applyFilter_filtered st) as (-> & -> & ->). done.
Qed.

(** C6: in browsing mode, from a state whose selection is inside the
    visible window, an up or down key leaves the selection inside the
    window; the scroll offset is unchanged when the new selection is
    visible from the old offset, and otherwise moves to the offset nearest
    to the old one from which the selection is visible. *)
Theorem C6_window_follows_selection (st : Selector) (data : string) :
  searchMode st = false ->
  is_up data = true \/ is_down data = true ->
  in_window st ->
  let st' := fst (handleInput st data) in
  in_window st' /\
  maxVisibleLines st' = maxVisibleLines st /\
  ((scrollOffset st <= selectedIndex st' <= scrollOffset st + maxVisibleLines st - 1)%Z ->
     scrollOffset st' = scrollOffset st) /\
  (forall o, (o <= selectedIndex st' <= o + maxVisibleLines st - 1)%Z ->
     (Z.abs (scrollOffset st' - scrollOffset st) <= Z.abs (o - scrollOffset st))%Z).
Proof.
  intros Hmode Hkey Hwin. unfold in_window in Hwin.
  assert (1 <= maxVisibleLines st)%Z as Hmax by lia.
  assert (forall sel,
    let st' := move_to st sel in
    in_window st' /\ maxVisibleLines st' = maxVisibleLines st /\
    ((scrollOffset st <= selectedIndex st' <= scrollOffset st + maxVisibleLines st - 1)%Z ->
       scrollOffset st' = scrollOffset st) /\
    (forall o, (o <= selectedIndex st' <= o + maxVisibleLines st - 1)%Z ->
       (Z.abs (scrollOffset st' - scrollOffset st) <= Z.abs (o - scrollOffset st))%Z))
    as Hmove.
  { intros sel. unfold move_to.
    pose proof (ensureVisible_window (set_selection st sel (scrollOffset st)) Hmax)
      as (Hin & Hsame & Hmin).
    destruct (ensureVisible_fields (set_selection st sel (scrollOffset st)))
      as (_ & _ & Hsel & Hm & _ & _).
    cbv zeta. rewrite Hsel, Hm. simpl in *.
    split; [exact Hin|]. split; [done|]. split; [|exact Hmin].
    intros Hvis. apply Hsame. unfold in_window. simpl. exact Hvis. }
  assert (in_window st /\ maxVisibleLines st = maxVisibleLines st /\
    ((scrollOffset st <= selectedIndex st <= scrollOffset st + maxVisibleLines st - 1)%Z ->
       scrollOffset st = scrollOffset st) /\
    (forall o, (o <= selectedIndex st <= o + maxVisibleLines st - 1)%Z ->
       (Z.abs (scrollOffset st - scrollOffset st) <= Z.abs (o - scrollOffset st))%Z))
    as Hstay.
  { split; [exact Hwin|]. split; [done|]. split; [done|]. intros. lia. }
  unfold handleInput. rewrite Hmode. fold (is_up data). fold (is_down data).
  destruct (is_up data).
  - destruct (selectedIndex st >? 0)%Z; [apply Hmove|exact Hstay].
  - destruct Hkey as [? | Hdown]; [done|]. rewrite Hdown.
    destruct (selectedIndex st <? _)%Z; [apply Hmove|exact Hstay].
Qed.
End SelectorFacts.

Lemma C6_window_follows_selection_witness :
  let st' := fst (handleInput small_selector "j") in
  in_window st' /\
  maxVisibleLines st' = maxVisibleLines small_selector /\
  ((scrollOffset small_selector <= selectedIndex st'
    <= scrollOffset small_selector + maxVisibleLines small_selector - 1)%Z ->
     scrollOffset st' = scrollOffset small_selector) /\
  (forall o, (o <= selectedIndex st' <= o + maxVisibleLines small_selector - 1)%Z ->
     (Z.abs (scrollOffset st' - scrollOffset small_selector)
      <= Z.abs (o - scrollOffset small_selector))%Z).
Proof.
  apply (C6_window_follows_selection small_selector "j").
  - reflexivity.
  - right. reflexivity.
  - unfold in_window. simpl. lia.
Defined.

Example down_scrolls_by_one :
  (fun st => (selectedIndex st, scrollOffset st)) (fst (handleInput small_selector "j"))
  = (2%Z, 1%Z).
Proof. vm_compute. reflexivity. Qed.

(** C9: filtering the filtered list again with the same value changes
    nothing, and the empty value keeps the whole list, whatever the string methods; in
    the selector, applying the filter a second time leaves the filtered
    list as it is. *)
Theorem C9_filter_idempotent (M : StringMethods) (value : string) (flat : list FlatNode) :
  filter_nodes value (filter_nodes value flat) = filter_nodes value flat /\
  filter_nodes "" flat = flat /\
  (forall (T : Toolkit) (st : @Selector T),
     filteredNodes (applyFilter st) = filter_nodes (getValue (searchInput st)) (flatNodes st) /\
     filteredNodes (applyFilter (applyFilter st)) = filteredNodes (applyFilter st)).
Proof.
  split; [|split].
  - rewrite !filter_nodes_as_filter. apply filter_filter_same.
  - by apply filter_nodes_blank.
  - intros T st. split; [apply applyFilter_filtered|apply applyFilter_twice].
Qed.

(** ** Range of the selected index *)

Section SelectionRange.
Context `{StringMethods} `{Toolkit}.

Lemma findIndex_from_range {A} (f : A -> bool) (l : list A) : forall i,
  let idx := findIndex_from f i l in
  idx = (-1)%Z \/ (i <= idx < i + Z.of_nat (length l))%Z.
Proof.
  induction l as [|x l IH]; intros i; simpl; [by left|].
  destruct (f x); [right; lia|].
  destruct (IH (i + 1)%Z) as [->|?]; [by left|right; lia].
Qed.

(** The constructor selects an existing entry when there is one. *)
Lemma new_selector_in_range flat maxVisible current :
  flat <> [] -> selection_in_range (new_selector flat maxVisible current).
Proof.
  intros Hne. unfold new_selector, selection_in_range.
  assert (0 < Z.of_nat (length flat))%Z by (destruct flat; [done|simpl; lia]).
  destruct current as [p|]; [|simpl; lia].
  destruct (p =? "")%string; [simpl; lia|].
  destruct (Z.geb_spec (findIndex (fun n => (path (fn_session n) =? p)%string) flat) 0);
    [|simpl; lia].
  match goal with |- context [ensureVisible ?s] =>
    destruct (ensureVisible_fields s) as (_ & -> & -> & _) end.
  simpl. unfold findIndex in *.
  destruct (findIndex_from_range (fun n => (path (fn_session n) =? p)%string) flat 0); lia.
Qed.

(** In browsing mode a key keeps an in-range selection in range. *)
Lemma browsing_keeps_selection_in_range (st : Selector) (data : string) :
  searchMode st = false -> (0 <= maxVisibleLines st)%Z ->
  selection_in_range st ->
  filteredNodes (fst (handleInput st data)) = filteredNodes st /\
  selection_in_range (fst (handleInput st data)).
Proof.
  intros Hmode Hmax Hsel. unfold selection_in_range in *.
  assert (forall sel, (0 <= sel < Z.of_nat (length (filteredNodes st)))%Z ->
    filteredNodes (move_to st sel) = filteredNodes st /\
    (0 <= selectedIndex (move_to st sel)
     < Z.of_nat (length (filteredNodes (move_to st sel))))%Z) as Hmove.
  { intros sel Hs. unfold move_to.
    match goal with |- context [ensureVisible ?s] =>
      destruct (ensureVisible_fields s) as (_ & -> & -> & _) end.
    simpl. split; [done|lia]. }
  unfold handleInput. rewrite Hmode.
  destruct (matchesKey data Key_up || matchesKey data "k").
  { destruct (Z.gtb_spec (selectedIndex st) 0); simpl fst;
      [apply Hmove; lia|split; [done|lia]]. }
  destruct (matchesKey data Key_down || matchesKey data "j").
  { destruct (Z.ltb_spec (selectedIndex st) (Z.of_nat (length (filteredNodes st)) - 1));
      simpl fst; [apply Hmove; lia|split; [done|lia]]. }
  destruct (matchesKey data Key_pageUp); [simpl fst; apply Hmove; lia|].
  destruct (matchesKey data Key_pageDown); [simpl fst; apply Hmove; lia|].
  destruct (matchesKey data Key_home); [simpl fst; apply Hmove; lia|].
  destruct (matchesKey data Key_end); [simpl fst; apply Hmove; lia|].
  destruct (matchesKey data Key_enter).
  { destruct (at_index _ _); simpl fst; (split; [done|lia]). }
  destruct (matchesKey data Key_escape); [simpl fst; split; [done|lia]|].
  destruct (data =? "/")%string; simpl fst; (split; [done|simpl; lia]).
Qed.

(** Re-applying the filter brings a non-negative selection into range. *)
Lemma applyFilter_in_range (st : Selector) :
  (0 <= selectedIndex st)%Z -> filteredNodes (applyFilter st) <> [] ->
  selection_in_range (applyFilter st).
Proof.
  intros Hsel Hne. unfold selection_in_range. revert Hne. unfold applyFilter.
  match goal with |- context [ensureVisible ?s] =>
    destruct (ensureVisible_fields s) as (_ & -> & -> & _) end.
  simpl. intros Hne.
  destruct (filter_nodes _ _); [done|]. simpl length. lia.
Qed.
End SelectionRange.

(** C10 (fails on the code): after the keys of [keys_to_negative_index]
    the filtered list holds the one session again, yet the selected index
    is [-1], and the commit key then finds no entry to report.  The [end]
    key on the empty filtered list stores [length - 1 = -1], and the clamp
    of [applyFilter], which only bounds the index from above, keeps it.
    This is so whatever the string methods do beyond ASCII. *)
Theorem C10_selection_negative_on_nonempty_list (M : StringMethods) :
  let st := handleInputs one_session_selector keys_to_negative_index in
  filteredNodes st = [ entry_of (sess "/a" None 1 1) ] /\
  searchMode st = false /\
  selectedIndex st = (-1)%Z /\
  snd (handleInput st "enter") = None.
Proof.
  assert (filter_nodes "z" [ entry_of (sess "/a" None 1 1) ] = []) as Hz.
  { unfold filter_nodes, match_text.
    cbn [List.filter fn_session entry_of sess firstMessage name cwd path
         filter_Boolean join String.eqb Ascii.eqb].
    ascii_methods. vm_compute. reflexivity. }
  assert (filter_nodes "" [ entry_of (sess "/a" None 1 1) ]
          = [ entry_of (sess "/a" None 1 1) ]) as He
    by (by apply filter_nodes_blank).
  cbv zeta. unfold handleInputs, keys_to_negative_index, one_session_selector.
  cbn [foldl].
  set (e := entry_of (sess "/a" None 1 1)) in *.
  (* "/" opens the search *)
  set (s1 := (handleInput (new_selector [e] 5 None) "/").1).
  assert (s1 = mkSelector [e] [e] 0 0 5 "" true None) as Hs1 by reflexivity.
  clearbody s1. subst s1.
  (* "z" matches nothing *)
  set (s2 := (handleInput _ "z").1).
  assert (s2 = mkSelector [e] [] 0 0 5 "z" true None) as Hs2.
  { subst s2. unfold handleInput. cbn -[applyFilter].
    unfold applyFilter, set_search. cbn [getValue PlainToolkit searchInput flatNodes].
    rewrite Hz. reflexivity. }
  clearbody s2. subst s2.
  (* enter keeps the filter *)
  set (s3 := (handleInput _ "enter").1).
  assert (s3 = mkSelector [e] [] 0 0 5 "z" false None) as Hs3 by reflexivity.
  clearbody s3. subst s3.
  (* end on the empty list *)
  set (s4 := (handleInput _ "end").1).
  assert (s4 = mkSelector [e] [] (-1) (-1) 5 "z" false None) as Hs4 by reflexivity.
  clearbody s4. subst s4.
  set (s5 := (handleInput _ "/").1).
  assert (s5 = mkSelector [e] [] (-1) (-1) 5 "z" true None) as Hs5 by reflexivity.
  clearbody s5. subst s5.
  (* escape re-applies the filter on the empty value *)
  set (s6 := (handleInput _ "escape").1).
  assert (s6 = mkSelector [e] [e] (-1) (-1) 5 "" false None) as Hs6.
  { subst s6. unfold handleInput. cbn -[applyFilter].
    unfold applyFilter, set_search. cbn [getValue PlainToolkit searchInput flatNodes].
    rewrite He. reflexivity. }
  clearbody s6. subst s6.
  repeat split; reflexivity.
Qed.

(** ** Reading the headers *)

Section HeaderFacts.
Variable JSON_parse : string -> option JValue.

Lemma settled_stays (events : list StreamEvent) : forall st r,
  promise st = Resolved r ->
  promise (foldl (deliver JSON_parse) st events) = Resolved r.
Proof.
  induction events as [|ev events IH]; intros st r Hst; [done|].
  simpl. apply IH. destruct ev; simpl; try done.
  - destruct (lineArmed st); simpl; [by rewrite Hst|done].
  - destruct (rlErrorArmed st); simpl; [by rewrite Hst|done].
  - destruct (streamErrorArmed st); simpl; [by rewrite Hst|done].
Qed.

(** The promise is never rejected, whatever the stream delivers. *)
Lemma header_never_rejected (events : list StreamEvent) :
  getSessionHeader_on JSON_parse events <> Rejected.
Proof.
  unfold getSessionHeader_on.
  assert (forall st, promise st <> Rejected ->
    promise (foldl (deliver JSON_parse) st events) <> Rejected) as Hgen.
  { induction events as [|ev events IH]; intros st Hst; [done|].
    simpl. apply IH. destruct ev; simpl; try done.
    - destruct (lineArmed st); simpl; [|done]. by destruct (promise st).
    - destruct (rlErrorArmed st); simpl; [|done]. by destruct (promise st).
    - destruct (streamErrorArmed st); simpl; [|done]. by destruct (promise st). }
  by apply Hgen.
Qed.

(** A first line, whatever it holds, resolves the promise: with the
    parent reference of a session header, and with [null] when the line
    does not parse or is not a session header. *)
Lemma header_first_line (line : string) (events : list StreamEvent) :
  getSessionHeader_on JSON_parse (EvLine line :: events)
  = Resolved (on_line JSON_parse line).
Proof. unfold getSessionHeader_on. simpl. by apply settled_stays. Qed.

Lemma on_line_unparsable (line : string) :
  JSON_parse line = None -> on_line JSON_parse line = NoHeader.
Proof. unfold on_line, try_header. by intros ->. Qed.

Lemma on_line_not_session (line : string) (header : JValue) :
  JSON_parse line = Some header ->
  get_property header "type" <> inr (Some (JStr "session")) ->
  on_line JSON_parse line = NoHeader.
Proof.
  unfold on_line, try_header. intros -> Hty.
  destruct (get_property header "type") as [e|[[| | |s| |]|]]; try done.
  destruct (decide (s = "session")) as [->|Hne]; [done|].
  destruct s as [|c0 s]; [done|].
  repeat (match goal with
          | |- context [match ?x with EmptyString => _ | String _ _ => _ end] => destruct x
          | |- context [match ?c with Ascii _ _ _ _ _ _ _ _ => _ end] => destruct c
          | |- context [if ?b then _ else _] => destruct b
          end; try done).
Qed.

Lemma on_line_Header_iff (line : string) (ps : option JValue) :
  on_line JSON_parse line = Header ps
  <-> exists fields,
        JSON_parse line = Some (JObj fields) /\
        lookup_field "type" fields = Some (JStr "session") /\
        lookup_field "parentSession" fields = ps.
Proof.
  unfold on_line, try_header. split.
  - destruct (JSON_parse line) as [[| | | | |fields]|]; simpl; try done.
    destruct (lookup_field "type" fields) as [[| | |s| |]|] eqn:Hty; try done.
    destruct (decide (s = "session")) as [->|Hne].
    + intros [= <-]. by exists fields.
    + intros Hres. exfalso. revert Hres.
      destruct s as [|c0 s]; [done|].
      repeat (match goal with
              | |- context [match ?x with EmptyString => _ | String _ _ => _ end] => destruct x
              | |- context [match ?c with Ascii _ _ _ _ _ _ _ _ => _ end] => destruct c
              | |- context [if ?b then _ else _] => destruct b
              end; try done).
  - intros (fields & -> & Hty & <-). simpl. by rewrite Hty.
Qed.

Lemma header_error_first (events : list StreamEvent) :
  getSessionHeader_on JSON_parse (EvStreamError :: events) = Resolved NoHeader /\
  getSessionHeader_on JSON_parse (EvRlError :: events) = Resolved NoHeader.
Proof. unfold getSessionHeader_on. simpl. split; by apply settled_stays. Qed.

(** A record with a first line, and a record that cannot be read, both
    resolve the promise. *)
Lemma header_of_file (fs : string -> SessionFile) (p : string) :
  match fs p with
  | Unreadable => getSessionHeader JSON_parse fs p = Resolved NoHeader
  | Lines (line :: _) => getSessionHeader JSON_parse fs p = Resolved (on_line JSON_parse line)
  | Lines [] => getSessionHeader JSON_parse fs p = Pending
  end.
Proof.
  unfold getSessionHeader. destruct (fs p) as [|[|line ls]]; simpl.
  - apply header_error_first.
  - done.
  - apply header_first_line.
Qed.
End HeaderFacts.

(** C7 (fails on the code): for a record without any line (a zero-length
    file) no listener of [getSessionHeader] ever fires, since the line
    reader emits ['close'] only: the promise is never settled, and
    [loadSessionsWithParents] on a list holding that session neither
    reports progress nor returns. *)
Theorem C7_empty_record_never_settles
    (JSON_parse : string -> option JValue) (s : Session) :
  getSessionHeader JSON_parse (fun _ => Lines []) (path s) = Pending /\
  loadSessionsWithParents JSON_parse (fun _ => Lines []) [s] = ([], Pending).
Proof. split; reflexivity. Qed.

Section Progress.
Variable JSON_parse : string -> option JValue.
Variable fs : string -> SessionFile.

Lemma load_loop_calls (todo : list Session) : forall total loaded results,
  (forall s, In s todo -> exists r, getSessionHeader JSON_parse fs (path s) = Resolved r) ->
  fst (load_loop JSON_parse fs total loaded results todo)
    = map (fun k => (k, total)) (seq (S loaded) (length todo)) /\
  exists out, snd (load_loop JSON_parse fs total loaded results todo) = Resolved out
              /\ length out = (length results + length todo)%nat.
Proof.
  induction todo as [|s todo IH]; intros total loaded results Hall; simpl.
  - split; [done|]. exists results. split; [done|lia].
  - destruct (Hall s) as (r & ->); [by left|].
    destruct (IH total (S loaded) (results ++ [with_parent s r])) as (Hcalls & out & Hout & Hlen).
    { intros s' Hs'. apply Hall. by right. }
    destruct (load_loop _ _ _ _ _ _) as [calls o]. simpl in *.
    split; [by rewrite Hcalls|].
    exists out. split; [done|]. rewrite Hlen, length_app. simpl. lia.
Qed.

End Progress.

Lemma seq_strictly_increasing (start len : nat) : strictly_increasing (seq start len).
Proof.
  intros i j a b Ha Hb Hij.
  apply lookup_seq in Ha as [-> _]. apply lookup_seq in Hb as [-> _]. lia.
Qed.

Section ProgressStops.
Variable JSON_parse : string -> option JValue.
Variable fs : string -> SessionFile.

(** The loop stops at the first record without a line: the sessions before
    it are reported, and the promise stays pending. *)
Lemma load_loop_stops (before : list Session) (s : Session) (after : list Session) :
  forall total loaded results,
  (forall s', In s' before -> fs (path s') <> Lines []) ->
  fs (path s) = Lines [] ->
  load_loop JSON_parse fs total loaded results (before ++ s :: after)
  = (map (fun k => (k, total)) (seq (S loaded) (length before)), Pending).
Proof.
  induction before as [|s0 before IH]; intros total loaded results Hbefore Hempty; simpl.
  - pose proof (header_of_file JSON_parse fs (path s)) as Hfile.
    rewrite Hempty in Hfile. by rewrite Hfile.
  - pose proof (header_of_file JSON_parse fs (path s0)) as Hfile.
    assert (fs (path s0) <> Lines []) as Hs0 by (apply Hbefore; by left).
    assert (exists r, getSessionHeader JSON_parse fs (path s0) = Resolved r) as (r & ->).
    { destruct (fs (path s0)) as [|[|line ls]]; [eauto|done|eauto]. }
    rewrite IH; [done| |done]. intros s' Hs'. apply Hbefore. by right.
Qed.
End ProgressStops.

(** C8 (fails on the code): when the record of a session is a zero-length
    file, the records before it having a line or being unreadable,
    [loadSessionsWithParents] on a list of [n] sessions reports
    [(1, n), ..., (k, n)] for the [k] sessions before that one and then
    waits for ever: it never returns, and no notification has its loaded
    count equal to the total; the last one, if any, has [k < n].  The
    cause is the header read that never settles on a record without a
    line. *)
Theorem C8_progress_stops_before_total
    (JSON_parse : string -> option JValue) (fs : string -> SessionFile)
    (before : list Session) (s : Session) (after : list Session) :
  (forall s', In s' before -> fs (path s') <> Lines []) ->
  fs (path s) = Lines [] ->
  let sessions := before ++ s :: after in
  let n := length sessions in
  let calls := fst (loadSessionsWithParents JSON_parse fs sessions) in
  sessions <> [] /\
  calls = map (fun k => (k, n)) (seq 1 (length before)) /\
  snd (loadSessionsWithParents JSON_parse fs sessions) = Pending /\
  (forall loaded total, In (loaded, total) calls -> (loaded < total)%nat) /\
  last calls <> Some (n, n).
Proof.
  intros Hbefore Hempty. cbv zeta. unfold loadSessionsWithParents.
  rewrite (load_loop_stops JSON_parse fs before s after _ 0 [] Hbefore Hempty).
  simpl fst. simpl snd.
  assert (forall loaded total,
            In (loaded, total)
               (map (fun k => (k, length (before ++ s :: after))) (seq 1 (length before))) ->
            (loaded < total)%nat) as Hless.
  { intros loaded total Hin. apply in_map_iff in Hin as (k & [= <- <-] & Hk).
    apply in_seq in Hk. rewrite length_app. simpl. lia. }
  split; [by destruct before|]. split; [done|]. split; [done|]. split; [exact Hless|].
  intros Hlast. apply last_Some in Hlast as (l' & Hl').
  specialize (Hless (length (before ++ s :: after)) (length (before ++ s :: after))).
  rewrite Hl' in Hless. specialize (Hless (in_elt _ _ _)). lia.
Qed.

Lemma C8_progress_stops_before_total_witness :
  let calls := fst (loadSessionsWithParents parse_nothing middle_empty_store demo) in
  demo <> [] /\
  calls = [(1, 3)]%nat /\
  snd (loadSessionsWithParents parse_nothing middle_empty_store demo) = Pending /\
  (forall loaded total, In (loaded, total) calls -> (loaded < total)%nat) /\
  last calls <> Some (3, 3)%nat.
Proof.
  apply (C8_progress_stops_before_total parse_nothing middle_empty_store
           [sess "/a" None 10 10] (sess "/b" (Some "/a") 11 11) [sess "/c" None 5 20]).
  - intros s' [<-|[]]. discriminate.
  - reflexivity.
Defined.

Example demo_progress :
  fst (loadSessionsWithParents parse_nothing one_line_store demo)
  = [(1, 3); (2, 3); (3, 3)]%nat.
Proof. vm_compute. reflexivity. Qed.

(** * Further properties *)

(** ** Shape of the forest *)

Lemma buildNode_shape (cO : gmap string (list Session)) fuel s d t :
  buildNode fuel cO s d = Some t ->
  tn_session t = s /\ tn_depth t = d /\
  map tn_session (tn_children t) = sorted_children cO s /\
  Forall (fun c => exists fuel' s', buildNode fuel' cO s' (d + 1) = Some c) (tn_children t).
Proof.
  destruct fuel as [|fuel]; [done|].
  intros (kids & Hkids & ->)%buildNode_unfold. simpl.
  split; [done|]. split; [done|]. split.
  - by apply built_sessions in Hkids as [? _].
  - clear -Hkids. induction Hkids as [|c k l ks Hck _ IH]; constructor; eauto.
Qed.

Lemma node_in_built_depth (cO : gmap string (list Session)) t f :
  node_in t f -> forall d,
  Forall (fun r => exists fuel s, buildNode fuel cO s d = Some r) f ->
  exists d' fuel s, (d <= d')%nat /\ buildNode fuel cO s d' = Some t.
Proof.
  induction 1 as [t f Hin|t p f Hin _ IH]; intros d Hf; rewrite Forall_forall in Hf.
  - destruct (Hf t) as (fuel & s & Ht); [by apply list_elem_of_In|].
    exists d, fuel, s. split; [lia|done].
  - destruct (Hf p) as (fuel & s & Hp); [by apply list_elem_of_In|].
    apply buildNode_shape in Hp as (_ & _ & _ & Hkids).
    destruct (IH (d + 1)%nat Hkids) as (d' & fuel' & s' & Hle & Ht).
    exists d', fuel', s'. split; [lia|done].
Qed.

Lemma forest_roots_built fuel sessions forest :
  buildSessionTree_fuel fuel sessions = Some forest ->
  map tn_session forest = sort_by cmp_modified_desc (roots (fill_buckets sessions)) /\
  Forall (fun r => exists fuel s,
            buildNode fuel (childrenOf (fill_buckets sessions)) s 0 = Some r) forest.
Proof.
  unfold buildSessionTree_fuel. intros Hf%mapM_Some. split.
  - by apply built_sessions in Hf as [? _].
  - clear -Hf. induction Hf as [|s t l ts Hst _ IH]; constructor; eauto.
Qed.

Lemma flatten_roots_head t rs : forall n i,
  In t rs ->
  exists isLast,
    In (mkFlat (tn_session t) 0 "" isLast (0 <? length (tn_children t))%nat)
       (flatten_roots n i rs).
Proof.
  induction rs as [|r rs IH]; intros n i Hin; [done|].
  simpl. destruct Hin as [->|Hin].
  - exists (i =? n - 1)%nat. apply in_or_app. left. rewrite flatten_eq. by left.
  - destruct (IH n (S i) Hin) as (il & Hil). exists il. apply in_or_app. by right.
Qed.

(** X1: a session whose parent reference is absent, empty or names no
    path of the list becomes a root: the roots of the forest are exactly
    these sessions, and each has an entry of depth 0 with the empty prefix
    in the flattening. *)
Theorem unresolved_parent_gives_root
    (fuel : nat) (sessions : list Session) (forest : list SessionTreeNode) :
  buildSessionTree_fuel fuel sessions = Some forest ->
  map tn_session forest
    ≡ₚ List.filter (fun s => negb (has_parent (index_by_path sessions) s)) sessions /\
  (forall s, In s sessions -> has_parent (index_by_path sessions) s = false ->
     exists e, In e (flattenTree forest) /\
               fn_session e = s /\ fn_depth e = 0%nat /\ fn_prefix e = "").
Proof.
  intros Hbuild. destruct (forest_roots_built _ _ _ Hbuild) as [Hroots _].
  assert (map tn_session forest
    ≡ₚ List.filter (fun s => negb (has_parent (index_by_path sessions) s)) sessions)
    as Hperm by (by rewrite Hroots, sort_by_perm, fill_buckets_roots).
  split; [exact Hperm|].
  intros s Hs Hpar.
  assert (In s (map tn_session forest)) as Hin.
  { apply list_elem_of_In. rewrite Hperm. apply list_elem_of_In, filter_In.
    by rewrite Hpar. }
  apply in_map_iff in Hin as (t & <- & Ht).
  destruct (flatten_roots_head t forest (length forest) 0 Ht) as (il & Hil).
  eexists. split; [exact Hil|]. done.
Qed.

Lemma unresolved_parent_gives_root_witness :
  map tn_session demo_forest
    ≡ₚ List.filter (fun s => negb (has_parent (index_by_path demo) s)) demo /\
  (forall s, In s demo -> has_parent (index_by_path demo) s = false ->
     exists e, In e (flattenTree demo_forest) /\
               fn_session e = s /\ fn_depth e = 0%nat /\ fn_prefix e = "").
Proof.
  apply (unresolved_parent_gives_root 3 demo demo_forest).
  vm_compute. reflexivity.
Defined.

(** X2: in the forest every child names its parent: the parent reference
    of a child is the non-empty path of the node above it, which is a path
    of the list; roots have depth 0 and a child is one level deeper than
    its parent. *)
Theorem children_name_their_parent
    (fuel : nat) (sessions : list Session) (forest : list SessionTreeNode) :
  buildSessionTree_fuel fuel sessions = Some forest ->
  (forall r, In r forest -> tn_depth r = 0%nat) /\
  (forall t c, node_in t forest -> In c (tn_children t) ->
     parentSession (tn_session c) = Some (path (tn_session t)) /\
     path (tn_session t) <> "" /\
     In (tn_session c) sessions /\
     tn_depth c = S (tn_depth t)).
Proof.
  intros Hbuild. destruct (forest_roots_built _ _ _ Hbuild) as [_ Hbuilt].
  split.
  - intros r Hr. rewrite Forall_forall in Hbuilt.
    destruct (Hbuilt r) as (f & s & Hrs); [by apply list_elem_of_In|].
    by apply buildNode_shape in Hrs as (_ & ? & _).
  - intros t c Ht Hc.
    destruct (node_in_built_depth _ _ _ Ht 0%nat Hbuilt) as (d & f & s & _ & Hts).
    apply buildNode_shape in Hts as (Hs & Hd & Hkids & Hbk).
    assert (In (tn_session c) (sorted_children (childrenOf (fill_buckets sessions)) s))
      as Hin by (rewrite <- Hkids; by apply in_map).
    unfold sorted_children in Hin.
    rewrite sort_by_In, fill_buckets_children in Hin.
    apply filter_In in Hin as [Hcs Hchild].
    apply child_of_spec in Hchild as (Hp & Hne & _).
    rewrite Hs. split; [done|]. split; [done|]. split; [done|].
    rewrite Forall_forall in Hbk.
    destruct (Hbk c) as (f' & s' & Hc'); [by apply list_elem_of_In|].
    apply buildNode_shape in Hc' as (_ & -> & _). lia.
Qed.

Lemma children_name_their_parent_witness :
  (forall r, In r demo_forest -> tn_depth r = 0%nat) /\
  (forall t c, node_in t demo_forest -> In c (tn_children t) ->
     parentSession (tn_session c) = Some (path (tn_session t)) /\
     path (tn_session t) <> "" /\
     In (tn_session c) demo /\
     tn_depth c = S (tn_depth t)).
Proof.
  apply (children_name_their_parent 3 demo demo_forest).
  vm_compute. reflexivity.
Defined.

Lemma node_at_built_depth (cO : gmap string (list Session)) pos : forall f d t,
  Forall (fun r => exists fuel s, buildNode fuel cO s d = Some r) f ->
  node_at f pos = Some t -> tn_depth t = (d + (length pos - 1))%nat.
Proof.
  induction pos as [|i rest IH]; intros f d t Hf Ht; [done|].
  simpl in Ht. destruct (f !! i) as [t0|] eqn:Hi; [|done].
  rewrite Forall_forall in Hf.
  destruct (Hf t0) as (fuel & s & Ht0); [by eapply list_elem_of_lookup_2|].
  apply buildNode_shape in Ht0 as (_ & Hd & _ & Hkids).
  destruct rest as [|j rest].
  - injection Ht as <-. simpl. lia.
  - rewrite (IH _ (d + 1)%nat t Hkids Ht). simpl. lia.
Qed.

(** X3: the depth of every entry of the flattening is the depth stored
    in the node it comes from, position by position in pre-order. *)
Theorem entry_depth_is_node_depth
    (fuel : nat) (sessions : list Session) (forest : list SessionTreeNode) :
  buildSessionTree_fuel fuel sessions = Some forest ->
  Forall2 (fun pos e => exists t, node_at forest pos = Some t /\
                                  fn_session e = tn_session t /\
                                  fn_depth e = tn_depth t)
    (forest_positions forest) (flattenTree forest).
Proof.
  intros Hbuild. destruct (forest_roots_built _ _ _ Hbuild) as [_ Hbuilt].
  eapply Forall2_impl; [apply (flatten_roots_ok forest forest []); done|].
  intros pos e ((t & Ht & Hs & _) & Hd & _). simpl.
  exists t. split; [done|]. split; [done|].
  rewrite Hd. rewrite (node_at_built_depth _ _ _ _ _ Hbuilt Ht). lia.
Qed.

Lemma entry_depth_is_node_depth_witness :
  Forall2 (fun pos e => exists t, node_at demo_forest pos = Some t /\
                                  fn_session e = tn_session t /\
                                  fn_depth e = tn_depth t)
    (forest_positions demo_forest) (flattenTree demo_forest).
Proof.
  apply (entry_depth_is_node_depth 3 demo demo_forest).
  vm_compute. reflexivity.
Defined.

(** X4: ties keep the input order: roots with the same modification time
    stand in the forest in the order of the input list, and so do the
    children of a node that have the same creation time. *)
Theorem ties_keep_input_order
    (fuel : nat) (sessions : list Session) (forest : list SessionTreeNode) :
  buildSessionTree_fuel fuel sessions = Some forest ->
  (forall k,
     List.filter (fun s => (modified s =? k)%Z) (map tn_session forest)
     = List.filter (fun s => (modified s =? k)%Z)
         (List.filter (fun s => negb (has_parent (index_by_path sessions) s)) sessions)) /\
  (forall t k, node_in t forest ->
     List.filter (fun s => (created s =? k)%Z) (map tn_session (tn_children t))
     = List.filter (fun s => (created s =? k)%Z)
         (List.filter (fun c => child_of sessions c (path (tn_session t))) sessions)).
Proof.
  intros Hbuild. destruct (forest_roots_built _ _ _ Hbuild) as [Hroots Hbuilt].
  split.
  - intros k. by rewrite Hroots, sort_roots_stable, fill_buckets_roots.
  - intros t k Ht.
    destruct (node_in_built_depth _ _ _ Ht 0%nat Hbuilt) as (d & f & s & _ & Hts).
    apply buildNode_shape in Hts as (Hs & _ & Hkids & _).
    rewrite Hkids, Hs. unfold sorted_children.
    by rewrite sort_children_stable, fill_buckets_children.
Qed.

Lemma ties_keep_input_order_witness :
  (forall k,
     List.filter (fun s => (modified s =? k)%Z) (map tn_session demo_forest)
     = List.filter (fun s => (modified s =? k)%Z)
         (List.filter (fun s => negb (has_parent (index_by_path demo) s)) demo)) /\
  (forall t k, node_in t demo_forest ->
     List.filter (fun s => (created s =? k)%Z) (map tn_session (tn_children t))
     = List.filter (fun s => (created s =? k)%Z)
         (List.filter (fun c => child_of demo c (path (tn_session t))) demo)).
Proof.
  apply (ties_keep_input_order 3 demo demo_forest).
  vm_compute. reflexivity.
Defined.

(** X5: when the recursion started at a root comes to a session that it
    visits again further down (two records sharing a path make this
    possible), [buildSessionTree] returns for no recursion depth. *)
Theorem revisited_session_never_returns
    (sessions : list Session) (r s : Session) (fuel : nat) :
  In r (roots (fill_buckets sessions)) ->
  rtc (visits (childrenOf (fill_buckets sessions))) r s ->
  tc (visits (childrenOf (fill_buckets sessions))) s s ->
  buildSessionTree_fuel fuel sessions = None.
Proof.
  intros Hr Hrs Hcyc.
  destruct (buildSessionTree_fuel fuel sessions) as [forest|] eqn:Hbuild; [|done].
  exfalso. unfold buildSessionTree_fuel in Hbuild. apply mapM_Some in Hbuild.
  assert (In r (sort_by cmp_modified_desc (roots (fill_buckets sessions)))) as Hin
    by (by apply sort_by_In).
  apply list_elem_of_In, list_elem_of_lookup in Hin as (i & Hi).
  destruct (Forall2_lookup_l _ _ _ _ _ Hbuild Hi) as (t & _ & Ht).
  apply rtc_tc in Hrs as [<-|Hrs].
  - by rewrite (cyclic_never_builds _ _ Hcyc) in Ht.
  - destruct (build_descendant _ _ _ Hrs _ _ _ Ht) as (f' & d' & t' & _ & Ht').
    by rewrite (cyclic_never_builds _ _ Hcyc) in Ht'.
Qed.

Lemma revisited_session_never_returns_witness :
  buildSessionTree_fuel 7 revisiting = None.
Proof.
  apply (revisited_session_never_returns revisiting
           (sess "/r" None 1 1) (sess "/k" (Some "/k") 3 3) 7).
  - vm_compute. left. reflexivity.
  - apply (rtc_l _ _ (sess "/k" (Some "/r") 2 2)); [|apply rtc_once].
    + unfold visits. vm_compute. left. reflexivity.
    + unfold visits. vm_compute. left. reflexivity.
  - apply tc_once. unfold visits. vm_compute. left. reflexivity.
Defined.

Lemma mapM_leaves (cO : gmap string (list Session)) (l : list Session) fuel :
  (forall s, In s l -> sorted_children cO s = []) ->
  mapM (fun s => buildNode (S fuel) cO s 0) l = Some (map (fun s => mkNode s [] 0) l).
Proof.
  intros Hleaf. apply mapM_Some.
  induction l as [|s l IH]; [constructor|]. constructor.
  - simpl. by rewrite (Hleaf s) by (by left).
  - apply IH. intros s' Hs'. apply Hleaf. by right.
Qed.

Lemma flatten_roots_leaves (l : list Session) : forall n i,
  map fn_session (flatten_roots n i (map (fun s => mkNode s [] 0) l)) = l /\
  Forall (fun e => fn_depth e = 0%nat /\ fn_prefix e = "" /\ fn_hasChildren e = false)
    (flatten_roots n i (map (fun s => mkNode s [] 0) l)).
Proof.
  induction l as [|s l IH]; intros n i; [by split|].
  destruct (IH n (S i)) as [IH1 IH2]. simpl. split.
  - by rewrite IH1.
  - by constructor.
Qed.

(** X6: when no session has a parent reference that names a path of the
    list, the flattening is the list itself sorted by modification time,
    newest first, every entry at depth 0 with the empty prefix and no
    children. *)
Theorem no_links_gives_sorted_list (sessions : list Session) :
  (forall s, In s sessions -> has_parent (index_by_path sessions) s = false) ->
  exists flat,
    flat_of sessions = Some flat /\
    map fn_session flat = sort_by cmp_modified_desc sessions /\
    Forall (fun e => fn_depth e = 0%nat /\ fn_prefix e = "" /\ fn_hasChildren e = false) flat.
Proof.
  intros Hnone.
  assert (roots (fill_buckets sessions) = sessions) as Hroots.
  { rewrite fill_buckets_roots. apply filter_all. intros s Hs. by rewrite (Hnone s Hs). }
  assert (forall s, sorted_children (childrenOf (fill_buckets sessions)) s = [])
    as Hleaf.
  { intros s. unfold sorted_children. rewrite fill_buckets_children.
    rewrite filter_none; [done|]. intros c Hc.
    destruct (child_of sessions c (path s)) eqn:E; [|done].
    apply child_of_has_parent in E. by rewrite (Hnone c Hc) in E. }
  exists (flattenTree (map (fun s => mkNode s [] 0) (sort_by cmp_modified_desc sessions))).
  unfold flat_of, buildSessionTree, buildSessionTree_fuel. rewrite Hroots.
  split; [|apply flatten_roots_leaves].
  destruct sessions as [|s0 rest]; [done|].
  simpl length. by rewrite mapM_leaves.
Qed.

Lemma no_links_gives_sorted_list_witness :
  exists flat,
    flat_of unlinked = Some flat /\
    map fn_session flat = sort_by cmp_modified_desc unlinked /\
    Forall (fun e => fn_depth e = 0%nat /\ fn_prefix e = "" /\ fn_hasChildren e = false) flat.
Proof.
  apply (no_links_gives_sorted_list unlinked).
  intros s Hs. simpl in Hs.
  destruct Hs as [<-|[<-|[<-|[]]]]; vm_compute; reflexivity.
Defined.

(** ** More on the filter *)

(** *** Lower-casing and trimming strings of ASCII characters *)

Lemma ascii_toLowerCase_app a b : ascii_toLowerCase (a +:+ b) = ascii_toLowerCase a +:+ ascii_toLowerCase b.
Proof. induction a as [|c a IH]; simpl; [done|]. by rewrite IH. Qed.

Lemma lower_ascii_idem c : lower_ascii (lower_ascii c) = lower_ascii c.
Proof. by destruct c as [[] [] [] [] [] [] [] []]. Qed.

Lemma ascii_toLowerCase_idem s : ascii_toLowerCase (ascii_toLowerCase s) = ascii_toLowerCase s.
Proof. induction s as [|c s IH]; simpl; [done|]. by rewrite lower_ascii_idem, IH. Qed.

Lemma all_space_app a b : all_space (a +:+ b) = all_space a && all_space b.
Proof. induction a as [|c a IH]; simpl; [done|]. by rewrite IH, andb_assoc. Qed.

Lemma ascii_trimStart_app_space a x : all_space a = true -> ascii_trimStart (a +:+ x) = ascii_trimStart x.
Proof.
  induction a as [|c a IH]; simpl; [done|].
  intros [-> Ha]%andb_true_iff. by apply IH.
Qed.

Lemma ascii_trimStart_app_nonempty x b : ascii_trimStart x <> "" -> ascii_trimStart (x +:+ b) = ascii_trimStart x +:+ b.
Proof.
  induction x as [|c x IH]; simpl; [done|].
  destruct (is_space c); [exact IH|done].
Qed.

Lemma ascii_trimEnd_all_space b : all_space b = true -> ascii_trimEnd b = "".
Proof.
  induction b as [|c b IH]; simpl; [done|].
  intros [-> Hb]%andb_true_iff. by rewrite IH.
Qed.

Lemma ascii_trimEnd_app_space x b : all_space b = true -> ascii_trimEnd (x +:+ b) = ascii_trimEnd x.
Proof.
  intros Hb. induction x as [|c x IH]; simpl; [by apply ascii_trimEnd_all_space|].
  by rewrite IH.
Qed.

Lemma ascii_trimEnd_app_prefix x y : exists z, ascii_trimEnd (x +:+ y) = ascii_trimEnd x +:+ z.
Proof.
  induction x as [|c x (z & IH)]; simpl; [by exists (ascii_trimEnd y)|].
  rewrite IH. destruct (ascii_trimEnd x) as [|c' t] eqn:E; simpl.
  - destruct z as [|c0 z]; [by exists ""; destruct (is_space c)|].
    destruct (is_space c); [by exists (String c (String c0 z))|by exists (String c0 z)].
  - by exists z.
Qed.

Lemma ascii_trim_surrounded a x b :
  all_space a = true -> all_space b = true -> ascii_trim (a +:+ x +:+ b) = ascii_trim x.
Proof.
  intros Ha Hb. unfold ascii_trim. rewrite ascii_trimStart_app_space by done.
  destruct (ascii_trimStart x) as [|c t] eqn:E.
  - rewrite ascii_trimStart_app_space; [by rewrite ascii_trimStart_all_space|].
    by apply ascii_trimStart_blank.
  - rewrite ascii_trimStart_app_nonempty by (by rewrite E).
    rewrite E. by apply ascii_trimEnd_app_space.
Qed.

Lemma Substring_nil text : Substring "" text.
Proof. by exists "", text. Qed.

Lemma Substring_trans a b c : Substring a b -> Substring b c -> Substring a c.
Proof.
  intros (p1 & q1 & ->) (p2 & q2 & ->).
  exists (p2 +:+ p1), (q1 +:+ q2). by rewrite !append_assoc.
Qed.

Lemma Substring_ascii_lower a b :
  Substring a b -> Substring (ascii_toLowerCase a) (ascii_toLowerCase b).
Proof.
  intros (p & q & ->). exists (ascii_toLowerCase p), (ascii_toLowerCase q).
  by rewrite !ascii_toLowerCase_app.
Qed.

Lemma ascii_trim_app_Substring x y : Substring (ascii_trim x) (ascii_trim (x +:+ y)).
Proof.
  unfold ascii_trim. destruct (ascii_trimStart x) as [|c t] eqn:E; [apply Substring_nil|].
  rewrite ascii_trimStart_app_nonempty by (by rewrite E). rewrite E.
  destruct (ascii_trimEnd_app_prefix (String c t) y) as (z & ->).
  exists "", z. done.
Qed.

Lemma filter_sublist_impl {A} (P Q : A -> bool) l :
  (forall x, P x = true -> Q x = true) -> sublist (List.filter P l) (List.filter Q l).
Proof.
  intros HPQ. induction l as [|x l IH]; simpl; [constructor|].
  destruct (P x) eqn:HP.
  - rewrite (HPQ x HP). by constructor.
  - destruct (Q x); [by constructor|done].
Qed.

Lemma Substring_refl x : Substring x x.
Proof. exists "", "". simpl. by rewrite append_nil_r. Qed.

Lemma Substring_join sep x l : In x l -> Substring x (join sep l).
Proof.
  induction l as [|y l IH]; [done|]. intros Hin.
  destruct l as [|z l].
  - destruct Hin as [->|[]]. apply Substring_refl.
  - change (join sep (y :: z :: l)) with (y +:+ sep +:+ join sep (z :: l)).
    destruct Hin as [->|Hin].
    + by exists "", (sep +:+ join sep (z :: l)).
    + destruct (IH Hin) as (p & q & ->).
      exists (y +:+ sep +:+ p), q. by rewrite !append_assoc.
Qed.

Lemma filter_Boolean_In x l : In (Some x) l -> x <> "" -> In x (filter_Boolean l).
Proof.
  induction l as [|[y|] l IH]; simpl; [done| |].
  - intros [[= ->]|Hin] Hne.
    + destruct (String.eqb_spec x ""); [done|by left].
    + destruct (y =? "")%string; [by apply IH|right; by apply IH].
  - intros [?|Hin] Hne; [done|by apply IH].
Qed.

Lemma Substring_of_empty q : Substring q "" -> q = "".
Proof.
  intros (p & r & Heq). destruct p; [|done]. simpl in Heq. by destruct q.
Qed.

Lemma is_ascii_join sep l :
  is_ascii sep = true -> Forall (fun x => is_ascii x = true) l -> is_ascii (join sep l) = true.
Proof.
  intros Hsep. induction l as [|x l IH]; [done|]. intros Hl.
  apply Forall_cons in Hl as [Hx Hl]. destruct l as [|y l]; [done|].
  change (join sep (x :: y :: l)) with (x +:+ sep +:+ join sep (y :: l)).
  by rewrite !is_ascii_app, Hx, Hsep, IH.
Qed.

Lemma filter_Boolean_Forall (P : string -> Prop) l :
  Forall (fun o => P (default "" o)) l -> Forall P (filter_Boolean l).
Proof.
  induction 1 as [|[x|] l Hx Hl IH]; simpl; [constructor| |done].
  destruct (x =? "")%string; [done|by constructor].
Qed.

Section QueryFacts.
Context `{StringMethods}.

(** The match text of an entry whose fields hold ASCII characters. *)
Lemma match_text_ascii e :
  entry_is_ascii e = true ->
  match_text e
  = ascii_toLowerCase
      (join " " (filter_Boolean [ Some (firstMessage (fn_session e)); name (fn_session e);
                                  Some (cwd (fn_session e)); Some (path (fn_session e)) ])).
Proof.
  unfold entry_is_ascii. rewrite !andb_true_iff. intros (((Hf & Hn) & Hc) & Hp).
  unfold match_text. apply toLowerCase_ascii. apply is_ascii_join; [done|].
  apply filter_Boolean_Forall. repeat constructor; done.
Qed.

(** The list for a query whose normal form contains that of another
    query is a subsequence of the other's list. *)
Lemma contained_query_narrows value value' flat :
  Substring (trim (toLowerCase value)) (trim (toLowerCase value')) ->
  sublist (filter_nodes value' flat) (filter_nodes value flat).
Proof.
  intros Hsub. rewrite !filter_nodes_as_filter. apply filter_sublist_impl.
  intros e He. apply includes_spec. apply includes_spec in He.
  by eapply Substring_trans.
Qed.
End QueryFacts.

(** On a value and entries made of ASCII characters every runtime filters
    as [AsciiStrings] does. *)
Lemma filter_nodes_ascii (M : StringMethods) value flat :
  is_ascii value = true -> Forall (fun e => entry_is_ascii e = true) flat ->
  filter_nodes value flat = @filter_nodes AsciiStrings value flat.
Proof.
  intros Hv Hflat. rewrite filter_nodes_as_filter, (@filter_nodes_as_filter AsciiStrings).
  rewrite query_of_ascii by done. apply filter_ext_in. intros e He.
  rewrite Forall_forall in Hflat. apply list_elem_of_In in He.
  rewrite match_text_ascii by (by apply Hflat).
  by rewrite (@match_text_ascii AsciiStrings) by (by apply Hflat).
Qed.

(** X7: the filter depends on the value of the search field through its
    lower-cased, trimmed form only.  For values made of ASCII characters,
    whatever the entries hold: runs of ASCII white space around the value
    do not matter, and neither does the case of its letters. *)
Theorem query_is_normalised (M : StringMethods) (a value b value' : string)
    (flat : list FlatNode) :
  is_ascii value = true -> is_ascii value' = true ->
  all_space a = true -> all_space b = true ->
  ascii_toLowerCase value' = ascii_toLowerCase value ->
  (forall v v', trim (toLowerCase v) = trim (toLowerCase v') ->
     filter_nodes v flat = filter_nodes v' flat) /\
  filter_nodes (a +:+ value +:+ b) flat = filter_nodes value flat /\
  filter_nodes value' flat = filter_nodes value flat.
Proof.
  intros Hv Hv' Ha Hb Hcase.
  assert (Hdep : forall v v', trim (toLowerCase v) = trim (toLowerCase v') ->
            filter_nodes v flat = filter_nodes v' flat).
  { intros v v' Heq. unfold filter_nodes. by rewrite Heq. }
  split; [exact Hdep|]. split; apply Hdep.
  - rewrite !query_of_ascii; [| done |].
    + rewrite !ascii_toLowerCase_app.
      by rewrite ascii_trim_surrounded by (by rewrite all_space_lower).
    + rewrite !is_ascii_app, Hv. by rewrite !all_space_is_ascii.
  - rewrite !query_of_ascii by done. by rewrite Hcase.
Qed.

Lemma query_is_normalised_witness :
  (forall v v', trim (toLowerCase v) = trim (toLowerCase v') ->
     filter_nodes v three_entries = filter_nodes v' three_entries) /\
  filter_nodes ("  " +:+ "/B" +:+ " ") three_entries = filter_nodes "/B" three_entries /\
  filter_nodes "/b" three_entries = filter_nodes "/B" three_entries.
Proof.
  apply (query_is_normalised AsciiStrings "  " "/B" " " "/b" three_entries); reflexivity.
Defined.

(** X8: the list for a value whose lower-cased, trimmed form contains
    that of another value is a subsequence of the other value's list.
    So typing further ASCII characters at the end of a value made of
    ASCII characters never brings an entry back, whatever the entries
    hold.  (Beyond ASCII the form of a longer value need not contain that
    of the shorter one: lower-casing a letter may depend on the letters
    next to it.) *)
Theorem longer_query_narrows (M : StringMethods) (value : string) (flat : list FlatNode) :
  (forall value',
     Substring (trim (toLowerCase value)) (trim (toLowerCase value')) ->
     sublist (filter_nodes value' flat) (filter_nodes value flat)) /\
  (forall more,
     is_ascii (value +:+ more) = true ->
     sublist (filter_nodes (value +:+ more) flat) (filter_nodes value flat)).
Proof.
  split; [intros value'; apply contained_query_narrows|].
  intros more Hascii. apply contained_query_narrows.
  pose proof Hascii as Hboth. rewrite is_ascii_app in Hboth.
  apply andb_true_iff in Hboth as [Hv _].
  rewrite !query_of_ascii by done.
  rewrite ascii_toLowerCase_app. apply ascii_trim_app_Substring.
Qed.

(** X9: for a value and an entry made of ASCII characters, the entry is
    kept whenever the value, trimmed and without regard to the case of
    letters, occurs in one of the entry's fields: the first message, the
    name, the working directory or the path. *)
Theorem field_match_keeps_entry (M : StringMethods) (value : string)
    (flat : list FlatNode) (e : FlatNode) :
  In e flat ->
  is_ascii value = true -> entry_is_ascii e = true ->
  (exists x,
     In (Some x) [ Some (firstMessage (fn_session e)); name (fn_session e);
                   Some (cwd (fn_session e)); Some (path (fn_session e)) ]
     /\ Substring (ascii_trim (ascii_toLowerCase value)) (ascii_toLowerCase x)) ->
  In e (filter_nodes value flat).
Proof.
  intros He Hv Hascii (x & Hx & Hsub).
  rewrite filter_nodes_as_filter. apply filter_In. split; [done|].
  apply includes_spec. rewrite query_of_ascii by done.
  rewrite match_text_ascii by done.
  destruct (String.eqb_spec x "") as [->|Hne].
  - apply Substring_of_empty in Hsub. rewrite Hsub. apply Substring_nil.
  - eapply Substring_trans; [exact Hsub|].
    apply Substring_ascii_lower, Substring_join. by apply filter_Boolean_In.
Qed.

Lemma field_match_keeps_entry_witness :
  In (entry_of (sess "/b" None 2 2)) (filter_nodes " B" three_entries).
Proof.
  apply (field_match_keeps_entry AsciiStrings " B" three_entries
           (entry_of (sess "/b" None 2 2))).
  - simpl. right. left. reflexivity.
  - reflexivity.
  - reflexivity.
  - exists "/b". split.
    + simpl. right. right. right. left. reflexivity.
    + exists "/", "". reflexivity.
Defined.

(** ** Invariants of the selector *)

Section SelectorInvariants.
Context `{StringMethods} `{Toolkit}.

Lemma ensureVisible_other_fields (st : Selector) :
  currentSessionPath (ensureVisible st) = currentSessionPath st.
Proof.
  unfold ensureVisible.
  destruct (selectedIndex st <? scrollOffset st)%Z; [done|].
  by destruct (selectedIndex st >=? scrollOffset st + maxVisibleLines st)%Z.
Qed.

Lemma applyFilter_window (st : Selector) :
  (1 <= maxVisibleLines st)%Z ->
  in_window (applyFilter st) /\ maxVisibleLines (applyFilter st) = maxVisibleLines st.
Proof.
  intros Hmax. unfold applyFilter.
  match goal with |- context [ensureVisible ?s] =>
    destruct (ensureVisible_window s) as (Hin & _); [exact Hmax|];
    destruct (ensureVisible_fields s) as (_ & _ & _ & Hm & _) end.
  split; [exact Hin|exact Hm].
Qed.

Lemma move_to_window (st : Selector) (sel : Z) :
  (1 <= maxVisibleLines st)%Z ->
  in_window (move_to st sel) /\ maxVisibleLines (move_to st sel) = maxVisibleLines st.
Proof.
  intros Hmax. unfold move_to.
  match goal with |- context [ensureVisible ?s] =>
    destruct (ensureVisible_window s) as (Hin & _); [exact Hmax|];
    destruct (ensureVisible_fields s) as (_ & _ & _ & Hm & _) end.
  split; [exact Hin|exact Hm].
Qed.

Lemma handleInput_window (st : Selector) (data : string) :
  (1 <= maxVisibleLines st)%Z -> in_window st ->
  in_window (fst (handleInput st data)) /\
  maxVisibleLines (fst (handleInput st data)) = maxVisibleLines st.
Proof.
  intros Hmax Hwin. unfold handleInput.
  destruct (searchMode st).
  { destruct (matchesKey data Key_escape);
      [exact (applyFilter_window (set_search st false _) Hmax)|].
    destruct (matchesKey data Key_enter); [by split|].
    exact (applyFilter_window (set_search st true _) Hmax). }
  destruct (matchesKey data Key_up || matchesKey data "k").
  { destruct (selectedIndex st >? 0)%Z; [by apply move_to_window|by split]. }
  destruct (matchesKey data Key_down || matchesKey data "j").
  { destruct (selectedIndex st <? _)%Z; [by apply move_to_window|by split]. }
  destruct (matchesKey data Key_pageUp); [by apply move_to_window|].
  destruct (matchesKey data Key_pageDown); [by apply move_to_window|].
  destruct (matchesKey data Key_home); [by apply move_to_window|].
  destruct (matchesKey data Key_end); [by apply move_to_window|].
  destruct (matchesKey data Key_enter); [by destruct (at_index _ _)|].
  destruct (matchesKey data Key_escape); [by split|].
  by destruct (data =? "/")%string.
Qed.

Lemma new_selector_window flat maxVisible current :
  (1 <= maxVisible)%Z ->
  in_window (new_selector flat maxVisible current) /\
  maxVisibleLines (new_selector flat maxVisible current) = maxVisible.
Proof.
  intros Hmax. unfold new_selector.
  assert (in_window (mkSelector flat flat 0 0 maxVisible Input_new false current))
    as Hst by (unfold in_window; simpl; lia).
  destruct current as [p|]; [|by split].
  destruct (p =? "")%string; [by split|].
  destruct (findIndex _ _ >=? 0)%Z; [|by split].
  match goal with |- context [ensureVisible ?s] =>
    destruct (ensureVisible_window s) as (Hin & _); [exact Hmax|];
    destruct (ensureVisible_fields s) as (_ & _ & _ & Hm & _) end.
  split; [exact Hin|exact Hm].
Qed.

(** X10: whatever is typed, in either mode, the selected index stays
    inside the visible window of a selector created with at least one
    visible line; the window size never changes. *)
Theorem selection_always_in_window
    (flat : list FlatNode) (maxVisible : Z) (current : option string)
    (inputs : list string) :
  (1 <= maxVisible)%Z ->
  in_window (handleInputs (new_selector flat maxVisible current) inputs) /\
  maxVisibleLines (handleInputs (new_selector flat maxVisible current) inputs) = maxVisible.
Proof.
  intros Hmax. unfold handleInputs.
  destruct (new_selector_window flat maxVisible current Hmax) as [Hwin Hm].
  revert Hwin Hm. generalize (new_selector flat maxVisible current).
  induction inputs as [|data inputs IH]; intros st Hwin Hm; [by split|].
  simpl. rewrite <- Hm in Hmax.
  destruct (handleInput_window st data Hmax Hwin) as [Hwin' Hm'].
  apply IH; [exact Hwin'|]. by rewrite Hm'.
Qed.
End SelectorInvariants.

Lemma selection_always_in_window_witness :
  in_window (handleInputs (new_selector three_entries 2 (Some "/c"))
               [ "pageUp"; "end"; "/"; "b"; "escape"; "k" ]) /\
  maxVisibleLines (handleInputs (new_selector three_entries 2 (Some "/c"))
                     [ "pageUp"; "end"; "/"; "b"; "escape"; "k" ]) = 2%Z.
Proof.
  apply (selection_always_in_window three_entries 2 (Some "/c")
           [ "pageUp"; "end"; "/"; "b"; "escape"; "k" ]).
  lia.
Defined.

Section SelectorState.
Context `{StringMethods} `{Toolkit}.

(** What every state a selector goes through satisfies: the flattened
    list, the window size and the current path are those it was created
    with, and the filtered list is the filter of the flattened list by the
    value of the search field. *)
Lemma handleInput_keeps_filter (st : Selector) (data : string) :
  filteredNodes st = filter_nodes (getValue (searchInput st)) (flatNodes st) ->
  let st' := fst (handleInput st data) in
  flatNodes st' = flatNodes st /\
  maxVisibleLines st' = maxVisibleLines st /\
  currentSessionPath st' = currentSessionPath st /\
  filteredNodes st' = filter_nodes (getValue (searchInput st')) (flatNodes st').
Proof.
  intros Hinv.
  assert (forall st0 : Selector,
    flatNodes st0 = flatNodes st -> maxVisibleLines st0 = maxVisibleLines st ->
    currentSessionPath st0 = currentSessionPath st ->
    flatNodes (applyFilter st0) = flatNodes st /\
    maxVisibleLines (applyFilter st0) = maxVisibleLines st /\
    currentSessionPath (applyFilter st0) = currentSessionPath st /\
    filteredNodes (applyFilter st0)
      = filter_nodes (getValue (searchInput (applyFilter st0))) (flatNodes (applyFilter st0)))
    as Hfilter.
  { intros st0 Hf Hm Hc.
    destruct (applyFilter_filtered st0) as (-> & -> & ->).
    unfold applyFilter.
    match goal with |- context [ensureVisible ?s] =>
      rewrite (ensureVisible_other_fields s);
      destruct (ensureVisible_fields s) as (_ & _ & _ & -> & _) end.
    simpl. by rewrite Hf, Hm, Hc. }
  assert (forall sel,
    flatNodes (move_to st sel) = flatNodes st /\
    maxVisibleLines (move_to st sel) = maxVisibleLines st /\
    currentSessionPath (move_to st sel) = currentSessionPath st /\
    filteredNodes (move_to st sel)
      = filter_nodes (getValue (searchInput (move_to st sel))) (flatNodes (move_to st sel)))
    as Hmove.
  { intros sel. unfold move_to.
    match goal with |- context [ensureVisible ?s] =>
      rewrite (ensureVisible_other_fields s);
      destruct (ensureVisible_fields s) as (-> & -> & _ & -> & -> & _) end.
    by simpl. }
  cbv zeta. unfold handleInput.
  destruct (searchMode st).
  { destruct (matchesKey data Key_escape); [by apply Hfilter|].
    destruct (matchesKey data Key_enter); [by simpl|].
    by apply Hfilter. }
  destruct (matchesKey data Key_up || matchesKey data "k").
  { destruct (selectedIndex st >? 0)%Z; [apply Hmove|by simpl]. }
  destruct (matchesKey data Key_down || matchesKey data "j").
  { destruct (selectedIndex st <? _)%Z; [apply Hmove|by simpl]. }
  destruct (matchesKey data Key_pageUp); [apply Hmove|].
  destruct (matchesKey data Key_pageDown); [apply Hmove|].
  destruct (matchesKey data Key_home); [apply Hmove|].
  destruct (matchesKey data Key_end); [apply Hmove|].
  destruct (matchesKey data Key_enter); [by destruct (at_index _ _)|].
  destruct (matchesKey data Key_escape); [by simpl|].
  by destruct (data =? "/")%string.
Qed.

Lemma new_selector_fields flat maxVisible current :
  let st := new_selector flat maxVisible current in
  flatNodes st = flat /\ maxVisibleLines st = maxVisible /\
  currentSessionPath st = current /\ filteredNodes st = flat /\
  searchInput st = Input_new /\ searchMode st = false.
Proof.
  cbv zeta. unfold new_selector.
  destruct current as [p|]; [|done].
  destruct (p =? "")%string; [done|].
  destruct (findIndex _ _ >=? 0)%Z; [|done].
  match goal with |- context [ensureVisible ?s] =>
    rewrite (ensureVisible_other_fields s);
    destruct (ensureVisible_fields s) as (-> & -> & _ & -> & -> & ->) end.
  done.
Qed.

(** X11: a selector never changes its flattened list, its window size or
    its current path, and after any inputs the filtered list is the
    filter of the flattened list by the value of the search field; so it
    is always a subsequence of the flattened list. *)
Theorem filtered_list_follows_query
    (flat : list FlatNode) (maxVisible : Z) (current : option string)
    (inputs : list string) :
  let st := handleInputs (new_selector flat maxVisible current) inputs in
  flatNodes st = flat /\
  maxVisibleLines st = maxVisible /\
  currentSessionPath st = current /\
  filteredNodes st = filter_nodes (getValue (searchInput st)) flat /\
  sublist (filteredNodes st) flat.
Proof.
  cbv zeta.
  assert (let st := handleInputs (new_selector flat maxVisible current) inputs in
    flatNodes st = flat /\ maxVisibleLines st = maxVisible /\
    currentSessionPath st = current /\
    filteredNodes st = filter_nodes (getValue (searchInput st)) (flatNodes st)) as Hinv.
  { cbv zeta. unfold handleInputs.
    destruct (new_selector_fields flat maxVisible current)
      as (Hf & Hm & Hc & Hfl & Hi & _).
    assert (filteredNodes (new_selector flat maxVisible current)
            = filter_nodes (getValue (searchInput (new_selector flat maxVisible current)))
                (flatNodes (new_selector flat maxVisible current))) as Hq.
    { rewrite Hfl, Hi, Hf, getValue_new. symmetry. by apply filter_nodes_blank. }
    revert Hf Hm Hc Hq. generalize (new_selector flat maxVisible current).
    induction inputs as [|data inputs IH]; intros st Hf Hm Hc Hq; [done|].
    simpl. destruct (handleInput_keeps_filter st data Hq) as (Hf' & Hm' & Hc' & Hq').
    apply IH; [by rewrite Hf'|by rewrite Hm'|by rewrite Hc'|exact Hq']. }
  destruct Hinv as (Hf & Hm & Hc & Hq). rewrite Hf in Hq.
  split; [done|]. split; [done|]. split; [done|]. split; [done|].
  rewrite Hq, filter_nodes_as_filter. apply filter_sublist.
Qed.

(** X12: the selected index can leave the range of the filtered list only
    through an empty filtered list: from a state with the index in range
    and a non-negative window size, an input in either mode that leaves
    the filtered list non-empty leaves the index in range. *)
Theorem index_in_range_while_list_nonempty (st : Selector) (data : string) :
  selection_in_range st -> (0 <= maxVisibleLines st)%Z ->
  filteredNodes (fst (handleInput st data)) <> [] ->
  selection_in_range (fst (handleInput st data)).
Proof.
  intros Hsel Hmax.
  destruct (searchMode st) eqn:Hmode.
  - unfold handleInput. rewrite Hmode. unfold selection_in_range in Hsel.
    destruct (matchesKey data Key_escape).
    { simpl fst. intros Hne. apply applyFilter_in_range; [simpl; lia|exact Hne]. }
    destruct (matchesKey data Key_enter); [by intros _|].
    simpl fst. intros Hne. apply applyFilter_in_range; [simpl; lia|exact Hne].
  - intros _. by apply browsing_keeps_selection_in_range.
Qed.

(** X13: in browsing mode the commit key never changes the state; it
    reports the path of the entry at the selected index when the index is
    in range, and nothing when it is not. *)
Theorem commit_reports_selected_path (st : Selector) (data : string) :
  searchMode st = false -> is_commit data = true ->
  fst (handleInput st data) = st /\
  (selection_in_range st ->
     exists e, filteredNodes st !! Z.to_nat (selectedIndex st) = Some e /\
               snd (handleInput st data) = Some (Selected (path (fn_session e)))) /\
  (~ selection_in_range st -> snd (handleInput st data) = None).
Proof.
  intros Hmode Hkey. unfold is_commit, is_up, is_down in Hkey.
  repeat (apply andb_true_iff in Hkey as [Hkey ?]).
  repeat match goal with
         | Hn : negb _ = true |- _ => apply negb_true_iff in Hn
         end.
  unfold handleInput. rewrite Hmode.
  repeat match goal with
         | Hb : ?b = _ |- context [if ?b then _ else _] => rewrite Hb
         end.
  unfold at_index, selection_in_range.
  destruct (Z.ltb_spec (selectedIndex st) 0) as [Hneg|Hpos].
  - split; [done|]. split; [lia|done].
  - destruct (filteredNodes st !! Z.to_nat (selectedIndex st)) as [e|] eqn:Hlook.
    + split; [done|]. split; [by exists e|].
      intros Hout. apply lookup_lt_Some in Hlook. lia.
    + split; [done|]. split; [|done].
      intros Hin. apply lookup_ge_None in Hlook. lia.
Qed.

(** X14: in search mode the escape key ends the search without ending the
    selector: the search field is emptied, the filtered list is the whole
    flattened list again, and nothing is reported. *)
Theorem search_escape_restores_list (st : Selector) (data : string) :
  searchMode st = true -> matchesKey data Key_escape = true ->
  let st' := fst (handleInput st data) in
  searchMode st' = false /\
  getValue (searchInput st') = "" /\
  filteredNodes st' = flatNodes st /\
  snd (handleInput st data) = None.
Proof.
  intros Hmode Hkey. cbv zeta. unfold handleInput. rewrite Hmode, Hkey. simpl fst.
  destruct (applyFilter_filtered (set_search st false (setValue (searchInput st) "")))
    as (Hfl & _ & Hin).
  rewrite Hfl, Hin. simpl. rewrite getValue_setValue.
  split; [|split; [done|split; [by apply filter_nodes_blank|done]]].
  unfold applyFilter.
  match goal with |- context [ensureVisible ?s] =>
    destruct (ensureVisible_fields s) as (_ & _ & _ & _ & _ & ->) end.
  done.
Qed.
End SelectorState.

Lemma index_in_range_while_list_nonempty_witness :
  selection_in_range (fst (handleInput small_selector "j")).
Proof.
  apply (index_in_range_while_list_nonempty small_selector "j").
  - unfold selection_in_range. simpl. lia.
  - simpl. lia.
  - vm_compute. discriminate.
Defined.

Lemma commit_reports_selected_path_witness :
  fst (handleInput small_selector "enter") = small_selector /\
  (selection_in_range small_selector ->
     exists e, filteredNodes small_selector !! Z.to_nat (selectedIndex small_selector)
               = Some e /\
               snd (handleInput small_selector "enter")
               = Some (Selected (path (fn_session e)))) /\
  (~ selection_in_range small_selector -> snd (handleInput small_selector "enter") = None).
Proof.
  apply (commit_reports_selected_path small_selector "enter"); reflexivity.
Defined.

Lemma search_escape_restores_list_witness :
  let st' := fst (handleInput searching_selector "escape") in
  searchMode st' = false /\
  getValue (searchInput st') = "" /\
  filteredNodes st' = flatNodes searching_selector /\
  snd (handleInput searching_selector "escape") = None.
Proof.
  apply (search_escape_restores_list searching_selector "escape"); reflexivity.
Defined.

Lemma findIndex_from_spec {A} (f : A -> bool) (l : list A) : forall i,
  let idx := findIndex_from f i l in
  (idx = (-1)%Z /\ forall x, In x l -> f x = false) \/
  ((i <= idx)%Z /\
   exists x, l !! Z.to_nat (idx - i) = Some x /\ f x = true /\
             forall j y, (j < Z.to_nat (idx - i))%nat -> l !! j = Some y -> f y = false).
Proof.
  induction l as [|x l IH]; intros i; simpl; [left; by split|].
  destruct (f x) eqn:Hfx.
  - right. split; [lia|]. exists x. rewrite Z.sub_diag. simpl.
    split; [done|]. split; [done|]. intros j y Hj. lia.
  - destruct (IH (i + 1)%Z) as [[Hidx Hall]|(Hle & y & Hy & Hfy & Hbefore)].
    + left. split; [done|]. intros z [<-|Hz]; [done|by apply Hall].
    + right. split; [lia|]. exists y.
      replace (Z.to_nat (findIndex_from f (i + 1) l - i))
        with (S (Z.to_nat (findIndex_from f (i + 1) l - (i + 1)))) by lia.
      simpl. split; [done|]. split; [done|].
      intros [|j] z Hj Hz; simpl in Hz; [by injection Hz as <-|].
      apply (Hbefore j z); [lia|done].
Qed.

Section Preselection.
Context `{Toolkit}.

(** X15: a selector created with a non-empty current path selects the
    first entry of the flattened list that has this path; when no entry
    has it, the first entry of the list stays selected and nothing is
    scrolled. *)
Theorem current_session_preselected
    (flat : list FlatNode) (maxVisible : Z) (p : string) :
  p <> "" ->
  let st := new_selector flat maxVisible (Some p) in
  ((exists e, In e flat /\ path (fn_session e) = p) ->
     (0 <= selectedIndex st)%Z /\
     exists e, flat !! Z.to_nat (selectedIndex st) = Some e /\
               path (fn_session e) = p /\
               forall j y, (j < Z.to_nat (selectedIndex st))%nat ->
                           flat !! j = Some y -> path (fn_session y) <> p) /\
  ((forall e, In e flat -> path (fn_session e) <> p) ->
     selectedIndex st = 0%Z /\ scrollOffset st = 0%Z).
Proof.
  intros Hne. cbv zeta. unfold new_selector.
  destruct (String.eqb_spec p "") as [?|_]; [done|].
  pose proof (findIndex_from_spec (fun n => (path (fn_session n) =? p)%string) flat 0)
    as Hspec. cbv zeta in Hspec. fold (findIndex (fun n => (path (fn_session n) =? p)%string) flat) in Hspec.
  destruct Hspec as [[Hidx Hall]|(Hle & x & Hx & Hfx & Hbefore)].
  - rewrite Hidx. simpl. split; [|done].
    intros (e & He & Hp). specialize (Hall e He). simpl in Hall.
    apply String.eqb_neq in Hall. done.
  - destruct (Z.geb_spec (findIndex (fun n => (path (fn_session n) =? p)%string) flat) 0)
      as [_|?]; [|lia].
    match goal with |- context [ensureVisible ?s] =>
      destruct (ensureVisible_fields s) as (_ & _ & -> & _) end.
    simpl. rewrite Z.sub_0_r in Hx, Hbefore. split.
    + intros _. split; [lia|]. exists x. split; [done|].
      split; [by apply String.eqb_eq in Hfx|].
      intros j y Hj Hy. specialize (Hbefore j y Hj Hy). simpl in Hbefore.
      by apply String.eqb_neq in Hbefore.
    + intros Hnone. exfalso. apply (Hnone x); [by eapply list_elem_of_In, list_elem_of_lookup_2|].
      by apply String.eqb_eq in Hfx.
Qed.
End Preselection.

Lemma current_session_preselected_witness :
  let st := new_selector three_entries 2 (Some "/c") in
  ((exists e, In e three_entries /\ path (fn_session e) = "/c") ->
     (0 <= selectedIndex st)%Z /\
     exists e, three_entries !! Z.to_nat (selectedIndex st) = Some e /\
               path (fn_session e) = "/c" /\
               forall j y, (j < Z.to_nat (selectedIndex st))%nat ->
                           three_entries !! j = Some y -> path (fn_session y) <> "/c") /\
  ((forall e, In e three_entries -> path (fn_session e) <> "/c") ->
     selectedIndex st = 0%Z /\ scrollOffset st = 0%Z).
Proof.
  apply (current_session_preselected three_entries 2 "/c"). discriminate.
Defined.

Example preselected_and_scrolled :
  (fun st => (selectedIndex st, scrollOffset st)) (new_selector three_entries 2 (Some "/c"))
  = (2%Z, 1%Z).
Proof. vm_compute. reflexivity. Qed.

(** ** More on reading the headers *)

Section HeaderEvents.
Variable JSON_parse : string -> option JValue.

Lemma deliver_closes (closes : list StreamEvent) : forall st,
  Forall (fun ev => ev = EvClose) closes ->
  foldl (deliver JSON_parse) st closes = st.
Proof.
  induction closes as [|ev closes IH]; intros st Hall; [done|].
  apply Forall_cons in Hall as [-> Hall]. simpl. by apply IH.
Qed.

(** X16: the promise of [getSessionHeader] is settled by the first event
    that is not ['close'], and by nothing after it: a line settles it
    with what the line holds, an error with [null]; as long as only
    ['close'] has been delivered it is pending. *)
Theorem first_event_settles_header
    (closes : list StreamEvent) (ev : StreamEvent) (rest : list StreamEvent) :
  Forall (fun e => e = EvClose) closes -> ev <> EvClose ->
  getSessionHeader_on JSON_parse closes = Pending /\
  getSessionHeader_on JSON_parse (closes ++ ev :: rest)
  = Resolved (match ev with
              | EvLine line => on_line JSON_parse line
              | _ => NoHeader
              end).
Proof.
  intros Hcl Hev. unfold getSessionHeader_on. split.
  - by rewrite deliver_closes.
  - rewrite foldl_app, (deliver_closes closes) by done. simpl.
    apply settled_stays. by destruct ev.
Qed.

(** X17: a first line settles the promise with a header exactly when it
    parses to an object whose [type] is the string ["session"]; the header
    then carries the [parentSession] field of that object. *)
Theorem header_recognised_iff_session_object (line : string) (ps : option JValue) :
  on_line JSON_parse line = Header ps
  <-> exists fields,
        JSON_parse line = Some (JObj fields) /\
        lookup_field "type" fields = Some (JStr "session") /\
        lookup_field "parentSession" fields = ps.
Proof. apply on_line_Header_iff. Qed.
End HeaderEvents.

Lemma first_event_settles_header_witness :
  getSessionHeader_on parse_nothing [EvClose] = Pending /\
  getSessionHeader_on parse_nothing ([EvClose] ++ EvLine "x" :: [EvStreamError])
  = Resolved (on_line parse_nothing "x").
Proof.
  apply (first_event_settles_header parse_nothing [EvClose] (EvLine "x") [EvStreamError]).
  - repeat constructor.
  - discriminate.
Defined.

Section LoadResult.
Variable JSON_parse : string -> option JValue.
Variable fs : string -> SessionFile.

Lemma getSessionHeader_settled p :
  fs p <> Lines [] ->
  getSessionHeader JSON_parse fs p = Resolved (settled_header JSON_parse (fs p)).
Proof.
  intros Hne. pose proof (header_of_file JSON_parse fs p) as Hfile.
  destruct (fs p) as [|[|line ls]]; done.
Qed.

Lemma load_loop_result (todo : list Session) : forall total loaded results,
  (forall s, In s todo -> fs (path s) <> Lines []) ->
  snd (load_loop JSON_parse fs total loaded results todo)
  = Resolved (results
              ++ map (fun s => mkLoaded s (read_parent JSON_parse (fs (path s)))) todo).
Proof.
  induction todo as [|s todo IH]; intros total loaded results Hall; simpl.
  - by rewrite app_nil_r.
  - rewrite getSessionHeader_settled by (apply Hall; by left).
    specialize (IH total (S loaded)
                  (results ++ [with_parent s (settled_header JSON_parse (fs (path s)))])).
    destruct (load_loop _ _ _ _ _ _) as [calls out]. simpl in *.
    rewrite IH by (intros s' Hs'; apply Hall; by right).
    by rewrite <- app_assoc.
Qed.

Lemma load_loop_pending (todo : list Session) : forall total loaded results,
  (exists s, In s todo /\ fs (path s) = Lines []) ->
  snd (load_loop JSON_parse fs total loaded results todo) = Pending.
Proof.
  induction todo as [|s todo IH]; intros total loaded results (s0 & Hin & Hempty);
    [done|]. simpl.
  pose proof (header_of_file JSON_parse fs (path s)) as Hfile.
  destruct (fs (path s)) as [|[|line ls]] eqn:Hs.
  - rewrite Hfile.
    destruct Hin as [->|Hin]; [congruence|].
    specialize (IH total (S loaded) (results ++ [with_parent s NoHeader])).
    destruct (load_loop _ _ _ _ _ _) as [calls out]. simpl in *. apply IH. eauto.
  - by rewrite Hfile.
  - rewrite Hfile.
    destruct Hin as [->|Hin]; [congruence|].
    specialize (IH total (S loaded)
                  (results ++ [with_parent s (on_line JSON_parse line)])).
    destruct (load_loop _ _ _ _ _ _) as [calls out]. simpl in *. apply IH. eauto.
Qed.

(** X18: when no record is a zero-length file, [loadSessionsWithParents]
    returns the sessions in their order, each with its fields and, under
    [parentSession], what was read from its record: the value a session
    header holds under that key as it is (a string, but also a number or
    [null]), and [undefined] for an unreadable record, an unparsable first
    line, a header of another kind or a session header without that key.
    When some record is a zero-length file it never returns. *)
Theorem load_returns_sessions_with_parents (sessions : list Session) :
  ((forall s, In s sessions -> fs (path s) <> Lines []) ->
     snd (loadSessionsWithParents JSON_parse fs sessions)
     = Resolved (map (fun s => mkLoaded s (read_parent JSON_parse (fs (path s)))) sessions)) /\
  ((exists s, In s sessions /\ fs (path s) = Lines []) ->
     snd (loadSessionsWithParents JSON_parse fs sessions) = Pending) /\
  (forall (s : Session) line rest,
     fs (path s) = Lines (line :: rest) ->
     forall v, read_parent JSON_parse (fs (path s)) = Some v <->
       exists fields,
         JSON_parse line = Some (JObj fields) /\
         lookup_field "type" fields = Some (JStr "session") /\
         lookup_field "parentSession" fields = Some v) /\
  (forall s : Session, fs (path s) = Unreadable -> read_parent JSON_parse (fs (path s)) = None).
Proof.
  unfold loadSessionsWithParents. split; [|split; [|split]].
  - intros Hall. rewrite load_loop_result by done. done.
  - apply load_loop_pending.
  - intros s line rest Hs v. rewrite Hs. unfold read_parent, settled_header.
    split.
    + intros Hv. destruct (on_line JSON_parse line) as [ps|] eqn:Hline; [|done].
      simpl in Hv. subst ps. by apply on_line_Header_iff in Hline.
    + intros Hex. apply on_line_Header_iff in Hex. by rewrite Hex.
  - intros s Hs. by rewrite Hs.
Qed.
End LoadResult.

(** ** Progress notifications *)

Section ProgressFacts.
Variable JSON_parse : string -> option JValue.
Variable fs : string -> SessionFile.

Lemma load_loop_outcome (todo : list Session) : forall total loaded results,
  exists k, (k <= length todo)%nat /\
    fst (load_loop JSON_parse fs total loaded results todo)
      = map (fun i => (i, total)) (seq (S loaded) k) /\
    ((k = length todo /\
      exists out, snd (load_loop JSON_parse fs total loaded results todo) = Resolved out
                  /\ length out = (length results + length todo)%nat) \/
     ((k < length todo)%nat /\
      snd (load_loop JSON_parse fs total loaded results todo) = Pending /\
      exists s, todo !! k = Some s /\ fs (path s) = Lines [])).
Proof.
  induction todo as [|s todo IH]; intros total loaded results.
  - exists 0%nat. split; [done|]. split; [done|]. left. split; [done|].
    exists results. split; [done|]. simpl. lia.
  - simpl. pose proof (header_of_file JSON_parse fs (path s)) as Hfile.
    assert ((fs (path s) = Lines [] /\ getSessionHeader JSON_parse fs (path s) = Pending)
            \/ exists r, getSessionHeader JSON_parse fs (path s) = Resolved r) as [[He ->]|(r & ->)].
    { destruct (fs (path s)) as [|[|line ls]]; eauto. }
    + exists 0%nat. split; [lia|]. split; [done|]. right.
      split; [lia|]. split; [done|]. by exists s.
    + destruct (IH total (S loaded) (results ++ [with_parent s r]))
        as (k & Hk & Hcalls & Hout).
      destruct (load_loop _ _ _ _ _ _) as [calls out]. simpl in *.
      exists (S k). split; [lia|]. split; [by rewrite Hcalls|].
      destruct Hout as [(-> & o & -> & Hlen)|(Hlt & -> & Hs)].
      * left. split; [done|]. exists o. split; [done|].
        rewrite Hlen, length_app. simpl. lia.
      * right. split; [lia|]. by split.
Qed.

(** X23: in every run of [loadSessionsWithParents] on [n] sessions the
    notifications are [(1, n), (2, n), ..., (k, n)] for some [k <= n]:
    the loaded counts go up by one from 1 and every total is [n].  Either
    [k = n] and the function returns [n] sessions, or [k < n], the record
    of the session at index [k] is a zero-length file and the function
    never returns. *)
Theorem progress_counts_are_consecutive (sessions : list Session) :
  let n := length sessions in
  let run := loadSessionsWithParents JSON_parse fs sessions in
  exists k, (k <= n)%nat /\
    fst run = map (fun i => (i, n)) (seq 1 k) /\
    strictly_increasing (map fst (fst run)) /\
    Forall (fun call => snd call = n) (fst run) /\
    ((k = n /\ exists out, snd run = Resolved out /\ length out = n) \/
     ((k < n)%nat /\ snd run = Pending /\
      exists s, sessions !! k = Some s /\ fs (path s) = Lines [])).
Proof.
  cbv zeta. unfold loadSessionsWithParents.
  destruct (load_loop_outcome sessions (length sessions) 0 []) as (k & Hk & Hcalls & Hout).
  exists k. split; [done|]. split; [done|]. split; [|split; [|exact Hout]].
  - rewrite Hcalls, map_map. simpl. rewrite map_id. apply seq_strictly_increasing.
  - rewrite Hcalls. apply Forall_forall. intros c Hc.
    apply list_elem_of_In, in_map_iff in Hc as (i & <- & _). done.
Qed.

(** X24: when no record is a zero-length file, the notifications of
    [loadSessionsWithParents] on a non-empty list of [n] sessions are
    [(1, n), ..., (n, n)], the last one with its loaded count equal to the
    total, and the function returns [n] sessions. *)
Theorem progress_counts_up_to_total (sessions : list Session) :
  sessions <> [] ->
  (forall s, In s sessions -> fs (path s) <> Lines []) ->
  let n := length sessions in
  let run := loadSessionsWithParents JSON_parse fs sessions in
  fst run = map (fun i => (i, n)) (seq 1 n) /\
  last (fst run) = Some (n, n) /\
  exists out, snd run = Resolved out /\ length out = n.
Proof.
  intros Hne Hall. cbv zeta. unfold loadSessionsWithParents.
  destruct (load_loop_calls JSON_parse fs sessions (length sessions) 0 [])
    as (Hcalls & out & Hout & Hlen).
  { intros s Hs. eexists. apply getSessionHeader_settled. by apply Hall. }
  rewrite Hcalls. split; [done|]. split.
  - destruct sessions as [|s0 rest]; [done|]. simpl length.
    rewrite seq_S, map_app. simpl. by rewrite last_snoc.
  - exists out. split; [done|]. simpl in Hlen. lia.
Qed.
End ProgressFacts.

Lemma progress_counts_up_to_total_witness :
  let n := length demo in
  let run := loadSessionsWithParents parse_nothing one_line_store demo in
  fst run = map (fun i => (i, n)) (seq 1 n) /\
  last (fst run) = Some (n, n) /\
  exists out, snd run = Resolved out /\ length out = n.
Proof.
  apply (progress_counts_up_to_total parse_nothing one_line_store demo).
  - discriminate.
  - intros s _. discriminate.
Defined.

Example header_store_loaded :
  (fun out => match out with
              | Resolved l => map (fun s => (path (ls_session s), ls_parentSession s)) l
              | _ => []
              end) (snd (loadSessionsWithParents parse_headers header_store
                           (demo ++ [sess "/d" None 1 1])))
  = [("/a", Some (JNum 123)); ("/b", Some (JStr "/a")); ("/c", Some JNull); ("/d", None)].
Proof. vm_compute. reflexivity. Qed.

Example mixed_store_loaded :
  (fun out => match out with
              | Resolved l => map (fun s => (path (ls_session s), ls_parentSession s)) l
              | _ => []
              end) (snd (loadSessionsWithParents parse_known mixed_store demo))
  = [("/a", None); ("/b", Some (JStr "/a")); ("/c", None)].
Proof. vm_compute. reflexivity. Qed.

(** ** Formatting helpers *)

(** X19: [formatRelativeDate] by the age [now - date] in milliseconds:
    ["now"] below one minute, dates in the future included; whole minutes
    from 1 to 59 below one hour; whole hours from 1 to 23 below one day;
    whole days from 1 to 6 below seven days; the locale's date from seven
    days on. *)
Theorem relative_date_by_age (tls : Z -> string) (now date : Z) :
  let diff := (now - date)%Z in
  let shown := formatRelativeDate tls now date in
  ((diff < 60000)%Z -> shown = "now") /\
  ((60000 <= diff < 3600000)%Z ->
     shown = number_to_string (diff / 60000) +:+ "m ago" /\ (1 <= diff / 60000 <= 59)%Z) /\
  ((3600000 <= diff < 86400000)%Z ->
     shown = number_to_string (diff / 3600000) +:+ "h ago" /\ (1 <= diff / 3600000 <= 23)%Z) /\
  ((86400000 <= diff < 604800000)%Z ->
     shown = number_to_string (diff / 86400000) +:+ "d ago" /\ (1 <= diff / 86400000 <= 6)%Z) /\
  ((604800000 <= diff)%Z -> shown = tls date).
Proof.
  cbv zeta. unfold formatRelativeDate.
  set (diff := (now - date)%Z).
  pose proof (Z.div_mod diff 60000 ltac:(lia)) as Hm.
  pose proof (Z.mod_pos_bound diff 60000 ltac:(lia)) as Hmb.
  pose proof (Z.div_mod diff 3600000 ltac:(lia)) as Hh.
  pose proof (Z.mod_pos_bound diff 3600000 ltac:(lia)) as Hhb.
  pose proof (Z.div_mod diff 86400000 ltac:(lia)) as Hd.
  pose proof (Z.mod_pos_bound diff 86400000 ltac:(lia)) as Hdb.
  destruct (Z.ltb_spec (diff / 60000) 1); [repeat split; intros; (done || lia)|].
  destruct (Z.ltb_spec (diff / 60000) 60); [repeat split; intros; (done || lia)|].
  destruct (Z.ltb_spec (diff / 3600000) 24); [repeat split; intros; (done || lia)|].
  destruct (Z.ltb_spec (diff / 86400000) 7); repeat split; intros; (done || lia).
Qed.

Example relative_dates :
  map (formatRelativeDate (fun _ => "1/1/2026") 1000000000%Z)
      [ 1000000500; 999999999; 999940000; 996400000; 913600000; 395200000 ]%Z
  = [ "now"; "now"; "1m ago"; "1h ago"; "1d ago"; "1/1/2026" ].
Proof. vm_compute. reflexivity. Qed.

Lemma slice_from_app a b : slice_from (String.length a) (a +:+ b) = b.
Proof. induction a as [|c a IH]; simpl; [by destruct b|exact IH]. Qed.

Lemma length_append a b :
  String.length (a +:+ b) = (String.length a + String.length b)%nat.
Proof. induction a as [|c a IH]; simpl; [done|]. by rewrite IH. Qed.

(** X20: [shortenPath] leaves a path as it is when [HOME] is unset or
    empty or is not a prefix of the path; otherwise it replaces that
    prefix, wherever it ends, by ["~"], so that putting [HOME] back for
    the ["~"] gives the path again.  The result is never longer than the
    path. *)
Theorem shortenPath_replaces_home_prefix (HOME : option string) (p : string) :
  (HOME = None \/ HOME = Some "" -> shortenPath HOME p = p) /\
  (forall home, HOME = Some home -> home <> "" ->
     (forall rest, p = home +:+ rest -> shortenPath HOME p = "~" +:+ rest) /\
     ((forall rest, p <> home +:+ rest) -> shortenPath HOME p = p)) /\
  (String.length (shortenPath HOME p) <= String.length p)%nat.
Proof.
  unfold shortenPath. split; [|split].
  - by intros [->| ->].
  - intros home -> Hne. simpl. rewrite (proj2 (String.eqb_neq home "")) by done. simpl.
    split.
    + intros rest ->.
      rewrite (proj2 (starts_with_spec home (home +:+ rest))) by eauto.
      by rewrite slice_from_app.
    + intros Hnot. destruct (starts_with home p) eqn:E; [|done].
      apply starts_with_spec in E as (rest & ->). by destruct (Hnot rest).
  - destruct HOME as [home|]; simpl; [|lia].
    destruct (String.eqb_spec home "") as [->|Hne]; simpl; [lia|].
    destruct (starts_with home p) eqn:E; [|lia].
    apply starts_with_spec in E as (rest & ->).
    rewrite slice_from_app, length_append. simpl.
    destruct home; [done|simpl; lia].
Qed.

Example shortenPath_examples :
  map (shortenPath (Some "/home/u")) [ "/home/u/projects/foo"; "/srv/x"; "/home/user/x" ]
  = [ "~/projects/foo"; "/srv/x"; "~ser/x" ].
Proof. vm_compute. reflexivity. Qed.

Lemma last_segment_no_slash s : has_slash (last_segment s) = false.
Proof.
  induction s as [|c s IH]; simpl; [done|].
  destruct (has_slash s) eqn:Hs; [exact IH|].
  destruct (Ascii.eqb c "/") eqn:Hc; [exact Hs|]. simpl. by rewrite Hc, Hs.
Qed.

Lemma last_segment_suffix s :
  (has_slash s = false /\ last_segment s = s) \/
  (exists dir, s = dir +:+ "/" +:+ last_segment s).
Proof.
  induction s as [|c s IH]; simpl; [by left|].
  destruct (has_slash s) eqn:Hs.
  - right. destruct IH as [[? _]|(dir & Hdir)]; [done|].
    exists (String c dir). simpl. f_equal. exact Hdir.
  - destruct (Ascii.eqb c "/") eqn:Hc.
    + right. apply Ascii.eqb_eq in Hc as ->. by exists "".
    + left. simpl. rewrite ?Hc, ?Hs. by split.
Qed.

Lemma has_slash_mid dir name : has_slash (dir +:+ "/" +:+ name) = true.
Proof. induction dir as [|c dir IH]; simpl in *; [done|]. by rewrite IH, orb_true_r. Qed.

(** X21: the name shown for a chosen session path is what follows the
    last ["/"] of the path, and holds no ["/"] itself; for a path without
    ["/"], and for a path that ends with ["/"], it is the whole path. *)
Theorem shown_filename_is_last_segment (result : string) :
  (has_slash result = false -> shown_filename result = result) /\
  (forall dir, result = dir +:+ "/" -> shown_filename result = result) /\
  (forall dir name, result = dir +:+ "/" +:+ name -> name <> "" ->
     has_slash name = false -> shown_filename result = name) /\
  (last_segment result <> "" -> has_slash (shown_filename result) = false).
Proof.
  assert (forall dir name, has_slash name = false ->
            last_segment (dir +:+ "/" +:+ name) = name) as Hseg.
  { intros dir name Hn. induction dir as [|c dir IH]; simpl.
    - by rewrite Hn.
    - pose proof (has_slash_mid dir name) as Hmid. simpl in Hmid, IH.
      by rewrite Hmid. }
  unfold shown_filename. split; [|split; [|split]].
  - intros Hs. destruct (last_segment_suffix result) as [[_ ->]|(dir & Hdir)].
    + by destruct (result =? "")%string eqn:E; [apply String.eqb_eq in E|].
    + rewrite Hdir in Hs. exfalso. clear -Hs.
      induction dir as [|c dir IH]; simpl in Hs; [done|].
      apply orb_false_iff in Hs as [_ Hs]. by apply IH.
  - intros dir ->. rewrite <- (append_nil_r (dir +:+ "/")) at 1.
    rewrite append_assoc. by rewrite (Hseg dir "").
  - intros dir name -> Hne Hn. rewrite (Hseg dir name Hn).
    by rewrite (proj2 (String.eqb_neq name "")).
  - intros Hne. rewrite (proj2 (String.eqb_neq _ "") Hne).
    apply last_segment_no_slash.
Qed.

Example shown_filenames :
  map shown_filename [ "/home/u/.pi/sessions/s1.jsonl"; "s2.jsonl"; "/dir/" ]
  = [ "s1.jsonl"; "s2.jsonl"; "/dir/" ].
Proof. vm_compute. reflexivity. Qed.

(** ** The rendered rows *)

Lemma slice_window {A} (l : list A) (off size : Z) :
  (0 <= off <= Z.of_nat (length l))%Z -> (0 <= size)%Z ->
  slice l off (off + size) = take (Z.to_nat size) (drop (Z.to_nat off) l).
Proof.
  intros Hoff Hsize. unfold slice, slice_bound.
  destruct (Z.ltb_spec off 0); [lia|].
  destruct (Z.ltb_spec (off + size) 0); [lia|].
  rewrite (Z.min_l off) by lia.
  destruct (Z.le_gt_cases (off + size) (Z.of_nat (length l))) as [Hin|Hout].
  - rewrite Z.min_l by lia. f_equal. lia.
  - rewrite Z.min_r by lia.
    rewrite !take_ge; [done| |]; rewrite length_drop; lia.
Qed.

Section RenderFacts.
Context `{StringMethods} `{Toolkit} `{Styling}.
Variable showAllProjects : bool.
Variable now : Z.
Variable HOME : option string.

Lemma render_rows_length (st : Selector) width nodes : forall i,
  length (render_rows showAllProjects now HOME st width i nodes) = length nodes.
Proof. induction nodes as [|n nodes IH]; intros i; simpl; [done|]. by rewrite IH. Qed.

Lemma render_rows_lookup (st : Selector) width nodes : forall i k,
  render_rows showAllProjects now HOME st width i nodes !! k
  = render_row showAllProjects now HOME st width (i + k) <$> nodes !! k.
Proof.
  induction nodes as [|n nodes IH]; intros i k; [done|].
  destruct k as [|k]; simpl.
  - by rewrite Nat.add_0_r.
  - rewrite IH. by replace (S i + k)%nat with (i + S k)%nat by lia.
Qed.

(** X22: when the scroll offset is not negative and the selected index
    is in range and inside the window, [render] draws at most
    [maxVisibleLines + 7] lines.  Below the two header lines and the two
    lines of an open search come the rows of the entries of the window,
    one per entry and in their order, as many as the window holds or as
    are left from the scroll offset on.  The row of the selected entry is
    among them, and it is the only one drawn with the selection
    background: every other row is the line of its entry in the colour of
    the current session, in the colour of a child, or plain.  The line of
    an entry does not depend on the selection or on the scroll offset. *)
Theorem selected_row_is_rendered (st : Selector) (width : Z) :
  (0 <= scrollOffset st)%Z -> in_window st -> selection_in_range st ->
  let lines := render showAllProjects now HOME st width in
  let top := (2 + (if searchMode st then 2 else 0))%nat in
  let shown := Z.to_nat (selectedIndex st - scrollOffset st) in
  let rows := Z.min (maxVisibleLines st)
                (Z.of_nat (length (filteredNodes st)) - scrollOffset st) in
  Z.of_nat (length (visibleNodes st)) = rows /\
  (Z.of_nat top + rows + 2 <= Z.of_nat (length lines) <= maxVisibleLines st + 7)%Z /\
  (shown < length (visibleNodes st))%nat /\
  (forall k, (k < length (visibleNodes st))%nat ->
     exists e,
       filteredNodes st !! (Z.to_nat (scrollOffset st) + k)%nat = Some e /\
       lines !! (top + k)%nat
       = Some (truncateToWidth
                 (if bool_decide (k = shown)
                  then theme_bg "selectedBg"
                         (theme_fg "accent" (row_line showAllProjects now HOME st width e))
                  else if isCurrent st e
                  then theme_fg "success" (row_line showAllProjects now HOME st width e)
                  else if (0 <? fn_depth e)%nat
                  then theme_fg "text" (row_line showAllProjects now HOME st width e)
                  else row_line showAllProjects now HOME st width e)
                 width)) /\
  (forall st' e,
     currentSessionPath st' = currentSessionPath st ->
     row_line showAllProjects now HOME st' width e
     = row_line showAllProjects now HOME st width e).
Proof.
  intros Hoff Hwin Hsel. unfold in_window, selection_in_range in *. cbv zeta.
  assert (visibleNodes st
          = take (Z.to_nat (maxVisibleLines st)) (drop (Z.to_nat (scrollOffset st))
                                                    (filteredNodes st))) as Hvis
    by (unfold visibleNodes; apply slice_window; lia).
  assert (Z.of_nat (length (visibleNodes st))
          = Z.min (maxVisibleLines st)
              (Z.of_nat (length (filteredNodes st)) - scrollOffset st)) as Hlen.
  { rewrite Hvis, length_take, length_drop. lia. }
  assert (forall (A B C D : list string) j,
    length A = 2%nat -> (j < length C)%nat ->
    (A ++ B ++ (C ++ D) ++ [ "";
       theme_fg "dim"
         (" " +:+ (if searchMode st
                   then "enter: apply filter • esc: cancel search"
                   else "↑↓/jk: navigate • enter: select • /: filter • esc: cancel")) ])
      !! (2 + length B + j)%nat = C !! j) as Hlook.
  { intros A B C D j HA Hj.
    rewrite lookup_app_r by lia. rewrite HA.
    rewrite lookup_app_r by lia.
    rewrite lookup_app_l by (rewrite length_app; lia).
    rewrite lookup_app_l by lia. f_equal. lia. }
  split; [exact Hlen|]. split; [|split; [lia|split]].
  - rewrite <- Hlen. unfold render.
    destruct (Z.eqb_spec (Z.of_nat (length (filteredNodes st))) 0) as [?|_]; [lia|].
    destruct (searchMode st),
      (Z.of_nat (length (filteredNodes st)) >? maxVisibleLines st)%Z;
      repeat (rewrite ?length_app, ?render_rows_length; cbn [length]); lia.
  - intros k Hk.
    destruct (visibleNodes st !! k) as [e|] eqn:He; [|apply lookup_ge_None in He; lia].
    exists e. split.
    { rewrite Hvis in He. apply lookup_take_Some in He as [He _].
      by rewrite lookup_drop in He. }
    assert (isSelected st k = bool_decide (k = Z.to_nat (selectedIndex st - scrollOffset st)))
      as Hmark.
    { unfold isSelected. case_bool_decide as Hd.
      - apply Z.eqb_eq. lia.
      - apply Z.eqb_neq. lia. }
    unfold render.
    destruct (Z.eqb_spec (Z.of_nat (length (filteredNodes st))) 0) as [?|_]; [lia|].
    destruct (searchMode st).
    + rewrite (Hlook _ [_; _]); [|done|by rewrite render_rows_length].
      rewrite render_rows_lookup, He. simpl. unfold render_row. by rewrite Hmark.
    + rewrite (Hlook _ []); [|done|by rewrite render_rows_length].
      rewrite render_rows_lookup, He. simpl. unfold render_row. by rewrite Hmark.
  - intros st' e Hcur. unfold row_line, isCurrent. by rewrite Hcur.
Qed.
End RenderFacts.

Lemma selected_row_is_rendered_witness :
  let st := small_selector in
  let lines := render true 1000000000%Z (Some "/home/u") st 80 in
  let top := (2 + (if searchMode st then 2 else 0))%nat in
  let shown := Z.to_nat (selectedIndex st - scrollOffset st) in
  let rows := Z.min (maxVisibleLines st)
                (Z.of_nat (length (filteredNodes st)) - scrollOffset st) in
  Z.of_nat (length (visibleNodes st)) = rows /\
  (Z.of_nat top + rows + 2 <= Z.of_nat (length lines) <= maxVisibleLines st + 7)%Z /\
  (shown < length (visibleNodes st))%nat /\
  (forall k, (k < length (visibleNodes st))%nat ->
     exists e,
       filteredNodes st !! (Z.to_nat (scrollOffset st) + k)%nat = Some e /\
       lines !! (top + k)%nat
       = Some (truncateToWidth
                 (if bool_decide (k = shown)
                  then theme_bg "selectedBg"
                         (theme_fg "accent" (row_line true 1000000000%Z (Some "/home/u") st 80 e))
                  else if isCurrent st e
                  then theme_fg "success" (row_line true 1000000000%Z (Some "/home/u") st 80 e)
                  else if (0 <? fn_depth e)%nat
                  then theme_fg "text" (row_line true 1000000000%Z (Some "/home/u") st 80 e)
                  else row_line true 1000000000%Z (Some "/home/u") st 80 e)
                 80)) /\
  (forall st' e,
     currentSessionPath st' = currentSessionPath st ->
     row_line true 1000000000%Z (Some "/home/u") st' 80 e
     = row_line true 1000000000%Z (Some "/home/u") st 80 e).
Proof.
  apply (selected_row_is_rendered true 1000000000%Z (Some "/home/u") small_selector 80).
  - simpl. lia.
  - unfold in_window. simpl. lia.
  - unfold selection_in_range. simpl. lia.
Defined.

(** The rows of [small_selector], whose second entry is selected: that
    row alone carries the selection background. *)
Example small_selector_rows :
  (fun lines => (lines !! 2%nat, lines !! 3%nat))
    (render false 86400000%Z None small_selector 40)
  = (Some "  (empty)                     <dim>23h ago",
     Some "[selectedBg]<accent>  (empty)                     <dim>23h ago").
Proof. vm_compute. reflexivity. Qed.

Example small_selector_rendered :
  length (render false 1000000000%Z None small_selector 80) = 7%nat /\
  render false 1000000000%Z None small_selector 80 !! 4%nat
  = Some "<dim> 1-2 of 3".
Proof. split; vm_compute; reflexivity. Qed.
